(** * Path visualizer: the pathfinding engine of [src/algorithms.js]

    A shallow embedding of the priority queue, the neighbour expansion,
    the path reconstruction and the five searches (Dijkstra, BFS, DFS,
    A-star, greedy best-first), followed by the properties of the
    specification that they satisfy or break. *)

From stdpp Require Import gmap list sorting.

Local Open Scope Z_scope.

(** ** JavaScript values

    Coordinates are integer-valued JS numbers.  The numeric tables hold
    integers or [Infinity]; [NaN] only arises from arithmetic on a slot
    that was never written. *)

Abbreviation Coord := (Z * Z)%type.
Definition row (c : Coord) : Z := c.1.
Definition col (c : Coord) : Z := c.2.

Inductive num : Type :=
  | Fin (z : Z)
  | Infinity
  | NaN.

(** [x + k] where [x] is read from a table ([None] is [undefined]). *)
Definition num_add (x : option num) (k : Z) : num :=
  match x with
  | Some (Fin z) => Fin (z + k)
  | Some Infinity => Infinity
  | _ => NaN
  end.

(** [a < b] on JS numbers; any comparison with [NaN] or [undefined] is false. *)
Definition num_lt (a : num) (b : option num) : bool :=
  match a, b with
  | Fin x, Some (Fin y) => bool_decide (x < y)
  | Fin _, Some Infinity => true
  | _, _ => false
  end.

(** The sign test [a - b > 0] of the queue's comparator.  [Infinity -
    Infinity] and anything with [NaN] give [NaN], which [sort] treats as 0. *)
Definition num_gt (a b : num) : bool :=
  match a, b with
  | Fin x, Fin y => bool_decide (y < x)
  | Infinity, Fin _ => true
  | _, _ => false
  end.

(** ** Outcomes

    A call returns, throws a [TypeError] (a property read on [undefined]),
    or exhausts the iteration budget of the model. *)

Inductive outcome (A : Type) : Type :=
  | Ret (a : A)
  | Throws
  | NoFuel.
Arguments Ret {A} a.
Arguments Throws {A}.
Arguments NoFuel {A}.

#[global] Instance outcome_ret : MRet outcome := @Ret.
#[global] Instance outcome_bind : MBind outcome := λ A B f m,
  match m with
  | Ret a => f a
  | Throws => Throws
  | NoFuel => NoFuel
  end.

(** [for (const x of xs) body] over an immutable array. *)
Fixpoint for_of {A S : Type} (body : S → A → outcome S) (xs : list A) (s : S)
  : outcome S :=
  match xs with
  | [] => Ret s
  | x :: xs' => s' ← body s x; for_of body xs' s'
  end.

(** ** Two-dimensional arrays

    [Array(rows).fill().map(() => Array(cols).fill(x))].  The outer array
    is only ever indexed, so an index outside [0, rows) yields [undefined]
    and the inner access throws.  An inner array is a JS object: a read of
    a slot that was never written yields [undefined], and a write to any
    integer index stores the value. *)

Record Table (A : Type) : Type := mkTable {
  t_rows : Z;
  t_cells : gmap (Z * Z) A
}.
Arguments mkTable {A} _ _.
Arguments t_rows {A} _.
Arguments t_cells {A} _.

Definition cells_of (rows cols : nat) : list (Z * Z) :=
  r ← seqZ 0 (Z.of_nat rows); c ← seqZ 0 (Z.of_nat cols); [(r, c)].

Definition new_table {A} (rows cols : nat) (x : A) : Table A :=
  mkTable (Z.of_nat rows) (gset_to_gmap x (list_to_set (cells_of rows cols))).

(** [[]], the value of [distances] in the empty result. *)
Definition empty_table {A} : Table A := mkTable 0 ∅.

Definition in_rows {A} (t : Table A) (r : Z) : bool :=
  bool_decide (0 ≤ r < t_rows t).

(** [t[r][c]] *)
Definition tget {A} (t : Table A) (p : Coord) : outcome (option A) :=
  if in_rows t (row p) then Ret (t_cells t !! p) else Throws.

(** [t[r][c] = v] *)
Definition tset {A} (t : Table A) (p : Coord) (v : A) : outcome (Table A) :=
  if in_rows t (row p) then Ret (mkTable (t_rows t) (<[p := v]> (t_cells t)))
  else Throws.

(** ** The grid *)

Record Cell : Type := mkCell {
  isWall : bool;
  isStart : bool;
  isEnd : bool
}.

Abbreviation Grid := (list (list Cell)).

Definition zlookup {A} (l : list A) (i : Z) : option A :=
  if bool_decide (0 ≤ i) then l !! Z.to_nat i else None.

Definition grid_rows (grid : Grid) : Z := Z.of_nat (length grid).

(** [grid[0].length]; only evaluated when the grid has a first row. *)
Definition grid_cols (grid : Grid) : Z :=
  match grid !! 0%nat with
  | Some r0 => Z.of_nat (length r0)
  | None => 0
  end.

(** [grid[row][col].isWall] *)
Definition cell_isWall (grid : Grid) (p : Coord) : outcome bool :=
  match zlookup grid (row p) with
  | None => Throws
  | Some r =>
      match zlookup r (col p) with
      | None => Throws
      | Some c => Ret (isWall c)
      end
  end.

(** ** class PriorityQueue

    [values] is an array of [{val, priority}]; a [Node] is identified by
    its coordinates (its [distance] and [previous] fields are written by
    the constructor and never read). *)

Abbreviation Item := (Coord * num)%type.
Definition val (i : Item) : Coord := i.1.
Definition priority (i : Item) : num := i.2.

Abbreviation PriorityQueue := (list Item).

(** [Array.prototype.sort] is stable: an element moves in front of exactly
    those earlier-sorted elements that compare strictly greater. *)
Fixpoint sort_insert (x : Item) (l : list Item) : list Item :=
  match l with
  | [] => [x]
  | y :: l' =>
      if num_gt (priority x) (priority y) then y :: sort_insert x l'
      else x :: y :: l'
  end.

Definition sort (q : PriorityQueue) : PriorityQueue :=
  foldr sort_insert [] q.

Definition enqueue (v : Coord) (p : num) (q : PriorityQueue) : PriorityQueue :=
  sort (q ++ [(v, p)]).

(** [Array.prototype.shift]: removes and returns the first element, or
    returns [undefined] ([None]) and leaves the array empty. *)
Definition shift {A} (l : list A) : option A * list A :=
  match l with
  | [] => (None, [])
  | x :: l' => (Some x, l')
  end.

(** [dequeue() { return this.values.shift(); }] *)
Definition dequeue (q : PriorityQueue) : outcome (option Item * PriorityQueue) :=
  Ret (shift q).

Definition isEmpty (q : PriorityQueue) : bool :=
  bool_decide (length q = 0%nat).

Definition same_node (r c : Z) (i : Item) : bool :=
  bool_decide (row (val i) = r) && bool_decide (col (val i) = c).

Definition hasNode (r c : Z) (q : PriorityQueue) : bool :=
  existsb (same_node r c) q.

Fixpoint set_first_priority (r c : Z) (p : num) (q : PriorityQueue)
  : option PriorityQueue :=
  match q with
  | [] => None
  | i :: q' =>
      if same_node r c i then Some ((val i, p) :: q')
      else cons i <$> set_first_priority r c p q'
  end.

Definition updatePriority (r c : Z) (p : num) (q : PriorityQueue) : PriorityQueue :=
  match set_first_priority r c p q with
  | Some q' => sort q'
  | None => q
  end.

(** ** Helpers *)

Definition isValidPosition (r c : Z) (grid : Grid) : bool :=
  bool_decide (0 ≤ r) && bool_decide (r < grid_rows grid)
  && bool_decide (0 ≤ c) && bool_decide (c < grid_cols grid).

Definition directions : list Coord := [(-1, 0); (1, 0); (0, -1); (0, 1)].

Definition getNeighbors (r c : Z) (grid : Grid) : list Coord :=
  omap (λ d, let n := (r + row d, c + col d) in
             if isValidPosition (row n) (col n) grid then Some n else None)
       directions.

Definition manhattanDistance (a b : Coord) : Z :=
  Z.abs (row a - row b) + Z.abs (col a - col b).

Definition same_coord (a b : Coord) : bool :=
  bool_decide (row a = row b) && bool_decide (col a = col b).

(** The backward walk of [getNodesInShortestPathOrder]; [cur] is the node
    about to be tested against [null]. *)
Fixpoint walk_back (fuel : nat) (previousNodes : Table (option Coord))
    (cur : option Coord) (acc : list Coord) : outcome (list Coord) :=
  match cur with
  | None => Ret acc
  | Some c =>
      match fuel with
      | O => NoFuel
      | S fuel' =>
          nxt ← tget previousNodes c;
          match nxt with
          | None => Throws
          | Some nxt' => walk_back fuel' previousNodes nxt' (c :: acc)
          end
      end
  end.

Definition getNodesInShortestPathOrder (fuel : nat)
    (previousNodes : Table (option Coord)) (end_ : Coord) : outcome (list Coord) :=
  cur ← tget previousNodes end_;
  match cur with
  | Some None => Ret []
  | Some (Some c) => walk_back fuel previousNodes (Some c) []
  | None => Throws
  end.

(** ** Results and input validation *)

Record Result : Type := mkResult {
  visitedNodesInOrder : list Coord;
  shortestPath : list Coord;
  distances : option (Table num)
}.

(** [{ visitedNodesInOrder: [], shortestPath: [], distances: [] }] *)
Definition empty_result_with_distances : Result := mkResult [] [] (Some empty_table).
(** [{ visitedNodesInOrder: [], shortestPath: [] }] *)
Definition empty_result : Result := mkResult [] [] None.

(** [!grid || !grid.length || !grid[0] || !grid[0].length || !start || !end];
    [None] stands for [null] or [undefined], and an array is truthy. *)
Definition rejects (grid : option Grid) (start end_ : option Coord) : bool :=
  match grid with
  | None => true
  | Some g =>
      bool_decide (length g = 0%nat)
      || match g !! 0%nat with
         | None => true
         | Some r0 => bool_decide (length r0 = 0%nat)
         end
      || match start with None => true | Some _ => false end
      || match end_ with None => true | Some _ => false end
  end.

(** Iteration budget of the main loops and of the backward walk: one more
    than the number of cells. *)
Definition budget (grid : Grid) : nat :=
  S (length grid * Z.to_nat (grid_cols grid)).

Definition truthy (b : option bool) : bool := default false b.

(** ** dijkstra *)

Record DijkstraState : Type := mkDijkstra {
  dj_visitedNodesInOrder : list Coord;
  dj_unvisitedNodes : PriorityQueue;
  dj_distances : Table num;
  dj_previousNodes : Table (option Coord);
  dj_visited : Table bool
}.

(** Body of [for (const neighbor of neighbors)]. *)
Definition dijkstra_neighbor (grid : Grid) (currentNode : Coord)
    (st : DijkstraState) (neighbor : Coord) : outcome DijkstraState :=
  v ← tget (dj_visited st) neighbor;
  if truthy v then Ret st else
  w ← cell_isWall grid neighbor;
  if (w : bool) then Ret st else
  dcur ← tget (dj_distances st) currentNode;
  let newDistance := num_add dcur 1 in
  dn ← tget (dj_distances st) neighbor;
  if num_lt newDistance dn then
    distances' ← tset (dj_distances st) neighbor newDistance;
    previousNodes' ← tset (dj_previousNodes st) neighbor (Some currentNode);
    let q := dj_unvisitedNodes st in
    let q' := if hasNode (row neighbor) (col neighbor) q
              then updatePriority (row neighbor) (col neighbor) newDistance q
              else enqueue neighbor newDistance q in
    Ret (mkDijkstra (dj_visitedNodesInOrder st) q' distances' previousNodes'
           (dj_visited st))
  else Ret st.

(** [while (!unvisitedNodes.isEmpty())] *)
Fixpoint dijkstra_loop (fuel : nat) (grid : Grid) (end_ : Coord)
    (st : DijkstraState) : outcome DijkstraState :=
  match fuel with
  | O => NoFuel
  | S fuel' =>
      if isEmpty (dj_unvisitedNodes st) then Ret st else
      '(head, q) ← dequeue (dj_unvisitedNodes st);
      match head with
      | None => Throws
      | Some item =>
          let currentNode := val item in
          v ← tget (dj_visited st) currentNode;
          if truthy v then
            dijkstra_loop fuel' grid end_
              (mkDijkstra (dj_visitedNodesInOrder st) q (dj_distances st)
                 (dj_previousNodes st) (dj_visited st))
          else
            visited' ← tset (dj_visited st) currentNode true;
            let st1 := mkDijkstra (dj_visitedNodesInOrder st ++ [currentNode]) q
                         (dj_distances st) (dj_previousNodes st) visited' in
            if same_coord currentNode end_ then Ret st1 else
            st2 ← for_of (dijkstra_neighbor grid currentNode)
                     (getNeighbors (row currentNode) (col currentNode) grid) st1;
            dijkstra_loop fuel' grid end_ st2
      end
  end.

Definition dijkstra_init (grid : Grid) (start : Coord) : outcome DijkstraState :=
  let rows := length grid in
  let cols := Z.to_nat (grid_cols grid) in
  distances' ← tset (new_table rows cols Infinity) start (Fin 0);
  Ret (mkDijkstra [] (enqueue start (Fin 0) []) distances'
         (new_table rows cols None) (new_table rows cols false)).

(** The search proper: everything before the path reconstruction. *)
Definition dijkstra_search (fuel : nat) (grid : Grid) (start end_ : Coord)
  : outcome DijkstraState :=
  st ← dijkstra_init grid start;
  dijkstra_loop fuel grid end_ st.

Definition dijkstra_run (fuel : nat) (grid : Grid) (start end_ : Coord)
  : outcome Result :=
  st ← dijkstra_search fuel grid start end_;
  path ← getNodesInShortestPathOrder fuel (dj_previousNodes st) end_;
  Ret (mkResult (dj_visitedNodesInOrder st) path (Some (dj_distances st))).

Definition dijkstra (grid : option Grid) (start end_ : option Coord)
  : outcome Result :=
  match grid, start, end_ with
  | Some g, Some s, Some e =>
      if rejects grid start end_ then Ret empty_result_with_distances
      else dijkstra_run (budget g) g s e
  | _, _, _ => Ret empty_result_with_distances
  end.

(** ** bfs and dfs

    The two differ only in the end of the frontier array they take from:
    [queue.shift()] takes the oldest entry, [stack.pop()] the newest.  The
    BFS queue is kept in array order; the DFS stack is kept newest first. *)

Record FrontierState : Type := mkFrontier {
  fr_visitedNodesInOrder : list Coord;
  fr_frontier : list Coord;
  fr_visited : Table bool;
  fr_previousNodes : Table (option Coord)
}.

Inductive Discipline : Type := Fifo | Lifo.

(** [queue.push(x)] / [stack.push(x)] *)
Definition frontier_push (d : Discipline) (x : Coord) (l : list Coord) : list Coord :=
  match d with
  | Fifo => l ++ [x]
  | Lifo => x :: l
  end.

Definition frontier_neighbor (d : Discipline) (grid : Grid) (currentNode : Coord)
    (st : FrontierState) (neighbor : Coord) : outcome FrontierState :=
  v ← tget (fr_visited st) neighbor;
  if truthy v then Ret st else
  w ← cell_isWall grid neighbor;
  if (w : bool) then Ret st else
  visited' ← tset (fr_visited st) neighbor true;
  previousNodes' ← tset (fr_previousNodes st) neighbor (Some currentNode);
  Ret (mkFrontier (fr_visitedNodesInOrder st)
         (frontier_push d neighbor (fr_frontier st)) visited' previousNodes').

Fixpoint frontier_loop (d : Discipline) (fuel : nat) (grid : Grid) (end_ : Coord)
    (st : FrontierState) : outcome FrontierState :=
  match fuel with
  | O => NoFuel
  | S fuel' =>
      match fr_frontier st with
      | [] => Ret st
      | currentNode :: rest =>
          let st1 := mkFrontier (fr_visitedNodesInOrder st ++ [currentNode]) rest
                       (fr_visited st) (fr_previousNodes st) in
          if same_coord currentNode end_ then Ret st1 else
          st2 ← for_of (frontier_neighbor d grid currentNode)
                   (getNeighbors (row currentNode) (col currentNode) grid) st1;
          frontier_loop d fuel' grid end_ st2
      end
  end.

Definition frontier_init (grid : Grid) (start : Coord) : outcome FrontierState :=
  let rows := length grid in
  let cols := Z.to_nat (grid_cols grid) in
  visited' ← tset (new_table rows cols false) start true;
  Ret (mkFrontier [] [start] visited' (new_table rows cols None)).

Definition frontier_search (d : Discipline) (fuel : nat) (grid : Grid)
    (start end_ : Coord) : outcome FrontierState :=
  st ← frontier_init grid start;
  frontier_loop d fuel grid end_ st.

Definition frontier_run (d : Discipline) (fuel : nat) (grid : Grid)
    (start end_ : Coord) : outcome Result :=
  st ← frontier_search d fuel grid start end_;
  path ← getNodesInShortestPathOrder fuel (fr_previousNodes st) end_;
  Ret (mkResult (fr_visitedNodesInOrder st) path None).

Definition bfs (grid : option Grid) (start end_ : option Coord) : outcome Result :=
  match grid, start, end_ with
  | Some g, Some s, Some e =>
      if rejects grid start end_ then Ret empty_result
      else frontier_run Fifo (budget g) g s e
  | _, _, _ => Ret empty_result
  end.

Definition dfs (grid : option Grid) (start end_ : option Coord) : outcome Result :=
  match grid, start, end_ with
  | Some g, Some s, Some e =>
      if rejects grid start end_ then Ret empty_result
      else frontier_run Lifo (budget g) g s e
  | _, _, _ => Ret empty_result
  end.

(** ** astar

    [closedSet] is a [Set] of the strings [`${row}-${col}`]; the rendering
    of a pair of integers is injective, so it is a set of coordinates. *)

Record AstarState : Type := mkAstar {
  as_visitedNodesInOrder : list Coord;
  as_openSet : PriorityQueue;
  as_closedSet : gset Coord;
  as_gScore : Table num;
  as_fScore : Table num;
  as_previousNodes : Table (option Coord)
}.

Definition astar_neighbor (grid : Grid) (end_ currentNode : Coord)
    (st : AstarState) (neighbor : Coord) : outcome AstarState :=
  if bool_decide (neighbor ∈ as_closedSet st) then Ret st else
  w ← cell_isWall grid neighbor;
  if (w : bool) then Ret st else
  gcur ← tget (as_gScore st) currentNode;
  let tentativeGScore := num_add gcur 1 in
  gn ← tget (as_gScore st) neighbor;
  if num_lt tentativeGScore gn then
    previousNodes' ← tset (as_previousNodes st) neighbor (Some currentNode);
    gScore' ← tset (as_gScore st) neighbor tentativeGScore;
    gn' ← tget gScore' neighbor;
    let f := num_add gn' (manhattanDistance neighbor end_) in
    fScore' ← tset (as_fScore st) neighbor f;
    let q := as_openSet st in
    let q' := if hasNode (row neighbor) (col neighbor) q then q
              else enqueue neighbor f q in
    Ret (mkAstar (as_visitedNodesInOrder st) q' (as_closedSet st)
           gScore' fScore' previousNodes')
  else Ret st.

Fixpoint astar_loop (fuel : nat) (grid : Grid) (end_ : Coord)
    (st : AstarState) : outcome AstarState :=
  match fuel with
  | O => NoFuel
  | S fuel' =>
      if isEmpty (as_openSet st) then Ret st else
      '(head, q) ← dequeue (as_openSet st);
      match head with
      | None => Throws
      | Some item =>
          let currentNode := val item in
          let st1 := mkAstar (as_visitedNodesInOrder st ++ [currentNode]) q
                       (as_closedSet st) (as_gScore st) (as_fScore st)
                       (as_previousNodes st) in
          if same_coord currentNode end_ then Ret st1 else
          let st2 := mkAstar (as_visitedNodesInOrder st1) q
                       ({[currentNode]} ∪ as_closedSet st) (as_gScore st)
                       (as_fScore st) (as_previousNodes st) in
          st3 ← for_of (astar_neighbor grid end_ currentNode)
                   (getNeighbors (row currentNode) (col currentNode) grid) st2;
          astar_loop fuel' grid end_ st3
      end
  end.

Definition astar_init (grid : Grid) (start end_ : Coord) : outcome AstarState :=
  let rows := length grid in
  let cols := Z.to_nat (grid_cols grid) in
  gScore' ← tset (new_table rows cols Infinity) start (Fin 0);
  let f := Fin (manhattanDistance start end_) in
  fScore' ← tset (new_table rows cols Infinity) start f;
  Ret (mkAstar [] (enqueue start f []) ∅ gScore' fScore'
         (new_table rows cols None)).

Definition astar_search (fuel : nat) (grid : Grid) (start end_ : Coord)
  : outcome AstarState :=
  st ← astar_init grid start end_;
  astar_loop fuel grid end_ st.

Definition astar_run (fuel : nat) (grid : Grid) (start end_ : Coord)
  : outcome Result :=
  st ← astar_search fuel grid start end_;
  path ← getNodesInShortestPathOrder fuel (as_previousNodes st) end_;
  Ret (mkResult (as_visitedNodesInOrder st) path None).

Definition astar (grid : option Grid) (start end_ : option Coord) : outcome Result :=
  match grid, start, end_ with
  | Some g, Some s, Some e =>
      if rejects grid start end_ then Ret empty_result
      else astar_run (budget g) g s e
  | _, _, _ => Ret empty_result
  end.

(** ** greedy *)

Record GreedyState : Type := mkGreedy {
  gr_visitedNodesInOrder : list Coord;
  gr_openSet : PriorityQueue;
  gr_closedSet : gset Coord;
  gr_previousNodes : Table (option Coord)
}.

Definition greedy_neighbor (grid : Grid) (end_ currentNode : Coord)
    (st : GreedyState) (neighbor : Coord) : outcome GreedyState :=
  if bool_decide (neighbor ∈ gr_closedSet st) then Ret st else
  w ← cell_isWall grid neighbor;
  if (w : bool) then Ret st else
  let heuristic := Fin (manhattanDistance neighbor end_) in
  previousNodes' ← tset (gr_previousNodes st) neighbor (Some currentNode);
  let q := gr_openSet st in
  let q' := if hasNode (row neighbor) (col neighbor) q then q
            else enqueue neighbor heuristic q in
  Ret (mkGreedy (gr_visitedNodesInOrder st) q' (gr_closedSet st) previousNodes').

Fixpoint greedy_loop (fuel : nat) (grid : Grid) (end_ : Coord)
    (st : GreedyState) : outcome GreedyState :=
  match fuel with
  | O => NoFuel
  | S fuel' =>
      if isEmpty (gr_openSet st) then Ret st else
      '(head, q) ← dequeue (gr_openSet st);
      match head with
      | None => Throws
      | Some item =>
          let currentNode := val item in
          let st1 := mkGreedy (gr_visitedNodesInOrder st ++ [currentNode]) q
                       (gr_closedSet st) (gr_previousNodes st) in
          if same_coord currentNode end_ then Ret st1 else
          let st2 := mkGreedy (gr_visitedNodesInOrder st1) q
                       ({[currentNode]} ∪ gr_closedSet st) (gr_previousNodes st) in
          st3 ← for_of (greedy_neighbor grid end_ currentNode)
                   (getNeighbors (row currentNode) (col currentNode) grid) st2;
          greedy_loop fuel' grid end_ st3
      end
  end.

Definition greedy_init (grid : Grid) (start : Coord) : GreedyState :=
  let rows := length grid in
  let cols := Z.to_nat (grid_cols grid) in
  mkGreedy [] (enqueue start (Fin 0) []) ∅ (new_table rows cols None).

Definition greedy_search (fuel : nat) (grid : Grid) (start end_ : Coord)
  : outcome GreedyState :=
  greedy_loop fuel grid end_ (greedy_init grid start).

Definition greedy_run (fuel : nat) (grid : Grid) (start end_ : Coord)
  : outcome Result :=
  st ← greedy_search fuel grid start end_;
  path ← getNodesInShortestPathOrder fuel (gr_previousNodes st) end_;
  Ret (mkResult (gr_visitedNodesInOrder st) path None).

Definition greedy (grid : option Grid) (start end_ : option Coord) : outcome Result :=
  match grid, start, end_ with
  | Some g, Some s, Some e =>
      if rejects grid start end_ then Ret empty_result
      else greedy_run (budget g) g s e
  | _, _, _ => Ret empty_result
  end.

(** * Specification vocabulary *)

(** A grid as the data model describes it: at least one row, at least one
    column, all rows of the same length. *)
Definition valid_grid (grid : Grid) : Prop :=
  (0 < length grid)%nat ∧ 0 < grid_cols grid
  ∧ ∀ r, r ∈ grid → Z.of_nat (length r) = grid_cols grid.

Definition in_bounds (grid : Grid) (p : Coord) : Prop :=
  0 ≤ row p < grid_rows grid ∧ 0 ≤ col p < grid_cols grid.

Definition no_walls (grid : Grid) : Prop :=
  ∀ r c, r ∈ grid → c ∈ r → isWall c = false.

Definition adjacent (p q : Coord) : Prop := manhattanDistance p q = 1.

(** One move of a search: to a 4-adjacent cell of the grid that is not a
    wall.  The cell moved from is not tested, as in the code. *)
Definition step (grid : Grid) (p q : Coord) : Prop :=
  adjacent p q ∧ in_bounds grid q ∧ cell_isWall grid q = Ret false.

(** [route grid s l e]: from [s], entering the cells [l] in order, one
    arrives at [e]; [length l] is the number of moves. *)
Inductive route (grid : Grid) (s : Coord) : list Coord → Coord → Prop :=
  | route_here : route grid s [] s
  | route_snoc l p q :
      route grid s l p → step grid p q → route grid s (l ++ [q]) q.

Definition reachable (grid : Grid) (s e : Coord) : Prop :=
  ∃ l, route grid s l e.

(** [d] is the length of a shortest route from [s] to [e]. *)
Definition distance (grid : Grid) (s e : Coord) (d : nat) : Prop :=
  (∃ l, route grid s l e ∧ length l = d)
  ∧ ∀ l, route grid s l e → (d ≤ length l)%nat.

(** The chain of predecessor links from [s] down to [q]. *)
Inductive prev_chain (prev : Table (option Coord)) (s : Coord)
  : list Coord → Coord → Prop :=
  | chain_here : prev_chain prev s [] s
  | chain_snoc l q p :
      prev_chain prev s l q → t_cells prev !! p = Some (Some q) →
      prev_chain prev s (l ++ [p]) p.

(** No cell is its own ancestor in the predecessor map. *)
Definition acyclic (prev : Table (option Coord)) : Prop :=
  ∀ p l, l ≠ [] → ¬ prev_chain prev p l p.

(** The inputs the validation at the head of each search turns away. *)
Definition unusable_input (grid : option Grid) (start end_ : option Coord) : Prop :=
  grid = None ∨ grid = Some [] ∨ (∃ g, grid = Some ([] :: g))
  ∨ start = None ∨ end_ = None.

(** ** Invariants of the searches *)

(** What all five loops keep true of the visited order [vis], the
    coordinates [fr] waiting in the frontier, the neighbours [pending] of
    the node being expanded, and the predecessor table. *)
Record search_inv (grid : Grid) (s : Coord) (vis fr pending : list Coord)
    (prev : Table (option Coord)) : Prop := {
  si_rows : t_rows prev = grid_rows grid;
  si_total : ∀ p, in_bounds grid p → is_Some (t_cells prev !! p);
  si_nodup : NoDup (vis ++ fr);
  si_bounds : ∀ p, p ∈ vis ++ fr → in_bounds grid p;
  si_start : (vis = [] ∧ fr = [s]) ∨ s ∈ vis;
  si_prev_start : t_cells prev !! s = Some None;
  si_prev_some : ∀ p, p ∈ vis ++ fr → p ≠ s →
      ∃ q, t_cells prev !! p = Some (Some q);
  si_prev_edge : ∀ p q, t_cells prev !! p = Some (Some q) →
      step grid q p ∧ p ∈ vis ++ fr
      ∧ ∃ i, vis !! i = Some q ∧ ∀ j, vis !! j = Some p → (i < j)%nat;
  si_closed : ∀ u v, u ∈ vis → step grid u v →
      v ∈ vis ++ fr ∨ (last vis = Some u ∧ v ∈ pending)
}.

(** The state in which a loop stops: [end_] was just taken from the
    frontier, or the frontier ran dry without meeting it. *)
Definition search_final (grid : Grid) (s e : Coord) (vis : list Coord)
    (prev : Table (option Coord)) : Prop :=
  ∃ fr pending,
    search_inv grid s vis fr pending prev
    ∧ (last vis = Some e ∨ (fr = [] ∧ pending = [] ∧ e ∉ vis)).

(** Breadth-first order: the cells of [vis ++ fr] come by non-decreasing
    distance from [s], the frontier spans at most two levels, and a
    predecessor is one level up. *)
Record level_inv (grid : Grid) (s : Coord) (vis fr : list Coord)
    (prev : Table (option Coord)) : Prop := {
  li_dist : ∀ p, p ∈ vis ++ fr → ∃ d, distance grid s p d;
  li_sorted : ∀ i j p q dp dq, (i ≤ j)%nat →
      (vis ++ fr) !! i = Some p → (vis ++ fr) !! j = Some q →
      distance grid s p dp → distance grid s q dq → (dp ≤ dq)%nat;
  li_span : ∀ p q dp dq, last vis = Some p → q ∈ fr →
      distance grid s p dp → distance grid s q dq → (dq ≤ S dp)%nat;
  li_prev : ∀ p q dq, t_cells prev !! p = Some (Some q) →
      distance grid s q dq → distance grid s p (S dq)
}.

(** A table of the grid's size with a value in every cell. *)
Definition full_table {A} (grid : Grid) (t : Table A) : Prop :=
  t_rows t = grid_rows grid ∧ ∀ p, in_bounds grid p → is_Some (t_cells t !! p).

(** The queue is in comparator order. *)
Definition pq_sorted (q : PriorityQueue) : Prop :=
  ∀ i j x y, (i < j)%nat → q !! i = Some x → q !! j = Some y →
    num_gt (priority x) (priority y) = false.

Definition pq_finite (q : PriorityQueue) : Prop :=
  ∀ x, x ∈ q → ∃ z, priority x = Fin z.

(** ** What each search adds to the shared invariant *)

(** bfs and dfs: [visited] marks exactly the cells met so far; bfs also
    keeps the breadth-first levels. *)
Definition frontier_inv (d : Discipline) (grid : Grid) (s : Coord)
    (st : FrontierState) (pending : list Coord) : Prop :=
  let vis := fr_visitedNodesInOrder st in
  let fr := fr_frontier st in
  search_inv grid s vis fr pending (fr_previousNodes st)
  ∧ full_table grid (fr_visited st)
  ∧ (∀ p, in_bounds grid p →
       truthy (t_cells (fr_visited st) !! p) = true ↔ p ∈ vis ++ fr)
  ∧ (d = Fifo → level_inv grid s vis fr (fr_previousNodes st)).

(** dijkstra: [visited] marks the finalized cells, [distances] holds the
    distance of every cell met so far and [Infinity] elsewhere, and every
    queue entry carries the distance of its node as priority. *)
Definition dijkstra_inv (grid : Grid) (s : Coord) (st : DijkstraState)
    (pending : list Coord) : Prop :=
  let vis := dj_visitedNodesInOrder st in
  let fr := val <$> dj_unvisitedNodes st in
  search_inv grid s vis fr pending (dj_previousNodes st)
  ∧ level_inv grid s vis fr (dj_previousNodes st)
  ∧ full_table grid (dj_visited st)
  ∧ (∀ p, in_bounds grid p →
       truthy (t_cells (dj_visited st) !! p) = true ↔ p ∈ vis)
  ∧ full_table grid (dj_distances st)
  ∧ (∀ p, in_bounds grid p → p ∉ vis ++ fr →
       t_cells (dj_distances st) !! p = Some Infinity)
  ∧ (∀ p, p ∈ vis ++ fr →
       ∃ k, t_cells (dj_distances st) !! p = Some (Fin (Z.of_nat k))
            ∧ distance grid s p k)
  ∧ (∀ x, x ∈ dj_unvisitedNodes st →
       t_cells (dj_distances st) !! val x = Some (priority x)).

(** astar: the closed set is the visited order, and [gScore] is finite
    exactly on the cells met so far. *)
Definition astar_inv (grid : Grid) (s : Coord) (st : AstarState)
    (pending : list Coord) : Prop :=
  let vis := as_visitedNodesInOrder st in
  let fr := val <$> as_openSet st in
  search_inv grid s vis fr pending (as_previousNodes st)
  ∧ (∀ p, p ∈ as_closedSet st ↔ p ∈ vis)
  ∧ full_table grid (as_gScore st)
  ∧ full_table grid (as_fScore st)
  ∧ (∀ p, in_bounds grid p → p ∉ vis ++ fr →
       t_cells (as_gScore st) !! p = Some Infinity)
  ∧ (∀ p, p ∈ vis ++ fr → ∃ z, t_cells (as_gScore st) !! p = Some (Fin z)).

Definition greedy_inv (grid : Grid) (s : Coord) (st : GreedyState)
    (pending : list Coord) : Prop :=
  let vis := gr_visitedNodesInOrder st in
  let fr := val <$> gr_openSet st in
  search_inv grid s vis fr pending (gr_previousNodes st)
  ∧ (∀ p, p ∈ gr_closedSet st ↔ p ∈ vis).

(** What the final state of dijkstra offers. *)
Definition dijkstra_final (grid : Grid) (s e : Coord) (st : DijkstraState) : Prop :=
  search_final grid s e (dj_visitedNodesInOrder st) (dj_previousNodes st)
  ∧ (∃ fr, level_inv grid s (dj_visitedNodesInOrder st) fr (dj_previousNodes st))
  ∧ ∀ p, p ∈ dj_visitedNodesInOrder st →
      ∃ k, t_cells (dj_distances st) !! p = Some (Fin (Z.of_nat k))
           ∧ distance grid s p k.

(** ** The five searches under one name *)

Inductive Algorithm : Type := Dijkstra | Bfs | Dfs | Astar | Greedy.

Definition run (a : Algorithm) (grid : option Grid) (start end_ : option Coord)
  : outcome Result :=
  match a with
  | Dijkstra => dijkstra grid start end_
  | Bfs => bfs grid start end_
  | Dfs => dfs grid start end_
  | Astar => astar grid start end_
  | Greedy => greedy grid start end_
  end.

(** The visited order and the predecessor table with which the main loop
    of a search ends, before the path is reconstructed. *)
Definition search (a : Algorithm) (fuel : nat) (grid : Grid) (start end_ : Coord)
  : outcome (list Coord * Table (option Coord)) :=
  match a with
  | Dijkstra =>
      st ← dijkstra_search fuel grid start end_;
      Ret (dj_visitedNodesInOrder st, dj_previousNodes st)
  | Bfs =>
      st ← frontier_search Fifo fuel grid start end_;
      Ret (fr_visitedNodesInOrder st, fr_previousNodes st)
  | Dfs =>
      st ← frontier_search Lifo fuel grid start end_;
      Ret (fr_visitedNodesInOrder st, fr_previousNodes st)
  | Astar =>
      st ← astar_search fuel grid start end_;
      Ret (as_visitedNodesInOrder st, as_previousNodes st)
  | Greedy =>
      st ← greedy_search fuel grid start end_;
      Ret (gr_visitedNodesInOrder st, gr_previousNodes st)
  end.

(** The empty result of [a]. *)
Definition empty_of (a : Algorithm) : Result :=
  match a with
  | Dijkstra => empty_result_with_distances
  | _ => empty_result
  end.

(** The shape claimed for a found path: the cells entered from the
    start's first successor up to the end, without the start. *)
Definition successor_to_end (grid : Grid) (s e : Coord) (path : list Coord) : Prop :=
  route grid s path e ∧ s ∉ path.

(** The shape the code produces: the start and the cells up to the
    predecessor of the end. *)
Definition start_to_predecessor (grid : Grid) (s e : Coord) (path : list Coord) : Prop :=
  ∃ l, path = s :: l ∧ route grid s (l ++ [e]) e ∧ e ∉ path.

(** Sample grids used to exercise the statements. *)
Definition open_cell : Cell := mkCell false false false.
Definition wall_cell : Cell := mkCell true false false.

(** A row of two free cells. *)
Definition corridor : Grid := [[open_cell; open_cell]].
(** A free cell, a wall, a free cell. *)
Definition blocked_corridor : Grid := [[open_cell; wall_cell; open_cell]].
(** A 3 by 3 grid without walls. *)
Definition open_3x3 : Grid :=
  [[open_cell; open_cell; open_cell];
   [open_cell; open_cell; open_cell];
   [open_cell; open_cell; open_cell]].
(** Two rows of unequal length. *)
Definition ragged : Grid := [[open_cell]; []].

(** Boolean form of [valid_grid]. *)
Definition valid_gridb (grid : Grid) : bool :=
  bool_decide (0 < length grid)%nat && bool_decide (0 < grid_cols grid)
  && forallb (λ r, bool_decide (Z.of_nat (length r) = grid_cols grid)) grid.

(** A 4 by 9 grid on which astar returns a detour from (1,8) to (1,0):
<<
    . # . . . . . . .
    . . # . # . # . .
    . # . . . . # . .
    . . . . . . . . .
>> *)
Definition detour_grid : Grid :=
  let o := open_cell in
  let x := wall_cell in
  [[o; x; o; o; o; o; o; o; o];
   [o; o; x; o; x; o; x; o; o];
   [o; x; o; o; o; o; x; o; o];
   [o; o; o; o; o; o; o; o; o]].

(** A state of astar on a row of three cells in which the cell (0,2)
    waits in the open set with g-score 5 while (0,1), with g-score 0, is
    being expanded. *)
Definition waiting_state : AstarState :=
  mkAstar [(0, 1)] [((0, 2), Fin 7)] {[(0, 1)]}
    (mkTable 1 (<[(0, 2) := Fin 5]> (<[(0, 1) := Fin 0]> (t_cells (new_table 1 3 Infinity)))))
    (mkTable 1 (<[(0, 2) := Fin 7]> (t_cells (new_table 1 3 Infinity))))
    (new_table 1 3 None).

(** ** Grids without walls *)

(** greedy while the neighbours of [c] are examined: the chain of
    predecessors [l] leads from [s] to [c] and the heuristic drops by one
    at each link; every queue entry carries its heuristic as priority and
    lies at most one step nearer to the end than [c], in which case [c] is
    its predecessor. *)
Definition greedy_open_mid (grid : Grid) (s e c : Coord) (l : list Coord)
    (st : GreedyState) (pending : list Coord) : Prop :=
  let vis := gr_visitedNodesInOrder st in
  let q := gr_openSet st in
  let prev := gr_previousNodes st in
  last vis = Some c
  ∧ prev_chain prev s l c
  ∧ (∀ x, x ∈ l → x ∈ vis)
  ∧ Z.of_nat (length l) + manhattanDistance c e = manhattanDistance s e
  ∧ (∀ p, p ∈ vis → manhattanDistance c e ≤ manhattanDistance p e)
  ∧ (∀ x, x ∈ q → priority x = Fin (manhattanDistance (val x) e))
  ∧ pq_sorted q
  ∧ (∀ x, x ∈ q → manhattanDistance c e - 1 ≤ manhattanDistance (val x) e)
  ∧ (∀ x, x ∈ q → manhattanDistance (val x) e = manhattanDistance c e - 1 →
       t_cells prev !! val x = Some (Some c))
  ∧ (∀ n, adjacent c n → in_bounds grid n → n ∉ vis →
       n ∈ pending ∨ n ∈ val <$> q).

(** greedy at the head of its loop: the open set is not empty and its
    first entry is the next link of the chain. *)
Definition greedy_open_head (grid : Grid) (s e : Coord) (st : GreedyState) : Prop :=
  greedy_inv grid s st []
  ∧ (e ∉ gr_visitedNodesInOrder st)
  ∧ ∃ x q l,
      gr_openSet st = x :: q
      ∧ greedy_open_mid grid s e (val x) l
          (mkGreedy (gr_visitedNodesInOrder st ++ [val x]) q
             ({[val x]} ∪ gr_closedSet st) (gr_previousNodes st))
          (getNeighbors (row (val x)) (col (val x)) grid).

(** astar: every predecessor link raises the g-score by one. *)
Definition astar_gprev (s : Coord) (g : Table num) (prev : Table (option Coord)) : Prop :=
  t_cells g !! s = Some (Fin 0)
  ∧ ∀ p q, t_cells prev !! p = Some (Some q) →
      ∃ z, t_cells g !! q = Some (Fin z) ∧ t_cells g !! p = Some (Fin (z + 1)).

(** astar without walls: the open set consists of entries of priority
    [H], the Manhattan distance from start to end, in order of decreasing
    heuristic, followed by entries of priority [H + 2]; every entry carries
    its true f-score. *)
Definition astar_open_queue (s e : Coord) (g : Table num) (qh qh2 : PriorityQueue) : Prop :=
  let H := manhattanDistance s e in
  (∀ x, x ∈ qh →
     priority x = Fin H
     ∧ t_cells g !! val x = Some (Fin (H - manhattanDistance (val x) e)))
  ∧ (∀ x, x ∈ qh2 →
       priority x = Fin (H + 2)
       ∧ t_cells g !! val x = Some (Fin (H + 2 - manhattanDistance (val x) e)))
  ∧ (∀ i j x y, (i ≤ j)%nat → qh !! i = Some x → qh !! j = Some y →
       manhattanDistance (val y) e ≤ manhattanDistance (val x) e).

(** astar without walls while the neighbours of [c] are examined. *)
Definition astar_open_mid (grid : Grid) (s e c : Coord) (st : AstarState)
    (pending : list Coord) : Prop :=
  let H := manhattanDistance s e in
  let h := λ p, manhattanDistance p e in
  astar_gprev s (as_gScore st) (as_previousNodes st)
  ∧ ∃ qh qh2,
      as_openSet st = qh ++ qh2
      ∧ astar_open_queue s e (as_gScore st) qh qh2
      ∧ (∀ x, x ∈ qh → h c - 1 ≤ h (val x) ≤ h c)
      ∧ (∀ p, p ∈ as_visitedNodesInOrder st →
           t_cells (as_gScore st) !! p = Some (Fin (H - h p)) ∧ h c ≤ h p)
      ∧ (∀ x, x ∈ qh2 → h c + 1 ≤ h (val x))
      ∧ (∀ n, adjacent c n → in_bounds grid n → h n = h c - 1 →
           n ∈ pending ∨ n ∈ val <$> qh).

(** astar without walls at the head of its loop. *)
Definition astar_open_head (grid : Grid) (s e : Coord) (st : AstarState) : Prop :=
  astar_inv grid s st []
  ∧ (e ∉ as_visitedNodesInOrder st)
  ∧ ∃ x q,
      as_openSet st = x :: q
      ∧ astar_open_mid grid s e (val x)
          (mkAstar (as_visitedNodesInOrder st ++ [val x]) q
             ({[val x]} ∪ as_closedSet st) (as_gScore st) (as_fScore st)
             (as_previousNodes st))
          (getNeighbors (row (val x)) (col (val x)) grid).

(** Boolean form of [no_walls]. *)
Definition no_wallsb (grid : Grid) : bool :=
  forallb (forallb (λ c, negb (isWall c))) grid.

(** * The grid of the user interface

    The grid that [App.js] keeps in its state and hands to the searches is
    made of the cell objects built by [createGridWithWalls]. *)

Record GridCell : Type := mkGridCell {
  gc_row : Z;
  gc_col : Z;
  gc_isWall : bool;
  gc_isStart : bool;
  gc_isEnd : bool;
  gc_isVisited : bool;
  gc_isPath : bool;
  gc_isFrontier : bool;
  gc_isCurrent : bool
}.

Abbreviation CellGrid := (list (list GridCell)).

(** The fields of a cell object that the searches can read. *)
Definition search_cell (cell : GridCell) : Cell :=
  mkCell (gc_isWall cell) (gc_isStart cell) (gc_isEnd cell).

Definition search_grid (grid : CellGrid) : Grid :=
  (λ r : list GridCell, search_cell <$> r) <$> grid.

(** [createGridWithWalls(rows, cols)] for integer arguments: the loops
    [for (let row = 0; row < rows; row++)] and [for (let col = 0; col < cols;
    col++)] run over [seqZ 0 rows] and [seqZ 0 cols], which are empty when
    the bound is not positive. *)
Definition createGridWithWalls (rows cols : Z) : CellGrid :=
  (λ r, (λ c, mkGridCell r c false false false false false false false)
          <$> seqZ 0 cols)
    <$> seqZ 0 rows.

(** [{ ...cell, isVisited: false, isPath: false, isFrontier: false,
    isCurrent: false }] *)
Definition clear_cell (cell : GridCell) : GridCell :=
  mkGridCell (gc_row cell) (gc_col cell) (gc_isWall cell) (gc_isStart cell)
    (gc_isEnd cell) false false false false.

Definition clearGrid (grid : CellGrid) : CellGrid :=
  (λ r : list GridCell, clear_cell <$> r) <$> grid.

(** [grid[row][col]]: [undefined] ([None]) outside the rows or past the
    end of a row. *)
Definition cell_at (grid : CellGrid) (p : Coord) : option GridCell :=
  match zlookup grid (row p) with
  | None => None
  | Some r => zlookup r (col p)
  end.

(** The positions that the nested loops of [findStart] and [findEnd] go
    through, in the order of the loops: [row] from 0 to [grid.length], and
    for each [col] from 0 to [grid[0].length]. *)
Definition scan_order (grid : CellGrid) : list Coord :=
  cells_of (length grid)
    (match grid !! 0%nat with Some r0 => length r0 | None => 0%nat end).

(** The loops over the positions [ps] still to be tested: the first
    position whose cell has the flag is returned; reading the flag of a
    missing cell throws. *)
Fixpoint find_flag (flag : GridCell → bool) (grid : CellGrid) (ps : list Coord)
  : outcome (option Coord) :=
  match ps with
  | [] => Ret None
  | p :: ps' =>
      match cell_at grid p with
      | None => Throws
      | Some cell => if flag cell then Ret (Some p) else find_flag flag grid ps'
      end
  end.

Definition findStart (grid : CellGrid) : outcome (option Coord) :=
  find_flag gc_isStart grid (scan_order grid).

Definition findEnd (grid : CellGrid) : outcome (option Coord) :=
  find_flag gc_isEnd grid (scan_order grid).

(** [{ ...cell, isWall: w }] *)
Definition with_wall (w : bool) (cell : GridCell) : GridCell :=
  mkGridCell (gc_row cell) (gc_col cell) w (gc_isStart cell) (gc_isEnd cell)
    (gc_isVisited cell) (gc_isPath cell) (gc_isFrontier cell) (gc_isCurrent cell).

(** [{ ...cell, isStart: b }] and [{ ...cell, isEnd: b }] *)
Definition with_start (b : bool) (cell : GridCell) : GridCell :=
  mkGridCell (gc_row cell) (gc_col cell) (gc_isWall cell) b (gc_isEnd cell)
    (gc_isVisited cell) (gc_isPath cell) (gc_isFrontier cell) (gc_isCurrent cell).

Definition with_end (b : bool) (cell : GridCell) : GridCell :=
  mkGridCell (gc_row cell) (gc_col cell) (gc_isWall cell) (gc_isStart cell) b
    (gc_isVisited cell) (gc_isPath cell) (gc_isFrontier cell) (gc_isCurrent cell).

(** [grid.map((gridRow, i) => gridRow.map((cell, j) => f(i, j, cell)))] *)
Definition map_cells (f : Z → Z → GridCell → GridCell) (grid : CellGrid) : CellGrid :=
  imap (λ i gridRow, imap (λ j cell, f (Z.of_nat i) (Z.of_nat j) cell) gridRow) grid.

(** [newGrid[p.row][p.col].isWall = false] *)
Definition clear_wall (grid : CellGrid) (p : Coord) : outcome CellGrid :=
  match zlookup grid (row p) with
  | None => Throws
  | Some r =>
      match zlookup r (col p) with
      | None => Throws
      | Some cell =>
          Ret (<[Z.to_nat (row p) := <[Z.to_nat (col p) := with_wall false cell]> r]> grid)
      end
  end.

(** [generateRandomWalls(grid, wallPercentage)].  The map makes one test
    [Math.random() < wallPercentage] for each cell; [draw i j] is the
    outcome of the test made for the cell of row [i] and column [j]. *)
Definition generateRandomWalls (draw : Z → Z → bool) (grid : CellGrid)
  : outcome CellGrid :=
  let newGrid := map_cells (λ i j cell, with_wall (draw i j) cell) grid in
  start ← findStart newGrid;
  end_ ← findEnd newGrid;
  g1 ← match start with
       | Some p => clear_wall newGrid p
       | None => Ret newGrid
       end;
  match end_ with
  | Some p => clear_wall g1 p
  | None => Ret g1
  end.

(** ** The grid edits of [App.js]

    Each handler computes a new grid from the grid of the state and hands
    it to [setGrid]; [None] stands for a handler that returns before. *)

(** [handleWallToggle(row, col)] *)
Definition handleWallToggle (grid : CellGrid) (r c : Z) : option CellGrid :=
  match cell_at grid (r, c) with
  | None => None
  | Some cell =>
      if gc_isStart cell || gc_isEnd cell then None
      else Some (map_cells
                   (λ i j cell, if bool_decide (i = r) && bool_decide (j = c)
                                then with_wall (negb (gc_isWall cell)) cell
                                else cell)
                   grid)
  end.

(** [handleStartChange(row, col)]: the new grid and the new [start]. *)
Definition handleStartChange (grid : CellGrid) (r c : Z) : option (CellGrid * Coord) :=
  match cell_at grid (r, c) with
  | None => None
  | Some cell =>
      if gc_isEnd cell || gc_isWall cell then None
      else Some (map_cells
                   (λ i j cell, with_start (bool_decide (i = r) && bool_decide (j = c)) cell)
                   grid,
                 (r, c))
  end.

(** [handleEndChange(row, col)]: the new grid and the new [end]. *)
Definition handleEndChange (grid : CellGrid) (r c : Z) : option (CellGrid * Coord) :=
  match cell_at grid (r, c) with
  | None => None
  | Some cell =>
      if gc_isStart cell || gc_isWall cell then None
      else Some (map_cells
                   (λ i j cell, with_end (bool_decide (i = r) && bool_decide (j = c)) cell)
                   grid,
                 (r, c))
  end.

(** [handleClearWalls()] *)
Definition handleClearWalls (grid : CellGrid) : option CellGrid :=
  if bool_decide (length grid = 0%nat) then None
  else Some ((λ r : list GridCell, with_wall false <$> r) <$> grid).

(** ** Vocabulary of the added properties *)

(** All rows have the length of the first. *)
Definition rectangular (grid : CellGrid) : Prop :=
  ∀ r, r ∈ grid → Some (length r) = length <$> grid !! 0%nat.

(** [p] comes before [q] in the order of the loops of [findStart]. *)
Definition scanned_before (p q : Coord) : Prop :=
  row p < row q ∨ (row p = row q ∧ col p < col q).

(** The moves of a path: each cell is followed by a cell one step away. *)
Definition linked (grid : Grid) (path : list Coord) : Prop :=
  ∀ i p q, path !! i = Some p → path !! S i = Some q → step grid p q.

(** At most one cell is marked as the start and at most one as the end,
    they are different cells, and neither is a wall. *)
Definition ends_marked (grid : CellGrid) : Prop :=
  (∀ p q cp cq, cell_at grid p = Some cp → cell_at grid q = Some cq →
     gc_isStart cp = true → gc_isStart cq = true → p = q)
  ∧ (∀ p q cp cq, cell_at grid p = Some cp → cell_at grid q = Some cq →
       gc_isEnd cp = true → gc_isEnd cq = true → p = q)
  ∧ (∀ p cell, cell_at grid p = Some cell →
       gc_isStart cell = true ∨ gc_isEnd cell = true → gc_isWall cell = false)
  ∧ (∀ p cell, cell_at grid p = Some cell →
       gc_isStart cell = true → gc_isEnd cell = false).

(** A 2 by 2 grid with the start at (0,0), a wall at (0,1) and the end at
    (1,1). *)
Definition sample_cells : CellGrid :=
  [[mkGridCell 0 0 false true false false false false false;
    mkGridCell 0 1 true false false false false false false];
   [mkGridCell 1 0 false false false true false false false;
    mkGridCell 1 1 false false true false true false false]].

(** A state of dijkstra and a state of bfs that agree on the visited
    order, on the nodes that wait and on the predecessors. *)
Definition twin (sd : DijkstraState) (sb : FrontierState) : Prop :=
  dj_visitedNodesInOrder sd = fr_visitedNodesInOrder sb
  ∧ val <$> dj_unvisitedNodes sd = fr_frontier sb
  ∧ dj_previousNodes sd = fr_previousNodes sb.

(** * Basic facts *)

(** ** Outcomes *)

Lemma bind_Ret {A B} (m : outcome A) (f : A → outcome B) (b : B) :
  m ≫= f = Ret b → ∃ a, m = Ret a ∧ f a = Ret b.
Proof. destruct m; simpl; intros H; try discriminate. eauto. Qed.

Lemma bind_of_Ret {A B} (m : outcome A) (f : A → outcome B) (a : A) :
  m = Ret a → m ≫= f = f a.
Proof. intros ->. reflexivity. Qed.

Lemma for_of_app {A S} (body : S → A → outcome S) (xs ys : list A) (s : S) :
  for_of body (xs ++ ys) s = for_of body xs s ≫= for_of body ys.
Proof.
  revert s. induction xs as [|x xs IH]; intros s; simpl; [reflexivity|].
  destruct (body s x); simpl; auto.
Qed.

Lemma last_elem_of {A} (l : list A) (x : A) : last l = Some x → x ∈ l.
Proof.
  intros H. apply last_Some in H as (l' & ->).
  apply elem_of_app. right. apply list_elem_of_singleton. reflexivity.
Qed.

(** ** Coordinates *)

Lemma same_coord_true (a b : Coord) : same_coord a b = true ↔ a = b.
Proof.
  unfold same_coord, row, col. destruct a as [r c], b as [r' c']; simpl.
  rewrite andb_true_iff, !bool_decide_eq_true. split.
  - intros [-> ->]. reflexivity.
  - intros [= -> ->]. auto.
Qed.

Lemma same_coord_false (a b : Coord) : same_coord a b = false ↔ a ≠ b.
Proof.
  rewrite <- same_coord_true. destruct (same_coord a b); split; congruence.
Qed.

Lemma same_coord_refl (a : Coord) : same_coord a a = true.
Proof. apply same_coord_true. reflexivity. Qed.

Lemma manhattan_nonneg (a b : Coord) : 0 ≤ manhattanDistance a b.
Proof. unfold manhattanDistance. lia. Qed.

Lemma manhattan_zero (a b : Coord) : manhattanDistance a b = 0 ↔ a = b.
Proof.
  unfold manhattanDistance, row, col. destruct a as [r c], b as [r' c']; simpl.
  split.
  - intros H. f_equal; lia.
  - intros [= -> ->]. lia.
Qed.

Lemma manhattan_triangle (a b c : Coord) :
  manhattanDistance a c ≤ manhattanDistance a b + manhattanDistance b c.
Proof. unfold manhattanDistance. lia. Qed.

Lemma manhattan_sym (a b : Coord) : manhattanDistance a b = manhattanDistance b a.
Proof. unfold manhattanDistance. lia. Qed.

(** ** Tables *)

Lemma elem_of_cells_of (rows cols : nat) (p : Coord) :
  p ∈ cells_of rows cols ↔ 0 ≤ row p < Z.of_nat rows ∧ 0 ≤ col p < Z.of_nat cols.
Proof.
  unfold cells_of, row, col. destruct p as [r c]; simpl.
  rewrite list_elem_of_bind. split.
  - intros (r' & Hc & Hr). apply list_elem_of_bind in Hc as (c' & Hp & Hc).
    apply list_elem_of_singleton in Hp. injection Hp as -> ->.
    apply elem_of_seqZ in Hr, Hc. lia.
  - intros [Hr Hc]. exists r. split; [|apply elem_of_seqZ; lia].
    apply list_elem_of_bind. exists c. split; [|apply elem_of_seqZ; lia].
    apply list_elem_of_singleton. reflexivity.
Qed.

Lemma length_cells_of (rows cols : nat) :
  length (cells_of rows cols) = (rows * cols)%nat.
Proof.
  unfold cells_of.
  assert (Hin : ∀ (l : list Z),
    length (l ≫= λ r, seqZ 0 (Z.of_nat cols) ≫= λ c, [(r, c)])
    = (length l * cols)%nat).
  { induction l as [|r l IH]; [reflexivity|].
    rewrite bind_cons, length_app, IH. simpl. f_equal.
    generalize (seqZ 0 (Z.of_nat cols)) (length_seqZ 0 (Z.of_nat cols)).
    intros l' Hl'. rewrite Nat2Z.id in Hl'. rewrite <- Hl'.
    clear. induction l' as [|c l' IH]; [reflexivity|].
    rewrite bind_cons. simpl. f_equal. exact IH. }
  rewrite Hin, length_seqZ, Nat2Z.id. reflexivity.
Qed.

Lemma new_table_lookup {A} (rows cols : nat) (x : A) (p : Coord) :
  t_cells (new_table rows cols x) !! p
  = if bool_decide (0 ≤ row p < Z.of_nat rows ∧ 0 ≤ col p < Z.of_nat cols)
    then Some x else None.
Proof.
  unfold new_table; simpl. rewrite lookup_gset_to_gmap.
  case_bool_decide as H.
  - rewrite option_guard_True; [reflexivity|].
    apply elem_of_list_to_set, elem_of_cells_of, H.
  - rewrite option_guard_False; [reflexivity|].
    rewrite elem_of_list_to_set, elem_of_cells_of. exact H.
Qed.

#[global] Opaque new_table.

Lemma tget_Ret {A} (t : Table A) (p : Coord) :
  0 ≤ row p < t_rows t → tget t p = Ret (t_cells t !! p).
Proof. intros H. unfold tget, in_rows. rewrite bool_decide_eq_true_2; auto. Qed.

Lemma tset_Ret {A} (t : Table A) (p : Coord) (v : A) :
  0 ≤ row p < t_rows t →
  tset t p v = Ret (mkTable (t_rows t) (<[p := v]> (t_cells t))).
Proof. intros H. unfold tset, in_rows. rewrite bool_decide_eq_true_2; auto. Qed.

Lemma tget_in_rows {A} (t : Table A) (p : Coord) :
  in_rows t (row p) = true → tget t p = Ret (t_cells t !! p).
Proof. intros H. unfold tget. rewrite H. reflexivity. Qed.

Lemma tset_in_rows {A} (t : Table A) (p : Coord) (v : A) :
  in_rows t (row p) = true →
  tset t p v = Ret (mkTable (t_rows t) (<[p := v]> (t_cells t))).
Proof. intros H. unfold tset. rewrite H. reflexivity. Qed.

(** ** The grid *)

Section Grid.
Context (grid : Grid).

Lemma grid_dims :
  Z.of_nat (length grid) = grid_rows grid.
Proof. reflexivity. Qed.

Lemma in_bounds_cells (p : Coord) :
  in_bounds grid p ↔ p ∈ cells_of (length grid) (Z.to_nat (grid_cols grid)).
Proof.
  rewrite elem_of_cells_of. unfold in_bounds, grid_rows.
  assert (0 ≤ grid_cols grid).
  { unfold grid_cols. destruct (grid !! 0%nat); lia. }
  rewrite Z2Nat.id by lia. reflexivity.
Qed.

Lemma budget_cells :
  budget grid = S (length (cells_of (length grid) (Z.to_nat (grid_cols grid)))).
Proof. unfold budget. rewrite length_cells_of. reflexivity. Qed.

Lemma bounded_nodup_length (l : list Coord) :
  NoDup l → (∀ p, p ∈ l → in_bounds grid p) →
  (length l < budget grid)%nat.
Proof.
  intros Hnd Hin. rewrite budget_cells.
  apply Nat.lt_succ_r, submseteq_length, NoDup_submseteq; [exact Hnd|].
  intros p Hp. apply in_bounds_cells, Hin, Hp.
Qed.

Lemma new_table_full {A} (x : A) :
  full_table grid (new_table (length grid) (Z.to_nat (grid_cols grid)) x).
Proof.
  split; [reflexivity|]. intros p Hp. rewrite new_table_lookup.
  apply in_bounds_cells, elem_of_cells_of in Hp.
  rewrite bool_decide_eq_true_2 by exact Hp. eauto.
Qed.

Lemma new_table_in_bounds {A} (x : A) (p : Coord) :
  in_bounds grid p →
  t_cells (new_table (length grid) (Z.to_nat (grid_cols grid)) x) !! p = Some x.
Proof.
  intros Hp. rewrite new_table_lookup.
  apply in_bounds_cells, elem_of_cells_of in Hp.
  rewrite bool_decide_eq_true_2 by exact Hp. reflexivity.
Qed.

Lemma full_table_tget {A} (t : Table A) (p : Coord) :
  full_table grid t → in_bounds grid p → tget t p = Ret (t_cells t !! p).
Proof. intros [Hr _] [Hp _]. apply tget_Ret. rewrite Hr. exact Hp. Qed.

Lemma full_table_tset {A} (t : Table A) (p : Coord) (v : A) :
  full_table grid t → in_bounds grid p →
  tset t p v = Ret (mkTable (t_rows t) (<[p := v]> (t_cells t))).
Proof. intros [Hr _] [Hp _]. apply tset_Ret. rewrite Hr. exact Hp. Qed.

Lemma full_table_insert {A} (t : Table A) (p : Coord) (v : A) :
  full_table grid t → full_table grid (mkTable (t_rows t) (<[p := v]> (t_cells t))).
Proof.
  intros [Hr Ht]. split; [exact Hr|]. intros q Hq; simpl.
  rewrite lookup_insert. case_decide; [eauto|]. apply Ht, Hq.
Qed.

Lemma isValidPosition_spec (p : Coord) :
  isValidPosition (row p) (col p) grid = true ↔ in_bounds grid p.
Proof.
  unfold isValidPosition, in_bounds.
  rewrite !andb_true_iff, !bool_decide_eq_true. tauto.
Qed.

Lemma getNeighbors_spec (p q : Coord) :
  q ∈ getNeighbors (row p) (col p) grid ↔ adjacent p q ∧ in_bounds grid q.
Proof.
  unfold getNeighbors. rewrite list_elem_of_omap. split.
  - intros (d & Hd & Hq).
    destruct (isValidPosition _ _ grid) eqn:Hv; [|discriminate].
    injection Hq as <-. apply isValidPosition_spec in Hv. split; [|exact Hv].
    unfold adjacent, manhattanDistance, directions, row, col in *. simpl.
    repeat (apply elem_of_cons in Hd as [->|Hd]; [simpl; lia|]).
    apply elem_of_nil in Hd as [].
  - intros [Hadj Hb]. exists (row q - row p, col q - col p). split.
    + unfold adjacent, manhattanDistance, directions in *.
      destruct p as [r c], q as [r' c']; unfold row, col in *; simpl in *.
      assert (Hd : (r' - r = -1 ∧ c' - c = 0) ∨ (r' - r = 1 ∧ c' - c = 0)
                 ∨ (r' - r = 0 ∧ c' - c = -1) ∨ (r' - r = 0 ∧ c' - c = 1)) by lia.
      destruct Hd as [[-> ->]|[[-> ->]|[[-> ->]|[-> ->]]]]; set_solver.
    + apply isValidPosition_spec in Hb.
      destruct p as [r c], q as [r' c']; unfold row, col in *; simpl in *.
      replace (r + (r' - r)) with r' by lia.
      replace (c + (c' - c)) with c' by lia.
      rewrite Hb. reflexivity.
Qed.
End Grid.

(** ** Cells and routes *)

Section Routes.
Context (grid : Grid) (Hgrid : valid_grid grid).

Lemma cell_isWall_in_bounds (p : Coord) :
  in_bounds grid p → ∃ b, cell_isWall grid p = Ret b.
Proof using Hgrid.
  intros [[Hr0 Hr] [Hc0 Hc]]. destruct Hgrid as (_ & _ & Hrect).
  unfold cell_isWall, zlookup. rewrite !bool_decide_eq_true_2 by lia.
  unfold grid_rows in Hr.
  destruct (lookup_lt_is_Some_2 grid (Z.to_nat (row p))) as [r Hrow]; [lia|].
  rewrite Hrow. apply list_elem_of_lookup_2, Hrect in Hrow.
  destruct (lookup_lt_is_Some_2 r (Z.to_nat (col p))) as [c Hcell]; [lia|].
  rewrite Hcell. eauto.
Qed.

Lemma cell_isWall_no_walls (p : Coord) :
  no_walls grid → in_bounds grid p → cell_isWall grid p = Ret false.
Proof using Hgrid.
  intros Hnw Hp. destruct (cell_isWall_in_bounds p Hp) as [b Hb].
  rewrite Hb. f_equal. revert Hb. unfold cell_isWall.
  destruct (zlookup grid (row p)) as [r|] eqn:Hrow; [|done].
  destruct (zlookup r (col p)) as [c|] eqn:Hcell; [|done].
  intros [= <-]. unfold zlookup in Hrow, Hcell.
  case_bool_decide; [|done]. case_bool_decide; [|done].
  eapply Hnw; eapply list_elem_of_lookup_2; eassumption.
Qed.

Lemma step_neighbor (p q : Coord) :
  step grid p q → q ∈ getNeighbors (row p) (col p) grid.
Proof. intros (Ha & Hb & _). apply getNeighbors_spec. auto. Qed.

Lemma route_in_bounds (s e : Coord) (l : list Coord) :
  in_bounds grid s → route grid s l e → in_bounds grid e.
Proof. intros Hs Hr. destruct Hr as [|l p q _ (_ & Hq & _)]; auto. Qed.

Lemma route_manhattan (s e : Coord) (l : list Coord) :
  route grid s l e → manhattanDistance s e ≤ Z.of_nat (length l).
Proof.
  induction 1 as [|l p q _ IH (Hadj & _)].
  - rewrite (proj2 (manhattan_zero s s)); simpl; [lia|reflexivity].
  - rewrite length_app; simpl. pose proof (manhattan_triangle s p q).
    unfold adjacent in Hadj. lia.
Qed.

Lemma route_trans (s p e : Coord) (l1 l2 : list Coord) :
  route grid s l1 p → route grid p l2 e → route grid s (l1 ++ l2) e.
Proof.
  intros H1 H2. induction H2 as [|l q r _ IH Hs].
  - rewrite app_nil_r. exact H1.
  - rewrite app_assoc. econstructor; eauto.
Qed.

Lemma route_cons (s p e : Coord) (l : list Coord) :
  step grid s p → route grid p l e → route grid s (p :: l) e.
Proof.
  intros Hs Hr. change (p :: l) with ([p] ++ l).
  eapply route_trans; [|exact Hr]. apply (route_snoc grid s [] s p); [constructor|exact Hs].
Qed.

Lemma distance_unique (s e : Coord) (d d' : nat) :
  distance grid s e d → distance grid s e d' → d = d'.
Proof.
  intros [(l & Hl & <-) Hmin] [(l' & Hl' & <-) Hmin'].
  apply Nat.le_antisymm; auto.
Qed.

Lemma distance_self (s : Coord) : distance grid s s 0.
Proof.
  split; [|intros; lia]. exists []. split; [constructor|reflexivity].
Qed.

Lemma distance_reachable (s e : Coord) (d : nat) :
  distance grid s e d → reachable grid s e.
Proof. intros [(l & Hl & _) _]. exists l. exact Hl. Qed.
End Routes.

(** ** The shared invariant *)

Section SearchInv.
Context (grid : Grid) (Hgrid : valid_grid grid) (s : Coord).

Lemma search_inv_start_in vis fr pending prev :
  search_inv grid s vis fr pending prev → s ∈ vis ++ fr.
Proof.
  intros H. destruct (si_start _ _ _ _ _ _ H) as [[-> ->]|Hs].
  - apply list_elem_of_singleton. reflexivity.
  - apply elem_of_app. auto.
Qed.

Lemma search_inv_perm vis fr fr' pending prev :
  fr ≡ₚ fr' → vis ≠ [] →
  search_inv grid s vis fr pending prev → search_inv grid s vis fr' pending prev.
Proof.
  intros Hp Hne [Hrows Htot Hnd Hbd Hst Hps Hsome Hedge Hcl].
  assert (Hin : ∀ p, p ∈ vis ++ fr ↔ p ∈ vis ++ fr').
  { intros p. rewrite !elem_of_app, Hp. reflexivity. }
  constructor; auto.
  - rewrite <- Hp. assumption.
  - intros p Hp'. apply Hbd, Hin, Hp'.
  - destruct Hst as [[-> _]|]; [done|auto].
  - intros p Hp'. apply Hsome, Hin, Hp'.
  - intros p q Hpq. destruct (Hedge p q Hpq) as (? & ? & ?).
    rewrite <- Hin. auto.
  - intros u v Hu Hstep. rewrite <- Hin. auto.
Qed.

Lemma search_inv_init :
  in_bounds grid s →
  search_inv grid s [] [s] []
    (new_table (length grid) (Z.to_nat (grid_cols grid)) None).
Proof.
  intros Hs. constructor.
  - apply new_table_full.
  - apply new_table_full.
  - apply NoDup_singleton.
  - intros p Hp. apply list_elem_of_singleton in Hp as ->. exact Hs.
  - left. done.
  - apply new_table_in_bounds, Hs.
  - intros p Hp Hne. apply list_elem_of_singleton in Hp. done.
  - intros p q Hpq. rewrite new_table_lookup in Hpq.
    case_bool_decide; discriminate.
  - intros u v Hu. apply elem_of_nil in Hu as [].
Qed.

(** Taking [c] from the frontier and recording it as visited. *)
Lemma search_inv_pop vis fr fr' c prev :
  fr ≡ₚ c :: fr' →
  search_inv grid s vis fr [] prev →
  search_inv grid s (vis ++ [c]) fr' (getNeighbors (row c) (col c) grid) prev.
Proof.
  intros Hp [Hrows Htot Hnd Hbd Hst Hps Hsome Hedge Hcl].
  assert (Hin : ∀ p, p ∈ (vis ++ [c]) ++ fr' ↔ p ∈ vis ++ fr).
  { intros p. rewrite !elem_of_app, Hp, !elem_of_cons, elem_of_nil. tauto. }
  constructor; auto.
  - rewrite <- app_assoc. simpl. rewrite <- Hp. exact Hnd.
  - intros p Hp'. apply Hbd, Hin, Hp'.
  - right. destruct Hst as [[-> ->]|Hs].
    + assert (fr' = []) as Hnil.
      { apply Permutation_length in Hp. simpl in Hp.
        destruct fr'; [reflexivity|discriminate]. }
      subst fr'. apply elem_of_app. right. apply list_elem_of_singleton.
      apply Permutation_singleton_inj in Hp. auto.
    + apply elem_of_app. auto.
  - intros p Hp'. apply Hsome, Hin, Hp'.
  - intros p q Hpq. destruct (Hedge p q Hpq) as (Hstep & Hp' & i & Hi & Hlt).
    split; [exact Hstep|]. split; [apply Hin, Hp'|].
    exists i. split; [apply lookup_app_l_Some, Hi|].
    intros j Hj. apply lookup_lt_Some in Hi as Hilt.
    destruct (decide (j < length vis)%nat) as [Hjlt|Hjge].
    + rewrite lookup_app_l in Hj by exact Hjlt. auto.
    + lia.
  - intros u v Hu Hstep. apply elem_of_app in Hu as [Hu|Hu].
    + destruct (Hcl u v Hu Hstep) as [Hv|[_ Hv]].
      * left. apply Hin, Hv.
      * apply elem_of_nil in Hv as [].
    + apply list_elem_of_singleton in Hu as ->. right.
      split; [apply last_snoc|]. apply step_neighbor, Hstep.
Qed.

(** A neighbour that is left alone. *)
Lemma search_inv_skip vis fr n pending prev :
  (step grid (default s (last vis)) n → n ∈ vis ++ fr) →
  search_inv grid s vis fr (n :: pending) prev →
  search_inv grid s vis fr pending prev.
Proof.
  intros Hn [Hrows Htot Hnd Hbd Hst Hps Hsome Hedge Hcl].
  constructor; auto.
  intros u v Hu Hstep. destruct (Hcl u v Hu Hstep) as [Hv|[Hlast Hv]]; [auto|].
  apply elem_of_cons in Hv as [->|Hv]; [|auto].
  left. apply Hn. rewrite Hlast. exact Hstep.
Qed.

(** A neighbour that is given the expanded node as predecessor, whether
    it enters the frontier now or is already waiting there. *)
Lemma search_inv_link vis fr fr' c n pending prev :
  last vis = Some c → step grid c n → n ∉ vis →
  (∀ p, p ∈ fr' ↔ p = n ∨ p ∈ fr) → NoDup fr' →
  search_inv grid s vis fr (n :: pending) prev →
  search_inv grid s vis fr' pending
    (mkTable (t_rows prev) (<[n := Some c]> (t_cells prev))).
Proof.
  intros Hlast Hstep Hnvis Hfr Hndfr [Hrows Htot Hnd Hbd Hst Hps Hsome Hedge Hcl].
  assert (Hin : ∀ p, p ∈ vis ++ fr' ↔ p = n ∨ p ∈ vis ++ fr).
  { intros p. rewrite !elem_of_app, Hfr. tauto. }
  assert (Hvis : vis ≠ []) by (intros ->; discriminate).
  assert (Hs : s ∈ vis) by (destruct Hst as [[-> _]|]; done).
  assert (Hns : n ≠ s) by (intros ->; done).
  constructor; simpl; auto.
  - intros p Hp. rewrite lookup_insert. case_decide; [eauto|auto].
  - apply NoDup_app in Hnd as (Hndv & Hdisj & _).
    apply NoDup_app. split; [exact Hndv|]. split; [|exact Hndfr].
    intros p Hpv Hpf. apply Hfr in Hpf as [->|Hpf]; [done|].
    exact (Hdisj p Hpv Hpf).
  - intros p Hp. apply Hin in Hp as [->|Hp]; [|auto].
    destruct Hstep as (_ & Hb & _). exact Hb.
  - rewrite lookup_insert_ne by done. exact Hps.
  - intros p Hp Hne. rewrite lookup_insert. case_decide; [eauto|].
    apply Hin in Hp as [->|Hp]; [done|auto].
  - intros p q. rewrite lookup_insert. case_decide as Hpn.
    + subst p. intros [= <-]. split; [exact Hstep|]. split; [apply Hin; auto|].
      apply last_Some in Hlast as (vis' & ->).
      exists (length vis'). split.
      * rewrite lookup_app_r by lia. rewrite Nat.sub_diag. reflexivity.
      * intros j Hj. apply list_elem_of_lookup_2 in Hj. done.
    + intros Hpq. destruct (Hedge p q Hpq) as (? & ? & ?).
      split; [assumption|]. split; [apply Hin; auto|assumption].
  - intros u v Hu Hst'. destruct (Hcl u v Hu Hst') as [Hv|[Hl Hv]].
    + left. apply Hin. auto.
    + apply elem_of_cons in Hv as [->|Hv]; [|auto].
      left. apply Hin. auto.
Qed.

(** When every neighbour has been dealt with the loop-head form holds. *)
Lemma search_inv_vis_nodup vis fr pending prev :
  search_inv grid s vis fr pending prev → NoDup vis.
Proof. intros H. apply si_nodup in H. apply NoDup_app in H. tauto. Qed.

Lemma search_inv_vis_length vis fr pending prev :
  search_inv grid s vis fr pending prev →
  (length (vis ++ fr) < budget grid)%nat.
Proof.
  intros H. apply bounded_nodup_length; [eapply si_nodup|eapply si_bounds]; exact H.
Qed.

Lemma search_inv_reachable vis fr pending prev p :
  search_inv grid s vis fr pending prev → p ∈ vis → reachable grid s p.
Proof.
  intros H Hp. apply list_elem_of_lookup_1 in Hp as [i Hi].
  revert p Hi. induction (lt_wf i) as [i _ IH]. intros p Hi.
  destruct (decide (p = s)) as [->|Hne]; [exists []; constructor|].
  destruct (si_prev_some _ _ _ _ _ _ H p) as [q Hq]; [|exact Hne|].
  { apply elem_of_app. left. eapply list_elem_of_lookup_2, Hi. }
  destruct (si_prev_edge _ _ _ _ _ _ H p q Hq) as (Hstep & _ & j & Hj & Hlt).
  destruct (IH j (Hlt i Hi) q Hj) as [l Hl].
  exists (l ++ [p]). econstructor; eauto.
Qed.

Lemma search_inv_frontier_reachable vis fr pending prev p :
  search_inv grid s vis fr pending prev → p ∈ vis ++ fr → reachable grid s p.
Proof.
  intros H Hp. destruct (decide (p = s)) as [->|Hne]; [exists []; constructor|].
  destruct (si_prev_some _ _ _ _ _ _ H p Hp Hne) as [q Hq].
  destruct (si_prev_edge _ _ _ _ _ _ H p q Hq) as (Hstep & _ & j & Hj & _).
  destruct (search_inv_reachable vis fr pending prev q H) as [l Hl].
  { eapply list_elem_of_lookup_2, Hj. }
  exists (l ++ [p]). econstructor; eauto.
Qed.

(** Everything reachable has been met once the frontier is empty. *)
Lemma search_inv_complete vis prev p :
  search_inv grid s vis [] [] prev → reachable grid s p → p ∈ vis.
Proof.
  intros H [l Hl]. induction Hl as [|l p q _ IH Hstep].
  - pose proof (search_inv_start_in _ _ _ _ H) as Hs.
    rewrite app_nil_r in Hs. exact Hs.
  - destruct (si_closed _ _ _ _ _ _ H p q IH Hstep) as [Hq|[_ Hq]].
    + rewrite app_nil_r in Hq. exact Hq.
    + apply elem_of_nil in Hq as [].
Qed.

End SearchInv.

(** ** The backward walk over a predecessor table *)

Section WalkBack.
Context (grid : Grid) (Hgrid : valid_grid grid) (s : Coord).
Context (vis fr pending : list Coord) (prev : Table (option Coord)).
Context (Hinv : search_inv grid s vis fr pending prev).

Lemma prev_full : full_table grid prev.
Proof using Hinv. split; [eapply si_rows|eapply si_total]; exact Hinv. Qed.

Lemma vis_in_bounds i q : vis !! i = Some q → in_bounds grid q.
Proof using Hinv.
  intros Hi. eapply si_bounds; [exact Hinv|].
  apply elem_of_app. left. eapply list_elem_of_lookup_2, Hi.
Qed.

Lemma walk_back_chain (i : nat) :
  ∀ q fuel acc, vis !! i = Some q → (i < fuel)%nat →
  ∃ l, walk_back fuel prev (Some q) acc = Ret (s :: l ++ acc)
       ∧ prev_chain prev s l q
       ∧ ∀ x, x ∈ s :: l → ∃ j, (j ≤ i)%nat ∧ vis !! j = Some x.
Proof using Hinv.
  induction (lt_wf i) as [i _ IH]. intros q fuel acc Hi Hfuel.
  destruct fuel as [|fuel]; [lia|]. simpl.
  rewrite (full_table_tget grid prev q prev_full (vis_in_bounds i q Hi)). simpl.
  destruct (si_total _ _ _ _ _ _ Hinv q (vis_in_bounds i q Hi)) as [[q'|] Hq];
    rewrite Hq.
  - destruct (si_prev_edge _ _ _ _ _ _ Hinv q q' Hq) as (_ & _ & j & Hj & Hlt).
    pose proof (Hlt i Hi) as Hji.
    destruct (IH j Hji q' fuel (q :: acc) Hj) as (l & Hw & Hc & Hidx); [lia|].
    exists (l ++ [q]). split; [|split].
    + rewrite Hw. rewrite <- app_assoc. reflexivity.
    + econstructor; eauto.
    + intros x Hx. rewrite app_comm_cons in Hx.
      apply elem_of_app in Hx as [Hx|Hx].
      * destruct (Hidx x Hx) as (k & Hk & Hvk). exists k. split; [lia|exact Hvk].
      * apply list_elem_of_singleton in Hx as ->. exists i. auto.
  - assert (q = s) as ->.
    { destruct (decide (q = s)) as [|Hne]; [assumption|].
      destruct (si_prev_some _ _ _ _ _ _ Hinv q) as [q' Hq']; [|exact Hne|congruence].
      apply elem_of_app. left. eapply list_elem_of_lookup_2, Hi. }
    exists []. split; [|split].
    + destruct fuel; reflexivity.
    + constructor.
    + intros x Hx. apply list_elem_of_singleton in Hx as ->. exists i. auto.
Qed.

Lemma prev_chain_route (l : list Coord) (q : Coord) :
  prev_chain prev s l q → route grid s l q.
Proof using Hinv.
  induction 1 as [|l q p _ IH Hp]; [constructor|].
  econstructor; [exact IH|]. eapply si_prev_edge; eauto.
Qed.

Lemma prev_chain_index (p q : Coord) (l : list Coord) :
  prev_chain prev p l q → l ≠ [] →
  ∃ i, vis !! i = Some p ∧ ∀ j, vis !! j = Some q → (i < j)%nat.
Proof using Hinv.
  induction 1 as [|l q' q Hc IH Hq]; [done|]. intros _.
  destruct (si_prev_edge _ _ _ _ _ _ Hinv q q' Hq) as (_ & _ & i' & Hi' & Hlt').
  destruct l as [|x l].
  - inversion Hc as [|? ? ? ? ? Heq]; subst.
    + exists i'. auto.
    + destruct l; discriminate.
  - destruct IH as (i & Hi & Hlt); [done|].
    exists i. split; [exact Hi|]. intros j Hj.
    specialize (Hlt i' Hi'). specialize (Hlt' j Hj). lia.
Qed.

Lemma search_inv_acyclic : acyclic prev.
Proof using Hinv.
  intros p l Hne Hc. destruct (prev_chain_index p p l Hc Hne) as (i & Hi & Hlt).
  specialize (Hlt i Hi). lia.
Qed.

(** The path that is handed back when [e] has a predecessor. *)
Lemma path_of_found (e q : Coord) (fuel : nat) :
  in_bounds grid e → t_cells prev !! e = Some (Some q) →
  (length vis < fuel)%nat →
  ∃ l, getNodesInShortestPathOrder fuel prev e = Ret (s :: l)
       ∧ prev_chain prev s (l ++ [e]) e
       ∧ route grid s (l ++ [e]) e
       ∧ e ∉ s :: l.
Proof using Hinv.
  intros He Hq Hfuel. unfold getNodesInShortestPathOrder.
  rewrite (full_table_tget grid prev e prev_full He), Hq. simpl.
  destruct (si_prev_edge _ _ _ _ _ _ Hinv e q Hq) as (Hstep & _ & i & Hi & Hlt).
  destruct (walk_back_chain i q fuel [] Hi) as (l & Hw & Hc & Hidx).
  { apply lookup_lt_Some in Hi. lia. }
  rewrite app_nil_r in Hw. exists l.
  assert (Hce : prev_chain prev s (l ++ [e]) e) by (econstructor; eauto).
  split; [exact Hw|]. split; [exact Hce|]. split; [apply prev_chain_route, Hce|].
  intros Hin. destruct (Hidx e Hin) as (j & Hj & Hvj).
  specialize (Hlt j Hvj). lia.
Qed.

Lemma path_of_unset (e : Coord) (fuel : nat) :
  in_bounds grid e → t_cells prev !! e = Some None →
  getNodesInShortestPathOrder fuel prev e = Ret [].
Proof using Hinv.
  intros He Hq. unfold getNodesInShortestPathOrder.
  rewrite (full_table_tget grid prev e prev_full He), Hq. reflexivity.
Qed.
End WalkBack.

(** ** What holds when a search stops *)

Section Final.
Context (grid : Grid) (Hgrid : valid_grid grid) (s e : Coord).
Context (He : in_bounds grid e).
Context (vis : list Coord) (prev : Table (option Coord)).
Context (Hfin : search_final grid s e vis prev).

Lemma final_nodup : NoDup vis.
Proof using Hfin.
  destruct Hfin as (fr & pending & Hinv & _).
  eapply search_inv_vis_nodup, Hinv.
Qed.

Lemma final_length : (length vis < budget grid)%nat.
Proof using Hfin.
  destruct Hfin as (fr & pending & Hinv & _).
  pose proof (search_inv_vis_length grid s _ _ _ _ Hinv) as H.
  rewrite length_app in H. lia.
Qed.

Lemma final_in_bounds p : p ∈ vis → in_bounds grid p.
Proof using Hfin.
  destruct Hfin as (fr & pending & Hinv & _). intros Hp.
  eapply si_bounds; [exact Hinv|]. apply elem_of_app. auto.
Qed.

Lemma final_start : s ∈ vis.
Proof using Hfin.
  destruct Hfin as (fr & pending & Hinv & Hend).
  destruct (si_start _ _ _ _ _ _ Hinv) as [[-> ->]|Hs]; [|exact Hs].
  destruct Hend as [Hl|(Hfr & _)]; discriminate.
Qed.

Lemma final_reachable p : p ∈ vis → reachable grid s p.
Proof using Hfin.
  destruct Hfin as (fr & pending & Hinv & _).
  eapply search_inv_reachable, Hinv.
Qed.

Lemma final_found : reachable grid s e → e ∈ vis.
Proof using Hfin.
  destruct Hfin as (fr & pending & Hinv & [Hl|(-> & -> & Hn)]).
  - intros _. apply last_Some in Hl as (l & ->).
    apply elem_of_app. right. apply list_elem_of_singleton. reflexivity.
  - eapply search_inv_complete, Hinv.
Qed.

Lemma final_last : e ∈ vis → last vis = Some e.
Proof using Hfin.
  destruct Hfin as (fr & pending & Hinv & [Hl|(-> & -> & Hn)]); done.
Qed.

Lemma final_prev_unset : e = s ∨ ¬ reachable grid s e →
  t_cells prev !! e = Some None.
Proof using Hfin He.
  destruct Hfin as (fr & pending & Hinv & _).
  intros [->|Hnr]; [eapply si_prev_start, Hinv|].
  destruct (si_total _ _ _ _ _ _ Hinv e He) as [[q|] Hq]; [|exact Hq].
  exfalso. apply Hnr.
  destruct (si_prev_edge _ _ _ _ _ _ Hinv e q Hq) as (_ & Hin & _).
  eapply search_inv_frontier_reachable; eauto.
Qed.

Lemma final_prev_set : e ≠ s → reachable grid s e →
  ∃ q, t_cells prev !! e = Some (Some q).
Proof using Hfin.
  intros Hne Hr. pose proof (final_found Hr) as Hin.
  destruct Hfin as (fr & pending & Hinv & _).
  eapply si_prev_some; [exact Hinv| |exact Hne]. apply elem_of_app. auto.
Qed.

(** The two shapes of the reconstructed path. *)
Lemma final_path_empty (fuel : nat) :
  e = s ∨ ¬ reachable grid s e →
  getNodesInShortestPathOrder fuel prev e = Ret [].
Proof using Hfin He.
  intros H. pose proof (final_prev_unset H) as Hq.
  destruct Hfin as (fr & pending & Hinv & _).
  eapply path_of_unset; eauto.
Qed.

Lemma final_path_found (fuel : nat) (q : Coord) :
  t_cells prev !! e = Some (Some q) → (length vis < fuel)%nat →
  ∃ l, getNodesInShortestPathOrder fuel prev e = Ret (s :: l)
       ∧ prev_chain prev s (l ++ [e]) e
       ∧ route grid s (l ++ [e]) e
       ∧ e ∉ s :: l.
Proof using Hfin He.
  destruct Hfin as (fr & pending & Hinv & _).
  eapply path_of_found; eauto.
Qed.

Lemma final_acyclic : acyclic prev.
Proof using Hfin.
  destruct Hfin as (fr & pending & Hinv & _).
  eapply search_inv_acyclic, Hinv.
Qed.
End Final.

(** ** The priority queue *)

Lemma sort_insert_perm (x : Item) (l : list Item) : sort_insert x l ≡ₚ x :: l.
Proof.
  induction l as [|y l IH]; simpl; [reflexivity|].
  destruct (num_gt _ _); [|reflexivity].
  rewrite IH. apply Permutation_swap.
Qed.

Lemma sort_perm (q : PriorityQueue) : sort q ≡ₚ q.
Proof.
  induction q as [|x q IH]; simpl; [reflexivity|].
  rewrite sort_insert_perm, IH. reflexivity.
Qed.

Lemma enqueue_perm (v : Coord) (p : num) (q : PriorityQueue) :
  enqueue v p q ≡ₚ (v, p) :: q.
Proof.
  unfold enqueue. rewrite sort_perm. symmetry. apply Permutation_cons_append.
Qed.

Lemma enqueue_vals (v : Coord) (p : num) (q : PriorityQueue) :
  val <$> enqueue v p q ≡ₚ v :: (val <$> q).
Proof. rewrite enqueue_perm. reflexivity. Qed.

Lemma hasNode_spec (v : Coord) (q : PriorityQueue) :
  hasNode (row v) (col v) q = true ↔ v ∈ val <$> q.
Proof.
  unfold hasNode. induction q as [|x q IH]; simpl.
  - split; [discriminate|]. intros H. apply elem_of_nil in H as [].
  - rewrite orb_true_iff, IH, elem_of_cons.
    assert (same_node (row v) (col v) x = true ↔ v = val x) as ->; [|reflexivity].
    unfold same_node. rewrite andb_true_iff, !bool_decide_eq_true.
    destruct v as [r c], x as [[r' c'] p]; unfold row, col, val; simpl.
    split; [intros [-> ->]; reflexivity|intros [= -> ->]; auto].
Qed.

Lemma hasNode_false (v : Coord) (q : PriorityQueue) :
  hasNode (row v) (col v) q = false ↔ v ∉ val <$> q.
Proof.
  rewrite <- hasNode_spec. destruct (hasNode _ _ q); split; congruence.
Qed.

Lemma isEmpty_true (q : PriorityQueue) : isEmpty q = true ↔ q = [].
Proof.
  unfold isEmpty. rewrite bool_decide_eq_true. destruct q; simpl; split; congruence.
Qed.

Lemma pq_sorted_nil : pq_sorted [].
Proof. intros i j x y _ H. rewrite lookup_nil in H. discriminate. Qed.

Lemma pq_sorted_cons (x : Item) (q : PriorityQueue) :
  pq_sorted (x :: q) ↔
  (∀ y, y ∈ q → num_gt (priority x) (priority y) = false) ∧ pq_sorted q.
Proof.
  split.
  - intros H. split.
    + intros y Hy. apply list_elem_of_lookup_1 in Hy as [j Hj].
      apply (H 0%nat (S j) x y); [lia|reflexivity|exact Hj].
    + intros i j a b Hij Ha Hb. apply (H (S i) (S j) a b); [lia|exact Ha|exact Hb].
  - intros [Hx Hq] i j a b Hij Ha Hb.
    destruct j as [|j]; [lia|]. simpl in Hb.
    destruct i as [|i]; simpl in Ha.
    + injection Ha as <-. apply Hx. eapply list_elem_of_lookup_2, Hb.
    + apply (Hq i j a b); [lia|exact Ha|exact Hb].
Qed.

Lemma pq_sorted_tail (x : Item) (q : PriorityQueue) :
  pq_sorted (x :: q) → pq_sorted q.
Proof. intros H. apply pq_sorted_cons in H. tauto. Qed.

Lemma pq_sorted_snoc (q : PriorityQueue) (x : Item) :
  pq_sorted q → (∀ y, y ∈ q → num_gt (priority y) (priority x) = false) →
  pq_sorted (q ++ [x]).
Proof.
  induction q as [|a q IH]; intros Hq Hx.
  - apply pq_sorted_cons. split; [|apply pq_sorted_nil].
    intros y Hy. apply elem_of_nil in Hy as [].
  - apply pq_sorted_cons in Hq as [Ha Hq]. simpl. apply pq_sorted_cons. split.
    + intros y Hy. apply elem_of_app in Hy as [Hy|Hy]; [auto|].
      apply list_elem_of_singleton in Hy as ->. apply Hx. left.
    + apply IH; [exact Hq|]. intros y Hy. apply Hx. right. exact Hy.
Qed.

(** Sorting a queue that is already in order changes nothing. *)
Lemma sort_sorted (q : PriorityQueue) : pq_sorted q → sort q = q.
Proof.
  induction q as [|x q IH]; intros Hq; [reflexivity|].
  apply pq_sorted_cons in Hq as [Hx Hq]. simpl. rewrite (IH Hq).
  destruct q as [|y q]; [reflexivity|]. simpl.
  rewrite Hx; [reflexivity|left].
Qed.

(** So an entry whose priority is not below any other goes to the back. *)
Lemma enqueue_back (v : Coord) (p : num) (q : PriorityQueue) :
  pq_sorted q → (∀ y, y ∈ q → num_gt (priority y) p = false) →
  enqueue v p q = q ++ [(v, p)].
Proof.
  intros Hq Hp. apply sort_sorted, pq_sorted_snoc; auto.
Qed.

Lemma num_gt_fin_total (a b : Z) :
  num_gt (Fin a) (Fin b) = false → num_gt (Fin b) (Fin a) = false → a = b.
Proof. simpl. rewrite !bool_decide_eq_false. lia. Qed.

Lemma sort_insert_sorted (x : Item) (q : PriorityQueue) :
  pq_finite (x :: q) → pq_sorted q → pq_sorted (sort_insert x q).
Proof.
  induction q as [|y q IH]; intros Hfin Hq; simpl.
  - apply pq_sorted_cons. split; [|apply pq_sorted_nil].
    intros z Hz. apply elem_of_nil in Hz as [].
  - destruct (Hfin x) as [px Hpx]; [left|].
    destruct (Hfin y) as [py Hpy]; [right; left|].
    destruct (num_gt (priority x) (priority y)) eqn:Hgt.
    + pose proof Hq as Hq0. apply pq_sorted_cons in Hq as [Hy Hq].
      apply pq_sorted_cons. split.
      * intros z Hz. rewrite sort_insert_perm in Hz.
        apply elem_of_cons in Hz as [->|Hz]; [|auto].
        rewrite Hpx, Hpy in *. simpl in *. apply bool_decide_eq_true in Hgt.
        apply bool_decide_eq_false. lia.
      * apply IH; [|exact Hq]. intros z Hz. apply Hfin.
        apply elem_of_cons in Hz as [->|Hz]; [left|right; right; exact Hz].
    + apply pq_sorted_cons. split; [|exact Hq].
      intros z Hz. apply elem_of_cons in Hz as [->|Hz]; [exact Hgt|].
      apply pq_sorted_cons in Hq as [Hy _]. specialize (Hy z Hz).
      destruct (Hfin z) as [pz Hpz]; [right; right; exact Hz|].
      rewrite Hpx, Hpy, Hpz in *. simpl in *.
      apply bool_decide_eq_false in Hgt, Hy. apply bool_decide_eq_false. lia.
Qed.

Lemma sort_is_sorted (q : PriorityQueue) : pq_finite q → pq_sorted (sort q).
Proof.
  induction q as [|x q IH]; intros Hfin; simpl; [apply pq_sorted_nil|].
  apply sort_insert_sorted.
  - intros z Hz. apply Hfin. apply elem_of_cons in Hz as [->|Hz]; [left|right].
    rewrite <- (sort_perm q). exact Hz.
  - apply IH. intros z Hz. apply Hfin. right. exact Hz.
Qed.

Lemma enqueue_sorted (v : Coord) (p : Z) (q : PriorityQueue) :
  pq_finite q → pq_sorted (enqueue v (Fin p) q).
Proof.
  intros Hfin. apply sort_is_sorted. intros z Hz.
  apply elem_of_app in Hz as [Hz|Hz]; [auto|].
  apply list_elem_of_singleton in Hz as ->. exists p. reflexivity.
Qed.

Lemma enqueue_finite (v : Coord) (p : Z) (q : PriorityQueue) :
  pq_finite q → pq_finite (enqueue v (Fin p) q).
Proof.
  intros Hfin z Hz. rewrite enqueue_perm in Hz.
  apply elem_of_cons in Hz as [->|Hz]; [exists p; reflexivity|auto].
Qed.

Lemma enqueue_vals_elem (n p : Coord) (f : num) (q : PriorityQueue) :
  p ∈ val <$> enqueue n f q ↔ p = n ∨ p ∈ val <$> q.
Proof. rewrite enqueue_vals. apply elem_of_cons. Qed.

Lemma enqueue_vals_nodup (n : Coord) (f : num) (q : PriorityQueue) :
  NoDup (val <$> q) → n ∉ val <$> q → NoDup (val <$> enqueue n f q).
Proof. intros Hnd Hn. rewrite enqueue_vals. apply NoDup_cons. auto. Qed.

Lemma sort_insert_front (y : Item) (q : PriorityQueue) :
  (∀ z, z ∈ q → num_gt (priority y) (priority z) = false) →
  sort_insert y q = y :: q.
Proof.
  intros H. destruct q as [|z q]; [reflexivity|]. simpl.
  rewrite H; [reflexivity|left].
Qed.

(** An entry goes behind the entries it does not beat and in front of
    those with a larger priority. *)
Lemma enqueue_between (v : Coord) (p : num) (q1 q2 : PriorityQueue) :
  pq_sorted q1 → pq_sorted q2 →
  (∀ y, y ∈ q1 → num_gt (priority y) p = false) →
  (∀ y, y ∈ q2 → num_gt (priority y) p = true) →
  enqueue v p (q1 ++ q2) = q1 ++ (v, p) :: q2.
Proof.
  intros Hs1 Hs2 H1 H2. unfold enqueue, sort.
  rewrite <- app_assoc, !foldr_app. simpl.
  assert (Hq2 : foldr sort_insert [(v, p)] q2 = (v, p) :: q2).
  { clear H1 Hs1. induction q2 as [|y q2 IH]; [reflexivity|]. simpl.
    apply pq_sorted_cons in Hs2 as [Hy Hs2].
    rewrite IH by (auto; intros z Hz; apply H2; right; exact Hz).
    simpl. rewrite (H2 y) by left. f_equal. apply sort_insert_front, Hy. }
  rewrite Hq2. clear Hq2 H2 Hs2.
  induction q1 as [|y q1 IH]; [reflexivity|]. simpl.
  apply pq_sorted_cons in Hs1 as [Hy Hs1].
  rewrite IH by (auto; intros z Hz; apply H1; right; exact Hz).
  destruct q1 as [|z q1]; simpl.
  - rewrite (H1 y) by left. reflexivity.
  - rewrite (Hy z) by left. reflexivity.
Qed.

Lemma pq_sorted_app (q1 q2 : PriorityQueue) :
  pq_sorted q1 → pq_sorted q2 →
  (∀ x y, x ∈ q1 → y ∈ q2 → num_gt (priority x) (priority y) = false) →
  pq_sorted (q1 ++ q2).
Proof.
  intros H1 H2 H12. induction q1 as [|a q1 IH]; [exact H2|].
  apply pq_sorted_cons in H1 as [Ha H1]. simpl. apply pq_sorted_cons. split.
  - intros y Hy. apply elem_of_app in Hy as [Hy|Hy]; [auto|].
    apply H12; [left|exact Hy].
  - apply IH; [exact H1|]. intros x y Hx Hy. apply H12; [right; exact Hx|exact Hy].
Qed.

Lemma pq_sorted_const (p : Z) (q : PriorityQueue) :
  (∀ x, x ∈ q → priority x = Fin p) → pq_sorted q.
Proof.
  intros H i j x y _ Hi Hj.
  rewrite (H x), (H y) by (eapply list_elem_of_lookup_2; eassumption).
  simpl. apply bool_decide_eq_false. lia.
Qed.

(** ** Breadth-first levels *)

Section Levels.
Context (grid : Grid) (Hgrid : valid_grid grid) (s : Coord).

Lemma level_inv_init :
  level_inv grid s [] [s] (new_table (length grid) (Z.to_nat (grid_cols grid)) None).
Proof.
  constructor.
  - intros p Hp. apply list_elem_of_singleton in Hp as ->.
    exists 0%nat. apply distance_self.
  - intros i j p q dp dq _ Hi Hj Hdp Hdq. simpl in Hi, Hj.
    apply list_lookup_singleton_Some in Hi as [_ <-].
    apply list_lookup_singleton_Some in Hj as [_ <-].
    rewrite (distance_unique grid s s dp dq Hdp Hdq). lia.
  - intros p q dp dq Hl. discriminate.
  - intros p q dq Hpq. rewrite new_table_lookup in Hpq.
    case_bool_decide; discriminate.
Qed.

Lemma level_inv_pop vis c fr prev :
  search_inv grid s vis (c :: fr) [] prev →
  level_inv grid s vis (c :: fr) prev →
  level_inv grid s (vis ++ [c]) fr prev.
Proof.
  intros Hinv [Hdist Hsorted Hspan Hprev].
  assert (Heq : (vis ++ [c]) ++ fr = vis ++ c :: fr) by (rewrite <- app_assoc; reflexivity).
  constructor.
  - rewrite Heq. exact Hdist.
  - rewrite Heq. exact Hsorted.
  - intros p q dp dq Hl Hq Hdp Hdq. rewrite last_snoc in Hl. injection Hl as <-.
    destruct (last vis) as [p0|] eqn:Hp0.
    + destruct (Hdist p0) as [d0 Hd0].
      { apply elem_of_app. left. apply last_Some in Hp0 as (l & ->).
        apply elem_of_app. right. apply list_elem_of_singleton. reflexivity. }
      assert (d0 ≤ dp)%nat.
      { apply last_Some in Hp0 as (l & ->).
        apply (Hsorted (length l) (S (length l)) p0 c); [lia| | |assumption..].
        - rewrite <- app_assoc, lookup_app_r by lia.
          rewrite Nat.sub_diag. reflexivity.
        - rewrite lookup_app_r by (rewrite length_app; simpl; lia).
          rewrite length_app. simpl.
          replace (S (length l) - (length l + 1))%nat with 0%nat by lia.
          reflexivity. }
      assert (dq ≤ S d0)%nat.
      { apply (Hspan p0 q); [reflexivity|right; exact Hq|assumption..]. }
      lia.
    + apply last_None in Hp0. subst vis.
      destruct (si_start _ _ _ _ _ _ Hinv) as [[_ Hfr]|Hs].
      * injection Hfr as -> ->. apply elem_of_nil in Hq as [].
      * apply elem_of_nil in Hs as [].
  - exact Hprev.
Qed.

(** A route that leaves the cells met so far is longer than the
    distance of the node being expanded. *)
Lemma route_escape vis fr c pending prev dc l p :
  search_inv grid s vis fr pending prev →
  level_inv grid s vis fr prev →
  last vis = Some c → distance grid s c dc →
  route grid s l p → p ∈ vis ++ fr ∨ (S dc ≤ length l)%nat.
Proof.
  intros Hinv [Hdist Hsorted Hspan Hprev] Hlast Hdc Hr.
  induction Hr as [|l p q Hr IH Hstep].
  - left. eapply search_inv_start_in, Hinv.
  - rewrite length_app. simpl.
    destruct IH as [Hp|Hlen]; [|right; lia].
    apply elem_of_app in Hp as [Hp|Hp].
    + destruct (si_closed _ _ _ _ _ _ Hinv p q Hp Hstep) as [Hq|[Hl _]]; [auto|].
      right. rewrite Hlast in Hl. injection Hl as ->.
      destruct Hdc as [_ Hmin]. specialize (Hmin l Hr). lia.
    + right. destruct (Hdist p) as [dp Hdp]; [apply elem_of_app; auto|].
      assert (dc ≤ dp)%nat.
      { apply last_Some in Hlast as (vis' & ->).
        apply list_elem_of_lookup_1 in Hp as [j Hj].
        apply (Hsorted (length vis') (length vis' + 1 + j)%nat c p);
          [lia| | |assumption..].
        - rewrite <- app_assoc, lookup_app_r by lia.
          rewrite Nat.sub_diag. reflexivity.
        - rewrite lookup_app_r by (rewrite length_app; simpl; lia).
          rewrite length_app. simpl.
          replace (length vis' + 1 + j - (length vis' + 1))%nat with j by lia.
          exact Hj. }
      destruct Hdp as [_ Hmin]. specialize (Hmin l Hr). lia.
Qed.

Lemma discover_distance vis fr c n pending prev dc :
  search_inv grid s vis fr pending prev →
  level_inv grid s vis fr prev →
  last vis = Some c → step grid c n → n ∉ vis ++ fr →
  distance grid s c dc → distance grid s n (S dc).
Proof.
  intros Hinv Hlev Hlast Hstep Hn Hdc. split.
  - destruct Hdc as [(l & Hl & <-) _]. exists (l ++ [n]). split.
    + econstructor; eauto.
    + rewrite length_app. simpl. lia.
  - intros l Hl.
    destruct (route_escape vis fr c pending prev dc l n Hinv Hlev Hlast Hdc Hl); done.
Qed.

Lemma level_inv_discover vis fr c n pending prev :
  search_inv grid s vis fr pending prev →
  level_inv grid s vis fr prev →
  last vis = Some c → step grid c n → n ∉ vis ++ fr →
  level_inv grid s vis (fr ++ [n])
    (mkTable (t_rows prev) (<[n := Some c]> (t_cells prev))).
Proof.
  intros Hinv Hlev Hlast Hstep Hn.
  pose proof Hlev as [Hdist Hsorted Hspan Hprev].
  destruct (Hdist c) as [dc Hdc].
  { apply elem_of_app. left. apply last_Some in Hlast as (l & ->).
    apply elem_of_app. right. apply list_elem_of_singleton. reflexivity. }
  pose proof (discover_distance vis fr c n pending prev dc Hinv Hlev Hlast Hstep Hn Hdc)
    as Hdn.
  assert (Hle : ∀ p dp, p ∈ vis ++ fr → distance grid s p dp → (dp ≤ S dc)%nat).
  { intros p dp Hp Hdp. apply elem_of_app in Hp as [Hp|Hp].
    - apply last_Some in Hlast as (vis' & ->).
      apply list_elem_of_lookup_1 in Hp as [i Hi].
      pose proof (lookup_lt_Some _ _ _ Hi) as Hlt.
      rewrite length_app in Hlt. simpl in Hlt.
      assert (dp ≤ dc)%nat; [|lia].
      apply (Hsorted i (length vis') p c); [lia| | |assumption..].
      + apply lookup_app_l_Some. exact Hi.
      + rewrite <- app_assoc, lookup_app_r by lia.
        rewrite Nat.sub_diag. reflexivity.
    - apply (Hspan c p); assumption. }
  constructor.
  - intros p Hp. rewrite app_assoc in Hp. apply elem_of_app in Hp as [Hp|Hp]; [auto|].
    apply list_elem_of_singleton in Hp as ->. eauto.
  - intros i j p q dp dq Hij Hi Hj Hdp Hdq. rewrite app_assoc in Hi, Hj.
    destruct (decide (j < length (vis ++ fr))%nat) as [Hjl|Hjl].
    + rewrite lookup_app_l in Hi, Hj by lia. eauto.
    + rewrite lookup_app_r in Hj by lia.
      apply list_lookup_singleton_Some in Hj as [_ <-].
      rewrite (distance_unique grid s n dq (S dc) Hdq Hdn).
      destruct (decide (i < length (vis ++ fr))%nat) as [Hil|Hil].
      * rewrite lookup_app_l in Hi by lia. apply (Hle p); [|assumption].
        eapply list_elem_of_lookup_2, Hi.
      * rewrite lookup_app_r in Hi by lia.
        apply list_lookup_singleton_Some in Hi as [_ <-].
        rewrite (distance_unique grid s n dp (S dc) Hdp Hdn). lia.
  - intros p q dp dq Hl Hq Hdp Hdq. rewrite Hlast in Hl. injection Hl as <-.
    rewrite (distance_unique grid s c dp dc Hdp Hdc).
    apply elem_of_app in Hq as [Hq|Hq].
    + apply (Hle q); [apply elem_of_app; auto|assumption].
    + apply list_elem_of_singleton in Hq as ->.
      rewrite (distance_unique grid s n dq (S dc) Hdq Hdn). lia.
  - intros p q dq. simpl. rewrite lookup_insert. case_decide as Hpn.
    + subst p. intros [= <-] Hdq.
      rewrite (distance_unique grid s c dq dc Hdq Hdc). exact Hdn.
    + apply Hprev.
Qed.

(** With levels, the chain of predecessors of a cell is a shortest route. *)
Lemma prev_chain_distance vis fr prev l q :
  level_inv grid s vis fr prev → prev_chain prev s l q →
  distance grid s q (length l).
Proof.
  intros Hlev. induction 1 as [|l q p _ IH Hp]; [apply distance_self|].
  rewrite length_app. simpl. rewrite Nat.add_1_r.
  eapply li_prev; eauto.
Qed.
End Levels.

(** * The searches keep their invariants *)

Lemma for_of_inv {A S} (body : S → A → outcome S) (I : list A → S → Prop) :
  (∀ x rest s, I (x :: rest) s → ∃ s', body s x = Ret s' ∧ I rest s') →
  ∀ xs s, I xs s → ∃ s', for_of body xs s = Ret s' ∧ I [] s'.
Proof.
  intros Hstep xs. induction xs as [|x xs IH]; intros s Hs; simpl; [eauto|].
  destruct (Hstep x xs s Hs) as (s' & -> & Hs'). simpl. auto.
Qed.

(** ** bfs and dfs *)

Section Frontier.
Context (grid : Grid) (Hgrid : valid_grid grid) (s : Coord).
Context (d : Discipline).

Lemma frontier_push_elem (n p : Coord) (fr : list Coord) :
  p ∈ frontier_push d n fr ↔ p = n ∨ p ∈ fr.
Proof.
  destruct d; simpl.
  - rewrite elem_of_app, list_elem_of_singleton. tauto.
  - apply elem_of_cons.
Qed.

Lemma frontier_push_nodup (n : Coord) (fr : list Coord) :
  NoDup fr → n ∉ fr → NoDup (frontier_push d n fr).
Proof.
  intros Hnd Hn. destruct d; simpl.
  - apply NoDup_app. split; [exact Hnd|]. split; [|apply NoDup_singleton].
    intros x Hx Hx'. apply list_elem_of_singleton in Hx' as ->. done.
  - apply NoDup_cons. auto.
Qed.

Lemma frontier_neighbor_inv (c n : Coord) (pending : list Coord) (st : FrontierState) :
  frontier_inv d grid s st (n :: pending) →
  last (fr_visitedNodesInOrder st) = Some c →
  adjacent c n → in_bounds grid n →
  ∃ st', frontier_neighbor d grid c st n = Ret st'
         ∧ frontier_inv d grid s st' pending
         ∧ fr_visitedNodesInOrder st' = fr_visitedNodesInOrder st.
Proof using Hgrid.
  intros (Hinv & Hfull & Hvis & Hlev) Hlast Hadj Hn.
  destruct st as [vis fr visited prev]; simpl in *.
  unfold frontier_neighbor; simpl.
  rewrite (full_table_tget grid visited n Hfull Hn). simpl.
  destruct (truthy (t_cells visited !! n)) eqn:Hv.
  { exists (mkFrontier vis fr visited prev). split; [reflexivity|]. split; [|reflexivity].
    split; [|auto]. simpl. eapply search_inv_skip; [|exact Hinv].
    intros _. apply Hvis; assumption. }
  assert (Hnin : n ∉ vis ++ fr).
  { intros Hin. apply Hvis in Hin; [congruence|exact Hn]. }
  destruct (cell_isWall_in_bounds grid Hgrid n Hn) as [w Hw]. rewrite Hw. simpl.
  destruct w.
  { exists (mkFrontier vis fr visited prev). split; [reflexivity|]. split; [|reflexivity].
    split; [|auto]. simpl. eapply search_inv_skip; [|exact Hinv].
    intros (_ & _ & Hfree). congruence. }
  assert (Hstep : step grid c n) by (split; [|split]; assumption).
  rewrite (full_table_tset grid visited n true Hfull Hn). simpl.
  rewrite (full_table_tset grid prev n (Some c)
             (prev_full grid s _ _ _ _ Hinv) Hn). simpl.
  eexists. split; [reflexivity|]. split; [|reflexivity].
  assert (Hnv : n ∉ vis) by (intros H; apply Hnin, elem_of_app; auto).
  assert (Hnf : n ∉ fr) by (intros H; apply Hnin, elem_of_app; auto).
  split; [|split; [|split]]; simpl.
  - eapply search_inv_link; eauto.
    + intros p. apply frontier_push_elem.
    + apply frontier_push_nodup; [|exact Hnf].
      apply si_nodup, NoDup_app in Hinv. tauto.
  - apply full_table_insert, Hfull.
  - intros p Hp. rewrite lookup_insert, elem_of_app, frontier_push_elem.
    case_decide as Hpn.
    + subst p. simpl. tauto.
    + rewrite (Hvis p Hp), elem_of_app. split; [tauto|].
      intros [?|[?|?]]; [auto|congruence|auto].
  - intros ->. simpl. eapply level_inv_discover; eauto.
Qed.

Lemma frontier_neighbors_inv (c : Coord) (st : FrontierState) :
  frontier_inv d grid s st (getNeighbors (row c) (col c) grid) →
  last (fr_visitedNodesInOrder st) = Some c →
  ∃ st', for_of (frontier_neighbor d grid c)
           (getNeighbors (row c) (col c) grid) st = Ret st'
         ∧ frontier_inv d grid s st' []
         ∧ fr_visitedNodesInOrder st' = fr_visitedNodesInOrder st.
Proof using Hgrid.
  intros Hinv Hlast.
  pose (I := λ (pending : list Coord) (st' : FrontierState),
    frontier_inv d grid s st' pending
    ∧ fr_visitedNodesInOrder st' = fr_visitedNodesInOrder st
    ∧ ∀ n, n ∈ pending → adjacent c n ∧ in_bounds grid n).
  destruct (for_of_inv (frontier_neighbor d grid c) I) with
    (xs := getNeighbors (row c) (col c) grid) (s := st) as (st' & Hrun & Hst' & Heq & _).
  - intros n rest st0 (Hst0 & Heq & Hnb).
    destruct (Hnb n) as [Hadj Hn]; [left|].
    destruct (frontier_neighbor_inv c n rest st0 Hst0) as (st1 & Hr & Hst1 & Heq1);
      [congruence|assumption..|].
    exists st1. split; [exact Hr|]. split; [exact Hst1|]. split; [congruence|].
    intros m Hm. apply Hnb. right. exact Hm.
  - split; [exact Hinv|]. split; [reflexivity|].
    intros n Hn. apply getNeighbors_spec. exact Hn.
  - eauto.
Qed.

Context (e : Coord).

Lemma frontier_loop_final (fuel : nat) :
  ∀ st, frontier_inv d grid s st [] →
  e ∉ fr_visitedNodesInOrder st →
  (budget grid ≤ length (fr_visitedNodesInOrder st) + fuel)%nat →
  ∃ st', frontier_loop d fuel grid e st = Ret st'
         ∧ search_final grid s e (fr_visitedNodesInOrder st') (fr_previousNodes st')
         ∧ (d = Fifo → ∃ fr, level_inv grid s (fr_visitedNodesInOrder st') fr
                                (fr_previousNodes st')).
Proof using Hgrid.
  induction fuel as [|fuel IH]; intros st Hst He Hfuel.
  { destruct Hst as (Hinv & _).
    pose proof (search_inv_vis_length grid s _ _ _ _ Hinv) as Hlen.
    rewrite length_app in Hlen. lia. }
  pose proof Hst as (Hinv & Hfull & Hvis & Hlev).
  destruct st as [vis fr visited prev]; simpl in *.
  destruct fr as [|c rest].
  { exists (mkFrontier vis [] visited prev). split; [reflexivity|]. simpl. split.
    - exists [], []. split; [exact Hinv|]. right. done.
    - eauto. }
  pose proof (search_inv_pop grid s vis (c :: rest) rest c prev
                (reflexivity _) Hinv) as Hpop.
  assert (Hlev' : d = Fifo → level_inv grid s (vis ++ [c]) rest prev).
  { intros Hd. apply level_inv_pop; auto. }
  destruct (same_coord c e) eqn:Hce.
  { apply same_coord_true in Hce.
    eexists. split; [reflexivity|]. simpl. split.
    - eexists _, _. split; [exact Hpop|]. left. rewrite <- Hce. apply last_snoc.
    - eauto. }
  apply same_coord_false in Hce.
  destruct (frontier_neighbors_inv c (mkFrontier (vis ++ [c]) rest visited prev))
    as (st2 & Hrun & Hst2 & Heq).
  { split; [exact Hpop|]. split; [exact Hfull|]. split; [|exact Hlev'].
    simpl. intros p Hp. rewrite (Hvis p Hp), <- app_assoc. reflexivity. }
  { apply last_snoc. }
  rewrite Hrun. simpl. simpl in Heq.
  apply IH; [exact Hst2| |].
  - rewrite Heq. intros Hin. apply elem_of_app in Hin as [Hin|Hin]; [done|].
    apply list_elem_of_singleton in Hin. congruence.
  - rewrite Heq, length_app. simpl. lia.
Qed.

Lemma frontier_search_final (fuel : nat) :
  in_bounds grid s → (budget grid ≤ fuel)%nat →
  ∃ st, frontier_search d fuel grid s e = Ret st
        ∧ search_final grid s e (fr_visitedNodesInOrder st) (fr_previousNodes st)
        ∧ (d = Fifo → ∃ fr, level_inv grid s (fr_visitedNodesInOrder st) fr
                               (fr_previousNodes st)).
Proof using Hgrid.
  intros Hs Hfuel. unfold frontier_search, frontier_init.
  rewrite (full_table_tset grid _ s true (new_table_full grid false) Hs). simpl.
  apply frontier_loop_final; simpl; [|apply not_elem_of_nil|lia].
  split; [apply search_inv_init, Hs|]. split; [apply full_table_insert, new_table_full|].
  split; [|intros _; apply level_inv_init].
  simpl. intros p Hp. rewrite lookup_insert, list_elem_of_singleton.
  case_decide as Hps; [simpl; split; auto|].
  rewrite (new_table_in_bounds grid false p Hp). simpl. split; [discriminate|congruence].
Qed.
End Frontier.

(** ** dijkstra *)

Section Dijkstra.
Context (grid : Grid) (Hgrid : valid_grid grid) (s : Coord).

(** The queue of a state that satisfies the invariant is in order, and
    no priority exceeds the distance of the expanded node by more than one. *)
Lemma dijkstra_queue_sorted (st : DijkstraState) (pending : list Coord) :
  dijkstra_inv grid s st pending → pq_sorted (dj_unvisitedNodes st).
Proof.
  intros (Hinv & Hlev & _ & _ & _ & _ & Hfin & Hq).
  intros i j x y Hij Hi Hj.
  destruct (Hfin (val x)) as (kx & Hkx & Hdx).
  { apply elem_of_app. right. apply list_elem_of_fmap. exists x.
    split; [reflexivity|]. eapply list_elem_of_lookup_2, Hi. }
  destruct (Hfin (val y)) as (ky & Hky & Hdy).
  { apply elem_of_app. right. apply list_elem_of_fmap. exists y.
    split; [reflexivity|]. eapply list_elem_of_lookup_2, Hj. }
  rewrite (Hq x) in Hkx by (eapply list_elem_of_lookup_2, Hi).
  rewrite (Hq y) in Hky by (eapply list_elem_of_lookup_2, Hj).
  injection Hkx as ->. injection Hky as ->. simpl.
  apply bool_decide_eq_false.
  assert (kx ≤ ky)%nat; [|lia].
  apply (li_sorted _ _ _ _ _ Hlev
           (length (dj_visitedNodesInOrder st) + i)%nat
           (length (dj_visitedNodesInOrder st) + j)%nat (val x) (val y));
    [lia| | |assumption..].
  - rewrite lookup_app_r by lia.
    replace (length (dj_visitedNodesInOrder st) + i
             - length (dj_visitedNodesInOrder st))%nat with i by lia.
    rewrite list_lookup_fmap, Hi. reflexivity.
  - rewrite lookup_app_r by lia.
    replace (length (dj_visitedNodesInOrder st) + j
             - length (dj_visitedNodesInOrder st))%nat with j by lia.
    rewrite list_lookup_fmap, Hj. reflexivity.
Qed.

Lemma dijkstra_neighbor_inv (c n : Coord) (pending : list Coord) (st : DijkstraState) :
  dijkstra_inv grid s st (n :: pending) →
  last (dj_visitedNodesInOrder st) = Some c →
  adjacent c n → in_bounds grid n →
  ∃ st', dijkstra_neighbor grid c st n = Ret st'
         ∧ dijkstra_inv grid s st' pending
         ∧ dj_visitedNodesInOrder st' = dj_visitedNodesInOrder st.
Proof using Hgrid.
  intros Hst Hlast Hadj Hn.
  pose proof (dijkstra_queue_sorted st _ Hst) as Hsorted.
  destruct Hst as (Hinv & Hlev & Hfv & Hvis & Hfd & Hinf & Hfin & Hq).
  destruct st as [vis q dist prev visited]; simpl in *.
  assert (Hskip : (step grid c n → n ∈ vis ++ (val <$> q)) →
    dijkstra_inv grid s (mkDijkstra vis q dist prev visited) pending).
  { intros Hs.
    split; [|split; [|split; [|split; [|split; [|split; [|split]]]]]];
      try assumption.
    simpl. eapply search_inv_skip; [|exact Hinv]. rewrite Hlast. exact Hs. }
  unfold dijkstra_neighbor; simpl.
  rewrite (full_table_tget grid visited n Hfv Hn). simpl.
  destruct (truthy (t_cells visited !! n)) eqn:Hv.
  { eexists. split; [reflexivity|]. split; [|reflexivity].
    apply Hskip. intros _. apply elem_of_app. left. apply Hvis; assumption. }
  assert (Hnv : n ∉ vis).
  { intros Hin. apply Hvis in Hin; [congruence|exact Hn]. }
  destruct (cell_isWall_in_bounds grid Hgrid n Hn) as [w Hw]. rewrite Hw. simpl.
  destruct w.
  { eexists. split; [reflexivity|]. split; [|reflexivity].
    apply Hskip. intros (_ & _ & Hfree). congruence. }
  assert (Hstep : step grid c n) by (split; [|split]; assumption).
  pose proof (last_elem_of _ _ Hlast) as Hcv.
  assert (Hcb : in_bounds grid c).
  { eapply si_bounds; [exact Hinv|]. apply elem_of_app. auto. }
  destruct (Hfin c) as (kc & Hkc & Hdc); [apply elem_of_app; auto|].
  rewrite (full_table_tget grid dist c Hfd Hcb), Hkc. simpl.
  rewrite (full_table_tget grid dist n Hfd Hn). simpl.
  destruct (decide (n ∈ val <$> q)) as [Hnq|Hnq].
  { destruct (Hfin n) as (kn & Hkn & Hdn); [apply elem_of_app; auto|].
    rewrite Hkn. simpl.
    assert (kn ≤ S kc)%nat by (eapply (li_span _ _ _ _ _ Hlev c n); eauto).
    rewrite bool_decide_eq_false_2 by lia.
    eexists. split; [reflexivity|]. split; [|reflexivity].
    apply Hskip. intros _. apply elem_of_app. auto. }
  assert (Hnin : n ∉ vis ++ (val <$> q)).
  { intros Hin. apply elem_of_app in Hin as [|]; done. }
  rewrite (Hinf n Hn Hnin). simpl.
  rewrite (full_table_tset grid dist n _ Hfd Hn). simpl.
  rewrite (full_table_tset grid prev n (Some c)
             (prev_full grid s _ _ _ _ Hinv) Hn). simpl.
  rewrite (proj2 (hasNode_false n q) Hnq).
  assert (Hprio : ∀ y, y ∈ q → num_gt (priority y) (Fin (Z.of_nat kc + 1)) = false).
  { intros y Hy. destruct (Hfin (val y)) as (ky & Hky & Hdy).
    { apply elem_of_app. right. apply list_elem_of_fmap. eauto. }
    rewrite (Hq y Hy) in Hky. injection Hky as ->. simpl.
    assert (ky ≤ S kc)%nat; [|apply bool_decide_eq_false; lia].
    eapply (li_span _ _ _ _ _ Hlev c (val y)); eauto.
    apply list_elem_of_fmap. eauto. }
  rewrite (enqueue_back n _ q Hsorted Hprio).
  pose proof (discover_distance grid s vis _ c n _ prev kc Hinv Hlev Hlast Hstep Hnin Hdc)
    as Hdn.
  eexists. split; [reflexivity|]. split; [|reflexivity].
  split; [|split; [|split; [|split; [|split; [|split; [|split]]]]]]; simpl;
    rewrite ?fmap_app; simpl.
  - eapply search_inv_link; eauto.
    + intros p. rewrite elem_of_app, list_elem_of_singleton. tauto.
    + apply NoDup_app. split; [|split; [|apply NoDup_singleton]].
      * apply si_nodup, NoDup_app in Hinv. tauto.
      * intros x Hx Hx'. apply list_elem_of_singleton in Hx' as ->. done.
  - eapply level_inv_discover; eauto.
  - exact Hfv.
  - exact Hvis.
  - apply full_table_insert, Hfd.
  - intros p Hp Hpn. rewrite lookup_insert_ne.
    + apply Hinf; [exact Hp|]. intros Hin. apply Hpn. rewrite app_assoc.
      apply elem_of_app. auto.
    + intros ->. apply Hpn. rewrite app_assoc. apply elem_of_app. right.
      apply list_elem_of_singleton. reflexivity.
  - intros p Hp. rewrite lookup_insert. case_decide as Hpn.
    + subst p. exists (S kc). split; [|exact Hdn]. do 2 f_equal. lia.
    + apply Hfin. rewrite app_assoc in Hp. apply elem_of_app in Hp as [Hp|Hp]; [exact Hp|].
      apply list_elem_of_singleton in Hp. congruence.
  - intros x Hx. apply elem_of_app in Hx as [Hx|Hx].
    + rewrite lookup_insert_ne; [auto|].
      intros ->. apply Hnq. apply list_elem_of_fmap. eauto.
    + apply list_elem_of_singleton in Hx as ->. simpl. apply lookup_insert_eq.
Qed.

Lemma dijkstra_neighbors_inv (c : Coord) (st : DijkstraState) :
  dijkstra_inv grid s st (getNeighbors (row c) (col c) grid) →
  last (dj_visitedNodesInOrder st) = Some c →
  ∃ st', for_of (dijkstra_neighbor grid c)
           (getNeighbors (row c) (col c) grid) st = Ret st'
         ∧ dijkstra_inv grid s st' []
         ∧ dj_visitedNodesInOrder st' = dj_visitedNodesInOrder st.
Proof using Hgrid.
  intros Hinv Hlast.
  pose (I := λ (pending : list Coord) (st' : DijkstraState),
    dijkstra_inv grid s st' pending
    ∧ dj_visitedNodesInOrder st' = dj_visitedNodesInOrder st
    ∧ ∀ n, n ∈ pending → adjacent c n ∧ in_bounds grid n).
  destruct (for_of_inv (dijkstra_neighbor grid c) I) with
    (xs := getNeighbors (row c) (col c) grid) (s := st) as (st' & Hrun & Hst' & Heq & _).
  - intros n rest st0 (Hst0 & Heq & Hnb).
    destruct (Hnb n) as [Hadj Hn]; [left|].
    destruct (dijkstra_neighbor_inv c n rest st0 Hst0) as (st1 & Hr & Hst1 & Heq1);
      [congruence|assumption..|].
    exists st1. split; [exact Hr|]. split; [exact Hst1|]. split; [congruence|].
    intros m Hm. apply Hnb. right. exact Hm.
  - split; [exact Hinv|]. split; [reflexivity|].
    intros n Hn. apply getNeighbors_spec. exact Hn.
  - eauto.
Qed.

Context (e : Coord).

Lemma dijkstra_loop_final (fuel : nat) :
  ∀ st, dijkstra_inv grid s st [] →
  e ∉ dj_visitedNodesInOrder st →
  (budget grid ≤ length (dj_visitedNodesInOrder st) + fuel)%nat →
  ∃ st', dijkstra_loop fuel grid e st = Ret st' ∧ dijkstra_final grid s e st'.
Proof using Hgrid.
  induction fuel as [|fuel IH]; intros st Hst He Hfuel.
  { destruct Hst as (Hinv & _).
    pose proof (search_inv_vis_length grid s _ _ _ _ Hinv) as Hlen.
    rewrite length_app in Hlen. lia. }
  pose proof Hst as (Hinv & Hlev & Hfv & Hvis & Hfd & Hinf & Hfin & Hq).
  destruct st as [vis q dist prev visited]; simpl in *.
  destruct q as [|x q]; simpl.
  { eexists. split; [reflexivity|]. split; [|split]; simpl.
    - exists [], []. split; [exact Hinv|]. right. done.
    - eauto.
    - intros p Hp. apply Hfin. apply elem_of_app. auto. }
  simpl in *. set (c := val x) in *.
  assert (Hcb : in_bounds grid c).
  { eapply si_bounds; [exact Hinv|]. apply elem_of_app. right. left. }
  assert (Hcv : c ∉ vis).
  { intros Hin. apply si_nodup, NoDup_app in Hinv as (_ & Hdisj & _).
    apply (Hdisj c Hin). left. }
  rewrite (full_table_tget grid visited c Hfv Hcb). simpl.
  destruct (truthy (t_cells visited !! c)) eqn:Hv.
  { apply Hvis in Hv; done. }
  rewrite (full_table_tset grid visited c true Hfv Hcb). simpl.
  pose proof (search_inv_pop grid s vis (c :: (val <$> q)) (val <$> q) c prev
                (reflexivity _) Hinv) as Hpop.
  pose proof (level_inv_pop grid s vis c (val <$> q) prev Hinv Hlev) as Hlev'.
  assert (Hst1 : dijkstra_inv grid s
    (mkDijkstra (vis ++ [c]) q dist prev
       (mkTable (t_rows visited) (<[c := true]> (t_cells visited))))
    (getNeighbors (row c) (col c) grid)).
  { split; [exact Hpop|]. split; [exact Hlev'|]. split; [apply full_table_insert, Hfv|].
    simpl. split; [|split; [exact Hfd|split; [|split]]].
    - intros p Hp. rewrite lookup_insert, elem_of_app, list_elem_of_singleton.
      case_decide as Hpc; [subst; simpl; tauto|].
      rewrite (Hvis p Hp). split; [tauto|]. intros [?|?]; [auto|congruence].
    - intros p Hp Hnin. apply Hinf; [exact Hp|].
      rewrite <- app_assoc in Hnin. exact Hnin.
    - intros p Hp. apply Hfin. rewrite <- app_assoc in Hp. exact Hp.
    - intros y Hy. apply Hq. right. exact Hy. }
  destruct (same_coord c e) eqn:Hce.
  { apply same_coord_true in Hce.
    eexists. split; [reflexivity|]. split; [|split]; simpl.
    - eexists _, _. split; [exact Hpop|]. left. rewrite <- Hce. apply last_snoc.
    - eauto.
    - intros p Hp. apply Hfin.
      apply elem_of_app in Hp as [Hp|Hp]; apply elem_of_app; [auto|right].
      apply list_elem_of_singleton in Hp as ->. left. }
  apply same_coord_false in Hce.
  destruct (dijkstra_neighbors_inv c _ Hst1) as (st2 & Hrun & Hst2 & Heq).
  { apply last_snoc. }
  rewrite Hrun. simpl. simpl in Heq.
  apply IH; [exact Hst2| |].
  - rewrite Heq. intros Hin. apply elem_of_app in Hin as [Hin|Hin]; [done|].
    apply list_elem_of_singleton in Hin. congruence.
  - rewrite Heq, length_app. simpl. lia.
Qed.

Lemma dijkstra_search_final (fuel : nat) :
  in_bounds grid s → (budget grid ≤ fuel)%nat →
  ∃ st, dijkstra_search fuel grid s e = Ret st ∧ dijkstra_final grid s e st.
Proof using Hgrid.
  intros Hs Hfuel. unfold dijkstra_search, dijkstra_init.
  rewrite (full_table_tset grid _ s (Fin 0) (new_table_full grid Infinity) Hs).
  simpl. apply dijkstra_loop_final; simpl; [|apply not_elem_of_nil|lia].
  split; [apply search_inv_init, Hs|]. split; [apply level_inv_init|].
  split; [apply new_table_full|]. simpl.
  split; [|split; [apply full_table_insert, new_table_full|split; [|split]]].
  - intros p Hp. rewrite (new_table_in_bounds grid false p Hp). simpl.
    split; [discriminate|]. intros H. apply elem_of_nil in H as [].
  - intros p Hp Hnin. rewrite lookup_insert_ne.
    + apply new_table_in_bounds, Hp.
    + intros ->. apply Hnin. left.
  - intros p Hp. apply list_elem_of_singleton in Hp as ->.
    exists 0%nat. split; [apply lookup_insert_eq|apply distance_self].
  - intros x Hx. apply list_elem_of_singleton in Hx as ->. apply lookup_insert_eq.
Qed.
End Dijkstra.

(** ** astar *)

Section Astar.
Context (grid : Grid) (Hgrid : valid_grid grid) (s : Coord).

(** Taking the head of the open set. *)
Lemma astar_inv_pop vis x q closed g f prev :
  astar_inv grid s (mkAstar vis (x :: q) closed g f prev) [] →
  astar_inv grid s (mkAstar (vis ++ [val x]) q ({[val x]} ∪ closed) g f prev)
    (getNeighbors (row (val x)) (col (val x)) grid).
Proof.
  intros (Hinv & Hcl & Hfg & Hff & Hinf & Hfin). simpl in *.
  split; [|split; [|split; [|split; [|split]]]]; simpl; try assumption.
  - apply (search_inv_pop grid s vis (val x :: (val <$> q))); [reflexivity|exact Hinv].
  - intros p. rewrite elem_of_union, elem_of_singleton, elem_of_app,
      list_elem_of_singleton, Hcl. tauto.
  - intros p Hp Hnin. apply Hinf; [exact Hp|]. rewrite <- app_assoc in Hnin. exact Hnin.
  - intros p Hp. apply Hfin. rewrite <- app_assoc in Hp. exact Hp.
Qed.

Context (e : Coord).

Lemma astar_neighbor_inv (c n : Coord) (pending : list Coord) (st : AstarState) :
  astar_inv grid s st (n :: pending) →
  last (as_visitedNodesInOrder st) = Some c →
  adjacent c n → in_bounds grid n →
  ∃ st', astar_neighbor grid e c st n = Ret st'
         ∧ astar_inv grid s st' pending
         ∧ as_visitedNodesInOrder st' = as_visitedNodesInOrder st
         ∧ as_closedSet st' = as_closedSet st.
Proof using Hgrid.
  intros (Hinv & Hcl & Hfg & Hff & Hinf & Hfin) Hlast Hadj Hn.
  destruct st as [vis q closed g f prev]; simpl in *.
  assert (Hskip : (step grid c n → n ∈ vis ++ (val <$> q)) →
    astar_inv grid s (mkAstar vis q closed g f prev) pending).
  { intros Hs. split; [|split; [|split; [|split; [|split]]]]; try assumption.
    simpl. eapply search_inv_skip; [|exact Hinv]. rewrite Hlast. exact Hs. }
  unfold astar_neighbor; simpl.
  case_bool_decide as Hnc.
  { eexists. split; [reflexivity|]. split; [|split; reflexivity].
    apply Hskip. intros _. apply elem_of_app. left. apply Hcl, Hnc. }
  assert (Hnv : n ∉ vis) by (intros Hin; apply Hnc, Hcl, Hin).
  destruct (cell_isWall_in_bounds grid Hgrid n Hn) as [w Hw]. rewrite Hw. simpl.
  destruct w.
  { eexists. split; [reflexivity|]. split; [|split; reflexivity].
    apply Hskip. intros (_ & _ & Hfree). congruence. }
  assert (Hstep : step grid c n) by (split; [|split]; assumption).
  pose proof (last_elem_of _ _ Hlast) as Hcv.
  assert (Hcb : in_bounds grid c).
  { eapply si_bounds; [exact Hinv|]. apply elem_of_app. auto. }
  destruct (Hfin c) as (zc & Hzc); [apply elem_of_app; auto|].
  rewrite (full_table_tget grid g c Hfg Hcb), Hzc.
  rewrite (full_table_tget grid g n Hfg Hn).
  cbn [mbind outcome_bind num_add].
  pose proof (prev_full grid s _ _ _ _ Hinv) as Hfp.
  assert (Hndq : NoDup (val <$> q)).
  { apply si_nodup, NoDup_app in Hinv. tauto. }
  destruct (num_lt (Fin (zc + 1)) (t_cells g !! n)) eqn:Hlt.
  2:{ eexists. split; [reflexivity|]. split; [|split; reflexivity].
      apply Hskip. intros _.
      destruct (decide (n ∈ vis ++ (val <$> q))) as [|Hnin]; [assumption|].
      rewrite (Hinf n Hn Hnin) in Hlt. discriminate. }
  rewrite (full_table_tset grid prev n (Some c) Hfp Hn). simpl.
  rewrite (full_table_tset grid g n _ Hfg Hn). simpl.
  rewrite tget_Ret by (simpl; destruct Hfg as [-> _]; apply Hn). simpl.
  rewrite lookup_insert_eq. simpl.
  rewrite (full_table_tset grid f n _ Hff Hn). simpl.
  eexists. split; [reflexivity|]. split; [|split; reflexivity].
  assert (Hg' : ∀ p, in_bounds grid p →
    p ∉ vis ++ (val <$> q) → p ≠ n → <[n:=Fin (zc + 1)]> (t_cells g) !! p = Some Infinity).
  { intros p Hp Hnin Hne. rewrite lookup_insert_ne by done. auto. }
  assert (Hg'' : ∀ p, p = n ∨ p ∈ vis ++ (val <$> q) →
    ∃ z, <[n:=Fin (zc + 1)]> (t_cells g) !! p = Some (Fin z)).
  { intros p Hp. rewrite lookup_insert. case_decide; [eauto|].
    destruct Hp as [|Hp]; [congruence|auto]. }
  destruct (hasNode (row n) (col n) q) eqn:Hhas.
  - apply hasNode_spec in Hhas.
    split; [|split; [|split; [|split; [|split]]]]; simpl;
      try assumption; try (apply full_table_insert; assumption).
    + eapply search_inv_link; eauto. intros p. split; [auto|].
      intros [->|]; assumption.
    + intros p Hp Hnin. apply Hg'; auto. intros ->. apply Hnin, elem_of_app. auto.
    + intros p Hp. apply Hg''. auto.
  - apply hasNode_false in Hhas.
    split; [|split; [|split; [|split; [|split]]]]; simpl;
      try assumption; try (apply full_table_insert; assumption).
    + eapply search_inv_link; eauto.
      * intros p. apply enqueue_vals_elem.
      * apply enqueue_vals_nodup; assumption.
    + intros p Hp Hnin. rewrite elem_of_app, enqueue_vals_elem in Hnin.
      apply Hg'; [exact Hp| |tauto]. rewrite elem_of_app. tauto.
    + intros p Hp. apply Hg''. rewrite elem_of_app, enqueue_vals_elem in Hp.
      rewrite elem_of_app. tauto.
Qed.

Lemma astar_neighbors_inv (c : Coord) (st : AstarState) :
  astar_inv grid s st (getNeighbors (row c) (col c) grid) →
  last (as_visitedNodesInOrder st) = Some c →
  ∃ st', for_of (astar_neighbor grid e c)
           (getNeighbors (row c) (col c) grid) st = Ret st'
         ∧ astar_inv grid s st' []
         ∧ as_visitedNodesInOrder st' = as_visitedNodesInOrder st.
Proof using Hgrid.
  intros Hinv Hlast.
  pose (I := λ (pending : list Coord) (st' : AstarState),
    astar_inv grid s st' pending
    ∧ as_visitedNodesInOrder st' = as_visitedNodesInOrder st
    ∧ ∀ n, n ∈ pending → adjacent c n ∧ in_bounds grid n).
  destruct (for_of_inv (astar_neighbor grid e c) I) with
    (xs := getNeighbors (row c) (col c) grid) (s := st) as (st' & Hrun & Hst' & Heq & _).
  - intros n rest st0 (Hst0 & Heq & Hnb).
    destruct (Hnb n) as [Hadj Hn]; [left|].
    destruct (astar_neighbor_inv c n rest st0 Hst0) as (st1 & Hr & Hst1 & Heq1 & _);
      [congruence|assumption..|].
    exists st1. split; [exact Hr|]. split; [exact Hst1|]. split; [congruence|].
    intros m Hm. apply Hnb. right. exact Hm.
  - split; [exact Hinv|]. split; [reflexivity|].
    intros n Hn. apply getNeighbors_spec. exact Hn.
  - eauto.
Qed.

Lemma astar_loop_final (fuel : nat) :
  ∀ st, astar_inv grid s st [] →
  e ∉ as_visitedNodesInOrder st →
  (budget grid ≤ length (as_visitedNodesInOrder st) + fuel)%nat →
  ∃ st', astar_loop fuel grid e st = Ret st'
         ∧ search_final grid s e (as_visitedNodesInOrder st') (as_previousNodes st').
Proof using Hgrid.
  induction fuel as [|fuel IH]; intros st Hst He Hfuel.
  { destruct Hst as (Hinv & _).
    pose proof (search_inv_vis_length grid s _ _ _ _ Hinv) as Hlen.
    rewrite length_app in Hlen. lia. }
  destruct st as [vis q closed g f prev]; simpl in *.
  destruct q as [|x q]; simpl.
  { eexists. split; [reflexivity|]. simpl.
    exists [], []. split; [apply Hst|]. right. done. }
  pose proof (astar_inv_pop _ _ _ _ _ _ _ Hst) as Hpop.
  destruct (same_coord (val x) e) eqn:Hce.
  { apply same_coord_true in Hce.
    eexists. split; [reflexivity|]. simpl.
    eexists _, _. split; [apply Hpop|]. left. rewrite <- Hce. apply last_snoc. }
  apply same_coord_false in Hce.
  destruct (astar_neighbors_inv (val x) _ Hpop) as (st2 & Hrun & Hst2 & Heq).
  { apply last_snoc. }
  rewrite Hrun. simpl. simpl in Heq.
  apply IH; [exact Hst2| |].
  - rewrite Heq. intros Hin. apply elem_of_app in Hin as [Hin|Hin]; [done|].
    apply list_elem_of_singleton in Hin. congruence.
  - rewrite Heq, length_app. simpl. lia.
Qed.

Lemma astar_init_inv :
  in_bounds grid s →
  ∃ st, astar_init grid s e = Ret st ∧ astar_inv grid s st []
        ∧ as_visitedNodesInOrder st = [].
Proof.
  intros Hs. unfold astar_init.
  rewrite (full_table_tset grid _ s (Fin 0) (new_table_full grid Infinity) Hs).
  simpl.
  rewrite (full_table_tset grid _ s _ (new_table_full grid Infinity) Hs).
  simpl. eexists. split; [reflexivity|]. split; [|reflexivity].
  split; [apply search_inv_init, Hs|]. simpl.
  split; [|split; [|split; [|split]]]; try (apply full_table_insert, new_table_full).
  - intros p. rewrite elem_of_empty, elem_of_nil. tauto.
  - intros p Hp Hnin. rewrite lookup_insert_ne.
    + apply new_table_in_bounds, Hp.
    + intros ->. apply Hnin. left.
  - intros p Hp. apply list_elem_of_singleton in Hp as ->.
    exists 0. apply lookup_insert_eq.
Qed.

Lemma astar_search_final (fuel : nat) :
  in_bounds grid s → (budget grid ≤ fuel)%nat →
  ∃ st, astar_search fuel grid s e = Ret st
        ∧ search_final grid s e (as_visitedNodesInOrder st) (as_previousNodes st).
Proof using Hgrid.
  intros Hs Hfuel. unfold astar_search.
  destruct (astar_init_inv Hs) as (st0 & -> & Hst0 & Hvis0). simpl.
  apply astar_loop_final; [exact Hst0| |].
  - rewrite Hvis0. apply not_elem_of_nil.
  - rewrite Hvis0. simpl. lia.
Qed.
End Astar.

(** ** greedy *)

Section Greedy.
Context (grid : Grid) (Hgrid : valid_grid grid) (s : Coord).

Lemma greedy_inv_pop vis x q closed prev :
  greedy_inv grid s (mkGreedy vis (x :: q) closed prev) [] →
  greedy_inv grid s (mkGreedy (vis ++ [val x]) q ({[val x]} ∪ closed) prev)
    (getNeighbors (row (val x)) (col (val x)) grid).
Proof.
  intros (Hinv & Hcl). simpl in *. split; simpl.
  - apply (search_inv_pop grid s vis (val x :: (val <$> q))); [reflexivity|exact Hinv].
  - intros p. rewrite elem_of_union, elem_of_singleton, elem_of_app,
      list_elem_of_singleton, Hcl. tauto.
Qed.

Lemma greedy_init_inv :
  in_bounds grid s → greedy_inv grid s (greedy_init grid s) [].
Proof.
  intros Hs. split; simpl; [apply search_inv_init, Hs|].
  intros p. rewrite elem_of_empty, elem_of_nil. tauto.
Qed.

Context (e : Coord).

Lemma greedy_neighbor_inv (c n : Coord) (pending : list Coord) (st : GreedyState) :
  greedy_inv grid s st (n :: pending) →
  last (gr_visitedNodesInOrder st) = Some c →
  adjacent c n → in_bounds grid n →
  ∃ st', greedy_neighbor grid e c st n = Ret st'
         ∧ greedy_inv grid s st' pending
         ∧ gr_visitedNodesInOrder st' = gr_visitedNodesInOrder st
         ∧ gr_closedSet st' = gr_closedSet st.
Proof using Hgrid.
  intros (Hinv & Hcl) Hlast Hadj Hn.
  destruct st as [vis q closed prev]; simpl in *.
  assert (Hskip : (step grid c n → n ∈ vis ++ (val <$> q)) →
    greedy_inv grid s (mkGreedy vis q closed prev) pending).
  { intros Hs. split; [|assumption].
    simpl. eapply search_inv_skip; [|exact Hinv]. rewrite Hlast. exact Hs. }
  unfold greedy_neighbor; simpl.
  case_bool_decide as Hnc.
  { eexists. split; [reflexivity|]. split; [|split; reflexivity].
    apply Hskip. intros _. apply elem_of_app. left. apply Hcl, Hnc. }
  assert (Hnv : n ∉ vis) by (intros Hin; apply Hnc, Hcl, Hin).
  destruct (cell_isWall_in_bounds grid Hgrid n Hn) as [w Hw]. rewrite Hw. simpl.
  destruct w.
  { eexists. split; [reflexivity|]. split; [|split; reflexivity].
    apply Hskip. intros (_ & _ & Hfree). congruence. }
  assert (Hstep : step grid c n) by (split; [|split]; assumption).
  pose proof (prev_full grid s _ _ _ _ Hinv) as Hfp.
  assert (Hndq : NoDup (val <$> q)).
  { apply si_nodup, NoDup_app in Hinv. tauto. }
  rewrite (full_table_tset grid prev n (Some c) Hfp Hn). simpl.
  eexists. split; [reflexivity|]. split; [|split; reflexivity].
  split; [|assumption]. simpl.
  destruct (hasNode (row n) (col n) q) eqn:Hhas.
  - apply hasNode_spec in Hhas.
    eapply search_inv_link; eauto. intros p. split; [auto|].
    intros [->|]; assumption.
  - apply hasNode_false in Hhas.
    eapply search_inv_link; eauto.
    + intros p. apply enqueue_vals_elem.
    + apply enqueue_vals_nodup; assumption.
Qed.

Lemma greedy_neighbors_inv (c : Coord) (st : GreedyState) :
  greedy_inv grid s st (getNeighbors (row c) (col c) grid) →
  last (gr_visitedNodesInOrder st) = Some c →
  ∃ st', for_of (greedy_neighbor grid e c)
           (getNeighbors (row c) (col c) grid) st = Ret st'
         ∧ greedy_inv grid s st' []
         ∧ gr_visitedNodesInOrder st' = gr_visitedNodesInOrder st.
Proof using Hgrid.
  intros Hinv Hlast.
  pose (I := λ (pending : list Coord) (st' : GreedyState),
    greedy_inv grid s st' pending
    ∧ gr_visitedNodesInOrder st' = gr_visitedNodesInOrder st
    ∧ ∀ n, n ∈ pending → adjacent c n ∧ in_bounds grid n).
  destruct (for_of_inv (greedy_neighbor grid e c) I) with
    (xs := getNeighbors (row c) (col c) grid) (s := st) as (st' & Hrun & Hst' & Heq & _).
  - intros n rest st0 (Hst0 & Heq & Hnb).
    destruct (Hnb n) as [Hadj Hn]; [left|].
    destruct (greedy_neighbor_inv c n rest st0 Hst0) as (st1 & Hr & Hst1 & Heq1 & _);
      [congruence|assumption..|].
    exists st1. split; [exact Hr|]. split; [exact Hst1|]. split; [congruence|].
    intros m Hm. apply Hnb. right. exact Hm.
  - split; [exact Hinv|]. split; [reflexivity|].
    intros n Hn. apply getNeighbors_spec. exact Hn.
  - eauto.
Qed.

Lemma greedy_loop_final (fuel : nat) :
  ∀ st, greedy_inv grid s st [] →
  e ∉ gr_visitedNodesInOrder st →
  (budget grid ≤ length (gr_visitedNodesInOrder st) + fuel)%nat →
  ∃ st', greedy_loop fuel grid e st = Ret st'
         ∧ search_final grid s e (gr_visitedNodesInOrder st') (gr_previousNodes st').
Proof using Hgrid.
  induction fuel as [|fuel IH]; intros st Hst He Hfuel.
  { destruct Hst as (Hinv & _).
    pose proof (search_inv_vis_length grid s _ _ _ _ Hinv) as Hlen.
    rewrite length_app in Hlen. lia. }
  destruct st as [vis q closed prev]; simpl in *.
  destruct q as [|x q]; simpl.
  { eexists. split; [reflexivity|]. simpl.
    exists [], []. split; [apply Hst|]. right. done. }
  pose proof (greedy_inv_pop _ _ _ _ _ Hst) as Hpop.
  destruct (same_coord (val x) e) eqn:Hce.
  { apply same_coord_true in Hce.
    eexists. split; [reflexivity|]. simpl.
    eexists _, _. split; [apply Hpop|]. left. rewrite <- Hce. apply last_snoc. }
  apply same_coord_false in Hce.
  destruct (greedy_neighbors_inv (val x) _ Hpop) as (st2 & Hrun & Hst2 & Heq).
  { apply last_snoc. }
  rewrite Hrun. simpl. simpl in Heq.
  apply IH; [exact Hst2| |].
  - rewrite Heq. intros Hin. apply elem_of_app in Hin as [Hin|Hin]; [done|].
    apply list_elem_of_singleton in Hin. congruence.
  - rewrite Heq, length_app. simpl. lia.
Qed.

Lemma greedy_search_final (fuel : nat) :
  in_bounds grid s → (budget grid ≤ fuel)%nat →
  ∃ st, greedy_search fuel grid s e = Ret st
        ∧ search_final grid s e (gr_visitedNodesInOrder st) (gr_previousNodes st).
Proof using Hgrid.
  intros Hs Hfuel. unfold greedy_search.
  apply greedy_loop_final; [apply greedy_init_inv, Hs|apply not_elem_of_nil|simpl; lia].
Qed.
End Greedy.

(** * Runs on valid input *)

Lemma rejects_valid (grid : Grid) (s e : Coord) :
  valid_grid grid → rejects (Some grid) (Some s) (Some e) = false.
Proof.
  intros (Hrows & Hcols & _). unfold rejects, grid_cols in *.
  destruct grid as [|r0 g]; simpl in *; [lia|].
  destruct r0; simpl in *; [lia|]. reflexivity.
Qed.

Lemma run_valid (a : Algorithm) (grid : Grid) (s e : Coord) :
  valid_grid grid →
  run a (Some grid) (Some s) (Some e)
  = match a with
    | Dijkstra => dijkstra_run (budget grid) grid s e
    | Bfs => frontier_run Fifo (budget grid) grid s e
    | Dfs => frontier_run Lifo (budget grid) grid s e
    | Astar => astar_run (budget grid) grid s e
    | Greedy => greedy_run (budget grid) grid s e
    end.
Proof.
  intros Hgrid. destruct a; unfold run, dijkstra, bfs, dfs, astar, greedy;
    cbv beta iota; rewrite (rejects_valid grid s e Hgrid); reflexivity.
Qed.

Section Runs.
Context (grid : Grid) (Hgrid : valid_grid grid) (s e : Coord).
Context (Hs : in_bounds grid s) (He : in_bounds grid e).

Lemma search_final_of (a : Algorithm) (fuel : nat) :
  (budget grid ≤ fuel)%nat →
  ∃ vis prev, search a fuel grid s e = Ret (vis, prev)
              ∧ search_final grid s e vis prev.
Proof using Hgrid Hs.
  intros Hfuel. destruct a; simpl.
  - destruct (dijkstra_search_final grid Hgrid s e fuel Hs Hfuel) as (st & -> & Hf & _).
    simpl. eauto.
  - destruct (frontier_search_final grid Hgrid s Fifo e fuel Hs Hfuel) as (st & -> & Hf & _).
    simpl. eauto.
  - destruct (frontier_search_final grid Hgrid s Lifo e fuel Hs Hfuel) as (st & -> & Hf & _).
    simpl. eauto.
  - destruct (astar_search_final grid Hgrid s e fuel Hs Hfuel) as (st & -> & Hf).
    simpl. eauto.
  - destruct (greedy_search_final grid Hgrid s e fuel Hs Hfuel) as (st & -> & Hf).
    simpl. eauto.
Qed.

(** The path read off a final predecessor table. *)
Lemma final_path (vis : list Coord) (prev : Table (option Coord)) (fuel : nat) :
  search_final grid s e vis prev → (length vis < fuel)%nat →
  ∃ path, getNodesInShortestPathOrder fuel prev e = Ret path
          ∧ ((path = [] ∧ t_cells prev !! e = Some None ∧ (e = s ∨ e ∉ vis))
             ∨ (∃ l q, path = s :: l ∧ t_cells prev !! e = Some (Some q)
                       ∧ prev_chain prev s (l ++ [e]) e
                       ∧ route grid s (l ++ [e]) e ∧ (e ∉ s :: l)
                       ∧ last vis = Some e)).
Proof using He.
  intros Hfin Hfuel.
  pose proof Hfin as (fr & pending & Hinv & Hend).
  destruct (si_total _ _ _ _ _ _ Hinv e He) as [[q|] Hq].
  - destruct (final_path_found grid s e He vis prev Hfin fuel q Hq Hfuel)
      as (l & Hp & Hc & Hr & Hn).
    exists (s :: l). split; [exact Hp|]. right. exists l, q.
    split; [reflexivity|]. repeat (split; [assumption|]).
    apply (final_last grid s e vis prev Hfin).
    destruct (si_prev_edge _ _ _ _ _ _ Hinv e q Hq) as (_ & Hin & _).
    destruct Hend as [Hl|(-> & _ & Hn')]; [eapply last_elem_of, Hl|].
    rewrite app_nil_r in Hin. exact Hin.
  - exists []. split.
    + eapply path_of_unset; eauto.
    + left. split; [reflexivity|]. split; [exact Hq|].
      destruct (decide (e = s)) as [|Hne]; [auto|]. right. intros Hin.
      destruct (si_prev_some _ _ _ _ _ _ Hinv e) as [q' Hq']; [|exact Hne|congruence].
      apply elem_of_app. auto.
Qed.

(** Every search returns, with the visited order of its final state and
    the path read off its final predecessor table. *)
Lemma run_returns (a : Algorithm) :
  ∃ vis prev path r,
    search a (budget grid) grid s e = Ret (vis, prev)
    ∧ search_final grid s e vis prev
    ∧ getNodesInShortestPathOrder (budget grid) prev e = Ret path
    ∧ run a (Some grid) (Some s) (Some e) = Ret r
    ∧ visitedNodesInOrder r = vis ∧ shortestPath r = path.
Proof using Hgrid Hs He.
  destruct (search_final_of a (budget grid)) as (vis & prev & Hsearch & Hfin); [lia|].
  pose proof (final_length grid s e vis prev Hfin) as Hlen.
  destruct (final_path vis prev (budget grid) Hfin Hlen) as (path & Hpath & _).
  exists vis, prev, path.
  assert (Hrun : ∃ r, run a (Some grid) (Some s) (Some e) = Ret r
                      ∧ visitedNodesInOrder r = vis ∧ shortestPath r = path).
  { rewrite (run_valid a grid s e Hgrid).
    destruct a; simpl in Hsearch;
      unfold dijkstra_run, frontier_run, astar_run, greedy_run;
      [destruct (dijkstra_search _ _ _ _) as [st| |]
      |destruct (frontier_search _ _ _ _ _) as [st| |]
      |destruct (frontier_search _ _ _ _ _) as [st| |]
      |destruct (astar_search _ _ _ _) as [st| |]
      |destruct (greedy_search _ _ _ _) as [st| |]];
      simpl in Hsearch; try discriminate;
      injection Hsearch as <- <-; simpl; rewrite Hpath; simpl;
      eexists; (split; [reflexivity|split; reflexivity]). }
  destruct Hrun as (r & Hr1 & Hr2 & Hr3). exists r. auto 10.
Qed.
End Runs.

(** * The claims of the specification *)

Lemma valid_gridb_ok (grid : Grid) : valid_gridb grid = true → valid_grid grid.
Proof.
  unfold valid_gridb, valid_grid. rewrite !andb_true_iff, !bool_decide_eq_true.
  intros [[H1 H2] H3]. split; [exact H1|]. split; [exact H2|].
  intros r Hr. rewrite forallb_forall in H3.
  apply list_elem_of_In, H3 in Hr. apply bool_decide_eq_true in Hr. exact Hr.
Qed.

Lemma prev_chain_unique (prev : Table (option Coord)) (s q : Coord) (l1 l2 : list Coord) :
  t_cells prev !! s = Some None →
  prev_chain prev s l1 q → prev_chain prev s l2 q → l1 = l2.
Proof.
  intros Hs H1. revert l2. induction H1 as [|l q1 p H1 IH Hp]; intros l2 H2.
  - inversion H2 as [|l' q2 p' _ Hp' Heq]; [reflexivity|]. subst. congruence.
  - inversion H2 as [Heq|l' q2 p' H2' Hp' Heq]; subst.
    + congruence.
    + rewrite Hp in Hp'. injection Hp' as <-. f_equal. apply IH, H2'.
Qed.

Lemma prev_chain_last (prev : Table (option Coord)) (s q : Coord) (l : list Coord) :
  prev_chain prev s l q → last (s :: l) = Some q.
Proof.
  intros H. destruct H as [|l q p _ _]; [reflexivity|].
  rewrite app_comm_cons. apply last_snoc.
Qed.

(** A cell not visited by a completed search cannot be reached. *)
Lemma unreachable_by_search (a : Algorithm) (grid : Grid) (s e : Coord)
    (vis : list Coord) (prev : Table (option Coord)) :
  valid_grid grid → in_bounds grid s →
  search a (budget grid) grid s e = Ret (vis, prev) → e ∉ vis →
  ¬ reachable grid s e.
Proof.
  intros Hgrid Hs Hsearch Hn Hr.
  destruct (search_final_of grid Hgrid s e Hs a (budget grid)) as (vis' & prev' & Hs' & Hfin);
    [lia|].
  rewrite Hsearch in Hs'. injection Hs' as <- <-.
  apply Hn. eapply final_found; eauto.
Qed.

Section Claims.
Context (a : Algorithm) (grid : Grid) (s e : Coord).
Context (Hgrid : valid_grid grid) (Hs : in_bounds grid s) (He : in_bounds grid e).

Lemma run_unreachable :
  ¬ reachable grid s e →
  ∃ r, run a (Some grid) (Some s) (Some e) = Ret r
       ∧ shortestPath r = []
       ∧ visitedNodesInOrder r ≠ []
       ∧ NoDup (visitedNodesInOrder r)
       ∧ ∀ p, p ∈ visitedNodesInOrder r → reachable grid s p.
Proof using Hgrid Hs He.
  intros Hnr.
  destruct (run_returns grid Hgrid s e Hs He a)
    as (vis & prev & path & r & Hsearch & Hfin & Hpath & Hrun & Hv & Hp).
  exists r. split; [exact Hrun|]. rewrite Hv, Hp.
  rewrite (final_path_empty grid s e He vis prev Hfin (budget grid)) in Hpath by auto.
  injection Hpath as <-. split; [reflexivity|].
  split; [|split; [eapply final_nodup; eauto|intros p; eapply final_reachable; eauto]].
  intros ->. eapply elem_of_nil, final_start, Hfin.
Qed.
End Claims.

(** C10: on a valid grid with in-bounds start and end, every search
    returns a visited order without repetition, hence of length at most
    rows times columns. *)
Theorem visited_once (a : Algorithm) (grid : Grid) (s e : Coord) :
  valid_grid grid → in_bounds grid s → in_bounds grid e →
  ∃ r, run a (Some grid) (Some s) (Some e) = Ret r
       ∧ NoDup (visitedNodesInOrder r)
       ∧ (length (visitedNodesInOrder r)
          ≤ length grid * Z.to_nat (grid_cols grid))%nat.
Proof.
  intros Hgrid Hs He.
  destruct (run_returns grid Hgrid s e Hs He a)
    as (vis & prev & path & r & Hsearch & Hfin & Hpath & Hrun & Hv & Hp).
  exists r. split; [exact Hrun|]. rewrite Hv. split.
  - eapply final_nodup, Hfin.
  - pose proof (final_length grid s e vis prev Hfin) as Hlen.
    unfold budget in Hlen. apply Nat.lt_succ_r, Hlen.
Qed.

Lemma visited_once_witness :
  ∃ r, run Astar (Some open_3x3) (Some (0, 0)) (Some (2, 2)) = Ret r
       ∧ NoDup (visitedNodesInOrder r)
       ∧ (length (visitedNodesInOrder r)
          ≤ length open_3x3 * Z.to_nat (grid_cols open_3x3))%nat.
Proof.
  apply (visited_once Astar open_3x3 (0, 0) (2, 2)).
  - apply valid_gridb_ok. reflexivity.
  - apply isValidPosition_spec. reflexivity.
  - apply isValidPosition_spec. reflexivity.
Defined.

(** C7: when the end cannot be reached from the start, every search
    returns an empty path and a non-empty visited order; the visited
    cells are distinct cells reachable from the start, so there are at
    most as many of them as any enumeration of the reachable region has. *)
Theorem unreachable_end (a : Algorithm) (grid : Grid) (s e : Coord) :
  valid_grid grid → in_bounds grid s → in_bounds grid e →
  ¬ reachable grid s e →
  ∃ r, run a (Some grid) (Some s) (Some e) = Ret r
       ∧ shortestPath r = []
       ∧ visitedNodesInOrder r ≠ []
       ∧ (∀ p, p ∈ visitedNodesInOrder r → reachable grid s p)
       ∧ ∀ region : list Coord,
           (∀ p, reachable grid s p → p ∈ region) →
           (length (visitedNodesInOrder r) ≤ length region)%nat.
Proof.
  intros Hgrid Hs He Hnr.
  destruct (run_unreachable a grid s e Hgrid Hs He Hnr)
    as (r & Hrun & Hp & Hne & Hnd & Hreach).
  exists r. repeat (split; [assumption|]).
  intros region Hregion. apply submseteq_length, NoDup_submseteq; [exact Hnd|].
  intros p Hp'. auto.
Qed.

Lemma unreachable_end_witness :
  ∃ r, run Greedy (Some blocked_corridor) (Some (0, 0)) (Some (0, 2)) = Ret r
       ∧ shortestPath r = []
       ∧ visitedNodesInOrder r ≠ []
       ∧ (∀ p, p ∈ visitedNodesInOrder r → reachable blocked_corridor (0, 0) p)
       ∧ ∀ region : list Coord,
           (∀ p, reachable blocked_corridor (0, 0) p → p ∈ region) →
           (length (visitedNodesInOrder r) ≤ length region)%nat.
Proof.
  apply (unreachable_end Greedy blocked_corridor (0, 0) (0, 2)).
  - apply valid_gridb_ok. reflexivity.
  - apply isValidPosition_spec. reflexivity.
  - apply isValidPosition_spec. reflexivity.
  - apply (unreachable_by_search Bfs blocked_corridor (0, 0) (0, 2) [(0, 0)]
             (mkTable 1 (gset_to_gmap None (list_to_set (cells_of 1 3))))).
    + apply valid_gridb_ok. reflexivity.
    + apply isValidPosition_spec. reflexivity.
    + vm_compute. reflexivity.
    + apply (bool_decide_unpack _). vm_compute. exact I.
Defined.

Lemma search_inv_first (grid : Grid) (s p : Coord) (vis fr pending : list Coord)
    (prev : Table (option Coord)) :
  search_inv grid s vis fr pending prev → vis !! 0%nat = Some p → p = s.
Proof.
  intros Hinv Hp. destruct (decide (p = s)) as [|Hne]; [assumption|].
  destruct (si_prev_some _ _ _ _ _ _ Hinv p) as [q Hq]; [|exact Hne|].
  { apply elem_of_app. left. eapply list_elem_of_lookup_2, Hp. }
  destruct (si_prev_edge _ _ _ _ _ _ Hinv p q Hq) as (_ & _ & i & _ & Hlt).
  specialize (Hlt 0%nat Hp). lia.
Qed.

Lemma final_start_is_end (grid : Grid) (s : Coord) (vis : list Coord)
    (prev : Table (option Coord)) :
  search_final grid s s vis prev → vis = [s].
Proof.
  intros Hfin. pose proof (final_start grid s s vis prev Hfin) as Hin.
  pose proof (final_last grid s s vis prev Hfin Hin) as Hlast.
  pose proof (final_nodup grid s s vis prev Hfin) as Hnd.
  destruct Hfin as (fr & pending & Hinv & _).
  destruct vis as [|p vis]; [discriminate|].
  rewrite (search_inv_first grid s p _ _ _ _ Hinv eq_refl) in *.
  destruct vis as [|p' vis]; [reflexivity|]. exfalso.
  apply NoDup_cons in Hnd as [Hn _]. apply Hn.
  apply (last_elem_of (p' :: vis) s). exact Hlast.
Qed.

(** C8: when start and end coincide, every search visits the start alone
    and returns the empty path, which is also the path it returns from
    any input whose end cannot be reached. *)
Theorem start_equals_end (a : Algorithm) (grid : Grid) (s : Coord) :
  valid_grid grid → in_bounds grid s →
  ∃ r, run a (Some grid) (Some s) (Some s) = Ret r
       ∧ visitedNodesInOrder r = [s]
       ∧ shortestPath r = []
       ∧ ∀ grid' s' e',
           valid_grid grid' → in_bounds grid' s' → in_bounds grid' e' →
           ¬ reachable grid' s' e' →
           ∃ r', run a (Some grid') (Some s') (Some e') = Ret r'
                 ∧ shortestPath r' = shortestPath r.
Proof.
  intros Hgrid Hs.
  destruct (run_returns grid Hgrid s s Hs Hs a)
    as (vis & prev & path & r & Hsearch & Hfin & Hpath & Hrun & Hv & Hp).
  exists r. split; [exact Hrun|]. rewrite Hv, Hp.
  rewrite (final_path_empty grid s s Hs vis prev Hfin (budget grid)) in Hpath by auto.
  injection Hpath as <-.
  split; [apply (final_start_is_end grid s vis prev Hfin)|]. split; [reflexivity|].
  intros grid' s' e' Hgrid' Hs' He' Hnr.
  destruct (run_unreachable a grid' s' e' Hgrid' Hs' He' Hnr) as (r' & Hrun' & Hp' & _).
  eauto.
Qed.

Lemma start_equals_end_witness :
  ∃ r, run Dfs (Some open_3x3) (Some (1, 1)) (Some (1, 1)) = Ret r
       ∧ visitedNodesInOrder r = [(1, 1)]
       ∧ shortestPath r = []
       ∧ ∀ grid' s' e',
           valid_grid grid' → in_bounds grid' s' → in_bounds grid' e' →
           ¬ reachable grid' s' e' →
           ∃ r', run Dfs (Some grid') (Some s') (Some e') = Ret r'
                 ∧ shortestPath r' = shortestPath r.
Proof.
  apply (start_equals_end Dfs open_3x3 (1, 1)).
  - apply valid_gridb_ok. reflexivity.
  - apply isValidPosition_spec. reflexivity.
Defined.

(** C9: the predecessor table with which any search ends has no cycle,
    and the backward walk from the end returns within the iteration
    budget of one more than the number of cells (and returns the same path
    under any larger budget). *)
Theorem backward_walk_terminates (a : Algorithm) (grid : Grid) (s e : Coord) :
  valid_grid grid → in_bounds grid s → in_bounds grid e →
  ∃ vis prev path,
    search a (budget grid) grid s e = Ret (vis, prev)
    ∧ acyclic prev
    ∧ ∀ fuel, (budget grid ≤ fuel)%nat →
        getNodesInShortestPathOrder fuel prev e = Ret path.
Proof.
  intros Hgrid Hs He.
  destruct (search_final_of grid Hgrid s e Hs a (budget grid))
    as (vis & prev & Hsearch & Hfin); [lia|].
  pose proof (final_length grid s e vis prev Hfin) as Hlen.
  destruct (final_path grid s e He vis prev (budget grid) Hfin Hlen)
    as (path & Hpath & Hshape).
  exists vis, prev, path. split; [exact Hsearch|].
  split; [eapply final_acyclic, Hfin|].
  intros fuel Hfuel.
  destruct (final_path grid s e He vis prev fuel Hfin) as (path' & Hpath' & Hshape');
    [lia|].
  rewrite Hpath'. f_equal.
  destruct Hshape as [(-> & Hq & _)|(l & q & -> & Hq & Hc & _)];
    destruct Hshape' as [(-> & Hq' & _)|(l' & q' & -> & Hq' & Hc' & _)];
    try congruence.
  f_equal. apply (app_inj_tail l' l e e).
  eapply prev_chain_unique; [|exact Hc'|exact Hc].
  destruct Hfin as (fr & pending & Hinv & _). eapply si_prev_start, Hinv.
Qed.

Lemma backward_walk_terminates_witness :
  ∃ vis prev path,
    search Greedy (budget open_3x3) open_3x3 (0, 0) (2, 2) = Ret (vis, prev)
    ∧ acyclic prev
    ∧ ∀ fuel, (budget open_3x3 ≤ fuel)%nat →
        getNodesInShortestPathOrder fuel prev (2, 2) = Ret path.
Proof.
  apply (backward_walk_terminates Greedy open_3x3 (0, 0) (2, 2)).
  - apply valid_gridb_ok. reflexivity.
  - apply isValidPosition_spec. reflexivity.
  - apply isValidPosition_spec. reflexivity.
Defined.

(** C3 (as stated it fails): bfs on a corridor of two cells finds the
    end, and the path it returns is the start alone: it contains the start
    and does not reach the end. *)
Lemma found_path_contains_start :
  ∃ vis prev r q,
    search Bfs (budget corridor) corridor (0, 0) (0, 1) = Ret (vis, prev)
    ∧ t_cells prev !! (0, 1) = Some (Some q)
    ∧ run Bfs (Some corridor) (Some (0, 0)) (Some (0, 1)) = Ret r
    ∧ shortestPath r = [(0, 0)]
    ∧ ¬ successor_to_end corridor (0, 0) (0, 1) (shortestPath r).
Proof.
  eexists _, _, _, _. split; [vm_compute; reflexivity|].
  split; [vm_compute; reflexivity|]. split; [vm_compute; reflexivity|].
  split; [reflexivity|]. intros [_ Hn]. apply Hn. simpl. left.
Qed.

(** C3 (amended): when a search ends with a predecessor set for the end,
    the path it returns starts with the start coordinate and follows the
    moves up to that predecessor: appending the end gives a route from
    start to end, and the end itself is not in the path. *)
Theorem found_path_shape (a : Algorithm) (grid : Grid) (s e : Coord) :
  valid_grid grid → in_bounds grid s → in_bounds grid e →
  ∃ vis prev r,
    search a (budget grid) grid s e = Ret (vis, prev)
    ∧ run a (Some grid) (Some s) (Some e) = Ret r
    ∧ visitedNodesInOrder r = vis
    ∧ ∀ q, t_cells prev !! e = Some (Some q) →
        start_to_predecessor grid s e (shortestPath r)
        ∧ last (shortestPath r) = Some q.
Proof.
  intros Hgrid Hs He.
  destruct (run_returns grid Hgrid s e Hs He a)
    as (vis & prev & path & r & Hsearch & Hfin & Hpath & Hrun & Hv & Hp).
  exists vis, prev, r. repeat (split; [assumption|]).
  intros q Hq. rewrite Hp.
  pose proof (final_length grid s e vis prev Hfin) as Hlen.
  destruct (final_path_found grid s e He vis prev Hfin (budget grid) q Hq Hlen)
    as (l & Hpath' & Hc & Hr & Hn).
  rewrite Hpath in Hpath'. injection Hpath' as ->.
  split; [exists l; auto|].
  inversion Hc as [Heq|l' q' p' Hc' Hq' Heq]; [destruct l; discriminate|].
  apply app_inj_tail in Heq as [-> ->].
  rewrite Hq in Hq'. injection Hq' as <-.
  eapply prev_chain_last, Hc'.
Qed.

Lemma found_path_shape_witness :
  ∃ vis prev r,
    search Bfs (budget corridor) corridor (0, 0) (0, 1) = Ret (vis, prev)
    ∧ run Bfs (Some corridor) (Some (0, 0)) (Some (0, 1)) = Ret r
    ∧ visitedNodesInOrder r = vis
    ∧ ∀ q, t_cells prev !! (0, 1) = Some (Some q) →
        start_to_predecessor corridor (0, 0) (0, 1) (shortestPath r)
        ∧ last (shortestPath r) = Some q.
Proof.
  apply (found_path_shape Bfs corridor (0, 0) (0, 1)).
  - apply valid_gridb_ok. reflexivity.
  - apply isValidPosition_spec. reflexivity.
  - apply isValidPosition_spec. reflexivity.
Defined.

(** C4 (as stated it fails): [dequeue] on the empty queue returns
    [undefined] and signals nothing. *)
Lemma dequeue_empty_returns :
  dequeue [] = Ret (None, []) ∧ dequeue [] ≠ Throws.
Proof. split; [reflexivity|discriminate]. Qed.

(** C4 (amended): [dequeue] on an empty queue returns [undefined] and
    leaves the queue empty; it does not fail. *)
Theorem dequeue_empty (q : PriorityQueue) :
  isEmpty q = true → dequeue q = Ret (None, []).
Proof. intros H. apply isEmpty_true in H as ->. reflexivity. Qed.

Lemma dequeue_empty_witness : dequeue [] = Ret (None, []).
Proof. apply (dequeue_empty []). reflexivity. Defined.

(** C5 (as stated it fails): a grid whose rows differ in length is
    malformed, yet it passes the validation and every search throws on it. *)
Lemma ragged_grid_throws :
  ¬ valid_grid ragged
  ∧ ∀ a, run a (Some ragged) (Some (0, 0)) (Some (1, 0)) = Throws.
Proof.
  split.
  - intros (_ & _ & Hrect). specialize (Hrect []). simpl in Hrect.
    assert (0 = 1); [|discriminate]. apply Hrect. right. left.
  - intros []; vm_compute; reflexivity.
Qed.

(** C5 (amended): when the grid is missing, has no row, or has an empty
    first row, or when start or end is missing, every search returns its
    empty result: empty visited order, empty path and, for dijkstra, empty
    distances. *)
Theorem unusable_input_empty (a : Algorithm) (grid : option Grid)
    (start end_ : option Coord) :
  unusable_input grid start end_ →
  run a grid start end_ = Ret (empty_of a).
Proof.
  intros H.
  assert (Hrej : rejects grid start end_ = true ∨ grid = None).
  { destruct H as [-> | [-> | [[g ->] | [-> | ->]]]]; simpl; auto;
      (destruct grid as [g|]; [left|auto]); simpl;
      (destruct (bool_decide _); simpl; [reflexivity|]);
      (destruct (g !! 0%nat) as [r0|]; simpl; [destruct (bool_decide _)|]);
      simpl; try reflexivity; destruct start; reflexivity. }
  destruct a; unfold run, dijkstra, bfs, dfs, astar, greedy, empty_of;
    destruct grid as [g|]; try reflexivity;
    destruct start as [s|]; try reflexivity;
    destruct end_ as [e|]; try reflexivity;
    (destruct Hrej as [->|]; [reflexivity|discriminate]).
Qed.

Lemma unusable_input_empty_witness :
  run Dijkstra (Some [[]]) (Some (0, 0)) (Some (0, 0)) = Ret (empty_of Dijkstra).
Proof.
  apply (unusable_input_empty Dijkstra (Some [[]]) (Some (0, 0)) (Some (0, 0))).
  right. right. left. exists []. reflexivity.
Defined.

(** ** Shortest paths: dijkstra and bfs *)

Section Shortest.
Context (grid : Grid) (Hgrid : valid_grid grid) (s e : Coord).
Context (Hs : in_bounds grid s) (He : in_bounds grid e).

(** With breadth-first levels the reconstructed path has the length of a
    shortest route, and is empty when there is no route. *)
Lemma leveled_path (vis fr : list Coord) (prev : Table (option Coord))
    (path : list Coord) :
  search_final grid s e vis prev → level_inv grid s vis fr prev →
  getNodesInShortestPathOrder (budget grid) prev e = Ret path →
  (reachable grid s e → distance grid s e (length path))
  ∧ (¬ reachable grid s e → path = []).
Proof using He.
  intros Hfin Hlev Hpath.
  pose proof (final_length grid s e vis prev Hfin) as Hlen.
  destruct (final_path grid s e He vis prev (budget grid) Hfin Hlen)
    as (path' & Hpath' & Hshape).
  rewrite Hpath in Hpath'. injection Hpath' as <-.
  destruct Hshape as [(-> & Hq & Hcase)|(l & q & -> & Hq & Hc & Hr & _)].
  - split; [|reflexivity]. intros Hreach.
    destruct Hcase as [->|Hn]; [apply distance_self|].
    exfalso. apply Hn. eapply final_found; eauto.
  - split.
    + intros _. replace (length (s :: l)) with (length (l ++ [e])).
      * eapply prev_chain_distance; eauto.
      * rewrite length_app. simpl. lia.
    + intros Hn. exfalso. apply Hn. exists (l ++ [e]). exact Hr.
Qed.

Lemma dijkstra_returns :
  ∃ st path,
    dijkstra_search (budget grid) grid s e = Ret st
    ∧ dijkstra_final grid s e st
    ∧ getNodesInShortestPathOrder (budget grid) (dj_previousNodes st) e = Ret path
    ∧ dijkstra (Some grid) (Some s) (Some e)
      = Ret (mkResult (dj_visitedNodesInOrder st) path (Some (dj_distances st))).
Proof using Hgrid Hs He.
  destruct (dijkstra_search_final grid Hgrid s e (budget grid) Hs) as (st & Hsearch & Hfin);
    [lia|].
  pose proof Hfin as (Hf & _).
  pose proof (final_length grid s e _ _ Hf) as Hlen.
  destruct (final_path grid s e He _ _ (budget grid) Hf Hlen) as (path & Hpath & _).
  exists st, path. repeat (split; [assumption|]).
  change (dijkstra (Some grid) (Some s) (Some e))
    with (run Dijkstra (Some grid) (Some s) (Some e)).
  rewrite (run_valid Dijkstra grid s e Hgrid). unfold dijkstra_run.
  rewrite Hsearch. simpl. rewrite Hpath. reflexivity.
Qed.

Lemma bfs_returns :
  ∃ st path fr,
    frontier_search Fifo (budget grid) grid s e = Ret st
    ∧ search_final grid s e (fr_visitedNodesInOrder st) (fr_previousNodes st)
    ∧ level_inv grid s (fr_visitedNodesInOrder st) fr (fr_previousNodes st)
    ∧ getNodesInShortestPathOrder (budget grid) (fr_previousNodes st) e = Ret path
    ∧ bfs (Some grid) (Some s) (Some e)
      = Ret (mkResult (fr_visitedNodesInOrder st) path None).
Proof using Hgrid Hs He.
  destruct (frontier_search_final grid Hgrid s Fifo e (budget grid) Hs)
    as (st & Hsearch & Hf & Hlev); [lia|].
  destruct (Hlev eq_refl) as [fr Hfr].
  pose proof (final_length grid s e _ _ Hf) as Hlen.
  destruct (final_path grid s e He _ _ (budget grid) Hf Hlen) as (path & Hpath & _).
  exists st, path, fr. repeat (split; [assumption|]).
  change (bfs (Some grid) (Some s) (Some e))
    with (run Bfs (Some grid) (Some s) (Some e)).
  rewrite (run_valid Bfs grid s e Hgrid). unfold frontier_run.
  rewrite Hsearch. simpl. rewrite Hpath. reflexivity.
Qed.
End Shortest.

(** C1: on every valid grid with in-bounds start and end, dijkstra and
    bfs both return; their paths have the same length; when the end can be
    reached that length is the length of a shortest route from start to
    end that enters no wall; and for every cell dijkstra visited, the
    entry of [distances] is the length of a shortest route to it. *)
Theorem dijkstra_bfs_minimal (grid : Grid) (s e : Coord) :
  valid_grid grid → in_bounds grid s → in_bounds grid e →
  ∃ rd rb,
    dijkstra (Some grid) (Some s) (Some e) = Ret rd
    ∧ bfs (Some grid) (Some s) (Some e) = Ret rb
    ∧ length (shortestPath rd) = length (shortestPath rb)
    ∧ (reachable grid s e → distance grid s e (length (shortestPath rd)))
    ∧ ∃ t, distances rd = Some t
           ∧ ∀ p, p ∈ visitedNodesInOrder rd →
               ∃ k, t_cells t !! p = Some (Fin (Z.of_nat k)) ∧ distance grid s p k.
Proof.
  intros Hgrid Hs He.
  destruct (dijkstra_returns grid Hgrid s e Hs He)
    as (std & pd & Hsd & (Hfd & [frd Hld] & Hdist) & Hpd & Hrd).
  destruct (bfs_returns grid Hgrid s e Hs He)
    as (stb & pb & frb & Hsb & Hfb & Hlb & Hpb & Hrb).
  destruct (leveled_path grid s e He _ _ _ _ Hfd Hld Hpd) as [Hd1 Hd2].
  destruct (leveled_path grid s e He _ _ _ _ Hfb Hlb Hpb) as [Hb1 Hb2].
  eexists _, _. split; [exact Hrd|]. split; [exact Hrb|]. simpl.
  split; [|split; [exact Hd1|eauto]].
  destruct (decide (e ∈ dj_visitedNodesInOrder std)) as [Hin|Hnin].
  - pose proof (final_reachable grid s e _ _ Hfd e Hin) as Hreach.
    eapply distance_unique; eauto.
  - assert (Hnr : ¬ reachable grid s e).
    { intros Hr. apply Hnin. exact (final_found grid s e _ _ Hfd Hr). }
    rewrite (Hd2 Hnr), (Hb2 Hnr). reflexivity.
Qed.

Lemma dijkstra_bfs_minimal_witness :
  ∃ rd rb,
    dijkstra (Some open_3x3) (Some (0, 0)) (Some (2, 1)) = Ret rd
    ∧ bfs (Some open_3x3) (Some (0, 0)) (Some (2, 1)) = Ret rb
    ∧ length (shortestPath rd) = length (shortestPath rb)
    ∧ (reachable open_3x3 (0, 0) (2, 1)
       → distance open_3x3 (0, 0) (2, 1) (length (shortestPath rd)))
    ∧ ∃ t, distances rd = Some t
           ∧ ∀ p, p ∈ visitedNodesInOrder rd →
               ∃ k, t_cells t !! p = Some (Fin (Z.of_nat k))
                    ∧ distance open_3x3 (0, 0) p k.
Proof.
  apply (dijkstra_bfs_minimal open_3x3 (0, 0) (2, 1)).
  - apply valid_gridb_ok. reflexivity.
  - apply isValidPosition_spec. reflexivity.
  - apply isValidPosition_spec. reflexivity.
Defined.

(** ** The stale priority of astar *)

Lemma astar_neighbor_improves (grid : Grid) (e c n : Coord) (st : AstarState)
    (gc : Z) (gn : num) :
  n ∉ as_closedSet st →
  cell_isWall grid n = Ret false →
  tget (as_gScore st) c = Ret (Some (Fin gc)) →
  tget (as_gScore st) n = Ret (Some gn) →
  num_lt (Fin (gc + 1)) (Some gn) = true →
  in_rows (as_previousNodes st) (row n) = true →
  in_rows (as_fScore st) (row n) = true →
  ∃ st', astar_neighbor grid e c st n = Ret st'
         ∧ as_openSet st'
           = (if hasNode (row n) (col n) (as_openSet st) then as_openSet st
              else enqueue n (Fin (gc + 1 + manhattanDistance n e)) (as_openSet st))
         ∧ t_cells (as_previousNodes st') !! n = Some (Some c)
         ∧ t_cells (as_gScore st') !! n = Some (Fin (gc + 1))
         ∧ t_cells (as_fScore st') !! n
           = Some (Fin (gc + 1 + manhattanDistance n e)).
Proof.
  intros Hcl Hw Hgc Hgn Hlt Hrp Hrf. unfold astar_neighbor.
  rewrite bool_decide_eq_false_2 by exact Hcl.
  rewrite Hw, Hgc, Hgn. cbn [mbind outcome_bind num_add]. rewrite Hlt.
  assert (Hrg : in_rows (as_gScore st) (row n) = true).
  { unfold tget in Hgn. destruct (in_rows _ _); [reflexivity|discriminate]. }
  rewrite (tset_in_rows _ n _ Hrp). cbn [mbind outcome_bind].
  rewrite (tset_in_rows _ n _ Hrg). cbn [mbind outcome_bind].
  rewrite tget_in_rows by exact Hrg. cbn [mbind outcome_bind t_cells].
  rewrite lookup_insert_eq. cbn [num_add].
  rewrite (tset_in_rows _ n _ Hrf). cbn [mbind outcome_bind].
  eexists. split; [reflexivity|]. cbn.
  rewrite !lookup_insert_eq. auto.
Qed.

Lemma detour_grid_valid : valid_grid detour_grid.
Proof. apply valid_gridb_ok. reflexivity. Qed.

(** On the detour grid a shortest route from (1,8) to (1,0) has 12 moves
    (the length of the path bfs returns). *)
Lemma detour_grid_distance : distance detour_grid (1, 8) (1, 0) 12.
Proof.
  assert (Hs : in_bounds detour_grid (1, 8)) by (apply isValidPosition_spec; reflexivity).
  assert (He : in_bounds detour_grid (1, 0)) by (apply isValidPosition_spec; reflexivity).
  destruct (bfs_returns detour_grid detour_grid_valid (1, 8) (1, 0) Hs He)
    as (st & path & fr & _ & Hfin & Hlev & Hpath & Hrun).
  destruct st as [vis front visited prev]. simpl in Hfin, Hlev, Hpath, Hrun.
  vm_compute in Hrun. injection Hrun as Hvis Hp.
  destruct (leveled_path detour_grid (1, 8) (1, 0) He _ _ _ _ Hfin Hlev Hpath) as [Hd _].
  rewrite <- Hp in Hd. apply Hd.
  apply (final_reachable detour_grid (1, 8) (1, 0) _ _ Hfin).
  rewrite <- Hvis. apply (bool_decide_unpack _). vm_compute. exact I.
Qed.

(** C6: when astar meets a neighbour whose tentative g-score improves,
    it rewrites the neighbour's predecessor, g-score and f-score, and if
    the neighbour is already in the open set the queue is left exactly as
    it was, old priority included.  The returned path is then not always
    minimal: on the detour grid astar returns a path of 14 moves where a
    shortest route has 12. *)
Theorem astar_stale_priority :
  (∀ (grid : Grid) (e c n : Coord) (st : AstarState) (gc : Z) (gn : num),
     n ∉ as_closedSet st →
     cell_isWall grid n = Ret false →
     tget (as_gScore st) c = Ret (Some (Fin gc)) →
     tget (as_gScore st) n = Ret (Some gn) →
     num_lt (Fin (gc + 1)) (Some gn) = true →
     in_rows (as_previousNodes st) (row n) = true →
     in_rows (as_fScore st) (row n) = true →
     hasNode (row n) (col n) (as_openSet st) = true →
     ∃ st', astar_neighbor grid e c st n = Ret st'
            ∧ as_openSet st' = as_openSet st
            ∧ t_cells (as_previousNodes st') !! n = Some (Some c)
            ∧ t_cells (as_gScore st') !! n = Some (Fin (gc + 1))
            ∧ t_cells (as_fScore st') !! n
              = Some (Fin (gc + 1 + manhattanDistance n e)))
  ∧ ∃ ra d,
      valid_grid detour_grid
      ∧ astar (Some detour_grid) (Some (1, 8)) (Some (1, 0)) = Ret ra
      ∧ distance detour_grid (1, 8) (1, 0) d
      ∧ (d < length (shortestPath ra))%nat.
Proof.
  split.
  - intros grid e c n st gc gn Hcl Hw Hgc Hgn Hlt Hrp Hrf Hhas.
    destruct (astar_neighbor_improves grid e c n st gc gn Hcl Hw Hgc Hgn Hlt Hrp Hrf)
      as (st' & Hrun & Hq & Hrest).
    rewrite Hhas in Hq. eauto.
  - eexists _, 12%nat. split; [exact detour_grid_valid|].
    split; [vm_compute; reflexivity|]. split; [exact detour_grid_distance|].
    vm_compute. lia.
Qed.

Lemma astar_stale_priority_witness :
  ∃ st', astar_neighbor [[open_cell; open_cell; open_cell]] (0, 0) (0, 1)
           waiting_state (0, 2) = Ret st'
         ∧ as_openSet st' = [((0, 2), Fin 7)]
         ∧ t_cells (as_previousNodes st') !! (0, 2) = Some (Some (0, 1))
         ∧ t_cells (as_gScore st') !! (0, 2) = Some (Fin 1)
         ∧ t_cells (as_fScore st') !! (0, 2) = Some (Fin 3).
Proof.
  destruct astar_stale_priority as [H _].
  apply (H [[open_cell; open_cell; open_cell]] (0, 0) (0, 1) (0, 2)
           waiting_state 0 (Fin 5)).
  - apply (bool_decide_unpack _). vm_compute. exact I.
  - reflexivity.
  - vm_compute. reflexivity.
  - vm_compute. reflexivity.
  - reflexivity.
  - reflexivity.
  - reflexivity.
  - reflexivity.
Defined.

(** * Grids without walls *)

Lemma adjacent_heuristic (c n e : Coord) :
  adjacent c n →
  manhattanDistance n e = manhattanDistance c e - 1
  ∨ manhattanDistance n e = manhattanDistance c e + 1.
Proof. unfold adjacent, manhattanDistance, row, col. lia. Qed.

Lemma closer_neighbor (grid : Grid) (c e : Coord) :
  in_bounds grid c → in_bounds grid e → c ≠ e →
  ∃ n, adjacent c n ∧ in_bounds grid n
       ∧ manhattanDistance n e = manhattanDistance c e - 1.
Proof.
  intros Hc He Hne. destruct c as [r k], e as [r' k'].
  unfold in_bounds, adjacent, manhattanDistance, row, col in *. simpl in *.
  destruct (Z.lt_trichotomy r r') as [Hr|[Hr|Hr]].
  - exists (r + 1, k). simpl. lia.
  - destruct (Z.lt_trichotomy k k') as [Hk|[Hk|Hk]].
    + exists (r, k + 1). simpl. lia.
    + exfalso. apply Hne. congruence.
    + exists (r, k - 1). simpl. lia.
  - exists (r - 1, k). simpl. lia.
Qed.

Lemma prev_chain_insert (prev : Table (option Coord)) (s q n : Coord)
    (v : option Coord) (l : list Coord) :
  (∀ x, x ∈ l → x ≠ n) → prev_chain prev s l q →
  prev_chain (mkTable (t_rows prev) (<[n := v]> (t_cells prev))) s l q.
Proof.
  intros Hl Hc. induction Hc as [|l q p Hc IH Hp]; [constructor|].
  econstructor.
  - apply IH. intros x Hx. apply Hl, elem_of_app. auto.
  - simpl. rewrite lookup_insert_ne; [exact Hp|].
    intros <-. apply (Hl n); [|reflexivity].
    apply elem_of_app. right. apply list_elem_of_singleton. reflexivity.
Qed.

Section OpenGrid.
Context (grid : Grid) (Hgrid : valid_grid grid) (Hopen : no_walls grid).

Lemma open_step (p q : Coord) :
  adjacent p q → in_bounds grid q → step grid p q.
Proof using Hgrid Hopen.
  intros Ha Hq. split; [exact Ha|]. split; [exact Hq|].
  apply cell_isWall_no_walls; assumption.
Qed.

Lemma open_route (s : Coord) (k : nat) :
  ∀ e, in_bounds grid s → in_bounds grid e →
  manhattanDistance s e = Z.of_nat k →
  ∃ l, route grid s l e ∧ length l = k.
Proof using Hgrid Hopen.
  induction k as [|k IH]; intros e Hs He Hk.
  - apply manhattan_zero in Hk as <-. exists []. split; [constructor|reflexivity].
  - assert (Hne : e ≠ s).
    { intros ->. rewrite (proj2 (manhattan_zero s s) eq_refl) in Hk. lia. }
    destruct (closer_neighbor grid e s He Hs Hne) as (p & Hadj & Hp & Hd).
    destruct (IH p Hs Hp) as (l & Hl & Hlen).
    { rewrite (manhattan_sym s p), Hd, (manhattan_sym e s). lia. }
    exists (l ++ [e]). split.
    + econstructor; [exact Hl|]. apply open_step; [|exact He].
      unfold adjacent in *. rewrite manhattan_sym. exact Hadj.
    + rewrite length_app. simpl. lia.
Qed.

(** Without walls the distance is the Manhattan distance. *)
Lemma open_distance (s e : Coord) :
  in_bounds grid s → in_bounds grid e →
  distance grid s e (Z.to_nat (manhattanDistance s e)).
Proof using Hgrid Hopen.
  intros Hs He. pose proof (manhattan_nonneg s e) as Hnn. split.
  - apply open_route; [assumption..|]. lia.
  - intros l Hl. pose proof (route_manhattan grid s e l Hl). lia.
Qed.
End OpenGrid.

(** ** greedy on a grid without walls *)

Section GreedyOpen.
Context (grid : Grid) (Hgrid : valid_grid grid) (Hopen : no_walls grid).
Context (s e : Coord) (Hs : in_bounds grid s) (He : in_bounds grid e).

Lemma greedy_open_init :
  greedy_open_head grid s e (greedy_init grid s).
Proof using Hs.
  split; [apply greedy_init_inv, Hs|]. split; [apply not_elem_of_nil|].
  exists (s, Fin 0), [], []. split; [reflexivity|].
  unfold greedy_open_mid. simpl.
  split; [reflexivity|]. split; [constructor|].
  split; [intros x Hx; apply elem_of_nil in Hx as []|].
  split; [lia|].
  split; [intros p Hp; apply list_elem_of_singleton in Hp as ->; lia|].
  split; [intros x Hx; apply elem_of_nil in Hx as []|].
  split; [apply pq_sorted_nil|].
  split; [intros x Hx; apply elem_of_nil in Hx as []|].
  split; [intros x Hx; apply elem_of_nil in Hx as []|].
  intros n Hadj Hn _. left. apply (getNeighbors_spec grid s n). auto.
Qed.

Lemma greedy_open_step (c n : Coord) (l pending : list Coord) (st : GreedyState) :
  greedy_inv grid s st (n :: pending) →
  greedy_open_mid grid s e c l st (n :: pending) →
  adjacent c n → in_bounds grid n →
  ∃ st', greedy_neighbor grid e c st n = Ret st'
         ∧ greedy_inv grid s st' pending
         ∧ greedy_open_mid grid s e c l st' pending.
Proof using Hgrid Hopen.
  intros Hinv Hmid Hadj Hn.
  pose proof Hmid as (Hlast & Hchain & Hl & Hlen & Hmin & Hprio & Hsorted & Hlow & Hpar & Hnb).
  destruct (greedy_neighbor_inv grid Hgrid s e c n pending st Hinv Hlast Hadj Hn)
    as (st' & Hrun & Hinv' & Hvis' & Hcl').
  exists st'. split; [exact Hrun|]. split; [exact Hinv'|].
  destruct Hinv as (Hsi & Hclosed).
  destruct st as [vis q closed prev]; simpl in *.
  unfold greedy_neighbor in Hrun; simpl in Hrun.
  case_bool_decide as Hnc.
  { injection Hrun as <-. unfold greedy_open_mid; simpl.
    repeat (split; [assumption|]).
    intros m Hm Hmb Hmv. destruct (Hnb m Hm Hmb Hmv) as [Hin|Hin]; [|auto].
    apply elem_of_cons in Hin as [->|Hin]; [|auto].
    exfalso. apply Hmv, Hclosed, Hnc. }
  assert (Hnv : n ∉ vis) by (intros Hin; apply Hnc, Hclosed, Hin).
  rewrite (cell_isWall_no_walls grid Hgrid n Hopen Hn) in Hrun. simpl in Hrun.
  rewrite (full_table_tset grid prev n (Some c)
             (prev_full grid s _ _ _ _ Hsi) Hn) in Hrun. simpl in Hrun.
  injection Hrun as <-. unfold greedy_open_mid; simpl.
  assert (Hsub : ∀ x, x ∈ (if hasNode (row n) (col n) q then q
                            else enqueue n (Fin (manhattanDistance n e)) q) →
                 x ∈ q ∨ (x = (n, Fin (manhattanDistance n e)))).
  { intros x Hx. destruct (hasNode _ _ q); [auto|].
    rewrite enqueue_perm in Hx. apply elem_of_cons in Hx as [->|Hx]; auto. }
  split; [exact Hlast|].
  split; [apply prev_chain_insert; [|exact Hchain]; intros x Hx ->; auto|].
  split; [exact Hl|]. split; [exact Hlen|]. split; [exact Hmin|].
  split; [|split; [|split; [|split]]].
  - intros x Hx. destruct (Hsub x Hx) as [Hq| ->]; [auto|reflexivity].
  - destruct (hasNode _ _ q); [exact Hsorted|].
    apply enqueue_sorted. intros x Hx. rewrite (Hprio x Hx). eauto.
  - intros x Hx. destruct (Hsub x Hx) as [Hq| ->]; [auto|]. simpl.
    destruct (adjacent_heuristic c n e Hadj); lia.
  - intros x Hx Hh. rewrite lookup_insert. case_decide as Hxn; [reflexivity|].
    destruct (Hsub x Hx) as [Hq| ->]; [auto|]. simpl in Hxn. congruence.
  - intros m Hm Hmb Hmv. destruct (Hnb m Hm Hmb Hmv) as [Hin|Hin].
    + apply elem_of_cons in Hin as [->|Hin]; [|auto]. right.
      destruct (hasNode (row n) (col n) q) eqn:Hhas.
      * apply hasNode_spec, Hhas.
      * apply enqueue_vals_elem. auto.
    + right. destruct (hasNode (row n) (col n) q); [exact Hin|].
      apply enqueue_vals_elem. auto.
Qed.

Lemma greedy_open_neighbors (c : Coord) (l : list Coord) (st : GreedyState) :
  greedy_inv grid s st (getNeighbors (row c) (col c) grid) →
  greedy_open_mid grid s e c l st (getNeighbors (row c) (col c) grid) →
  ∃ st', for_of (greedy_neighbor grid e c)
           (getNeighbors (row c) (col c) grid) st = Ret st'
         ∧ greedy_inv grid s st' []
         ∧ greedy_open_mid grid s e c l st' [].
Proof using Hgrid Hopen.
  intros Hinv Hmid.
  pose (I := λ (pending : list Coord) (st' : GreedyState),
    greedy_inv grid s st' pending
    ∧ greedy_open_mid grid s e c l st' pending
    ∧ ∀ n, n ∈ pending → adjacent c n ∧ in_bounds grid n).
  destruct (for_of_inv (greedy_neighbor grid e c) I) with
    (xs := getNeighbors (row c) (col c) grid) (s := st) as (st' & Hrun & Hst' & Hmid' & _).
  - intros n rest st0 (Hst0 & Hmid0 & Hnb).
    destruct (Hnb n) as [Hadj Hn]; [left|].
    destruct (greedy_open_step c n l rest st0 Hst0 Hmid0 Hadj Hn) as (st1 & Hr & Hst1 & Hmid1).
    exists st1. split; [exact Hr|]. split; [exact Hst1|]. split; [exact Hmid1|].
    intros m Hm. apply Hnb. right. exact Hm.
  - split; [exact Hinv|]. split; [exact Hmid|].
    intros n Hn. apply getNeighbors_spec. exact Hn.
  - eauto.
Qed.

(** After the neighbours of [c] the loop is back at its head. *)
Lemma greedy_open_next (c : Coord) (l : list Coord) (st : GreedyState) :
  greedy_inv grid s st [] → greedy_open_mid grid s e c l st [] →
  c ≠ e → e ∉ gr_visitedNodesInOrder st →
  greedy_open_head grid s e st.
Proof using He.
  intros Hinv Hmid Hce Hev. split; [exact Hinv|]. split; [exact Hev|].
  destruct Hmid as (Hlast & Hchain & Hl & Hlen & Hmin & Hprio & Hsorted & Hlow & Hpar & Hnb).
  destruct st as [vis q closed prev]; simpl in *.
  assert (Hcb : in_bounds grid c).
  { destruct Hinv as (Hsi & _). eapply si_bounds; [exact Hsi|]. simpl.
    apply elem_of_app. left. apply last_elem_of, Hlast. }
  destruct (closer_neighbor grid c e Hcb He Hce) as (n & Hadj & Hn & Hd).
  assert (Hnq : n ∈ val <$> q).
  { destruct (Hnb n Hadj Hn) as [Hin|Hin]; [|apply elem_of_nil in Hin as []|exact Hin].
    intros Hin. specialize (Hmin n Hin). lia. }
  apply list_elem_of_fmap in Hnq as (y & -> & Hy).
  destruct q as [|x q]; [apply elem_of_nil in Hy as []|].
  assert (Hhx : manhattanDistance (val x) e = manhattanDistance c e - 1).
  { pose proof (Hlow x ltac:(left)) as Hx1.
    apply elem_of_cons in Hy as [->|Hy]; [exact Hd|].
    apply pq_sorted_cons in Hsorted as [Hhead _]. specialize (Hhead y Hy).
    rewrite (Hprio x), (Hprio y) in Hhead by (try left; right; exact Hy).
    simpl in Hhead. apply bool_decide_eq_false in Hhead. lia. }
  exists x, q, (l ++ [val x]). split; [reflexivity|].
  unfold greedy_open_mid; simpl.
  split; [apply last_snoc|].
  split; [econstructor; [exact Hchain|]; apply Hpar; [left|exact Hhx]|].
  split.
  { intros z Hz. apply elem_of_app in Hz as [Hz|Hz]; apply elem_of_app; auto. }
  split; [rewrite length_app; simpl; lia|].
  split.
  { intros p Hp. apply elem_of_app in Hp as [Hp|Hp].
    - specialize (Hmin p Hp). lia.
    - apply list_elem_of_singleton in Hp as ->. lia. }
  split; [intros z Hz; apply Hprio; right; exact Hz|].
  split; [eapply pq_sorted_tail, Hsorted|].
  split.
  { intros z Hz. specialize (Hlow z ltac:(right; exact Hz)). lia. }
  split.
  { intros z Hz Hh. specialize (Hlow z ltac:(right; exact Hz)). lia. }
  intros m Hm Hmb _. left. apply (getNeighbors_spec grid (val x) m). auto.
Qed.

(** When greedy stops, the chain of predecessors that ends in [e] has as
    many links as the Manhattan distance from [s] to [e]. *)
Lemma greedy_open_loop (fuel : nat) :
  ∀ st st', greedy_open_head grid s e st →
  greedy_loop fuel grid e st = Ret st' →
  ∃ l, prev_chain (gr_previousNodes st') s l e
       ∧ Z.of_nat (length l) = manhattanDistance s e.
Proof using Hgrid Hopen He.
  induction fuel as [|fuel IH]; intros st st' Hhead Hrun; [discriminate|].
  destruct Hhead as (Hinv & Hev & x & q & l & Hq & Hmid).
  destruct st as [vis q0 closed prev]; simpl in *. subst q0. simpl in Hrun.
  pose proof (greedy_inv_pop grid s _ _ _ _ _ Hinv) as Hpop.
  destruct (same_coord (val x) e) eqn:Hce.
  - apply same_coord_true in Hce. injection Hrun as <-. simpl.
    destruct Hmid as (_ & Hchain & _ & Hlen & _). simpl in Hchain.
    exists l. split; [rewrite <- Hce; exact Hchain|].
    rewrite Hce, (proj2 (manhattan_zero e e) eq_refl) in Hlen. lia.
  - apply same_coord_false in Hce.
    destruct (greedy_open_neighbors (val x) l _ Hpop Hmid) as (st2 & Hfor & Hinv2 & Hmid2).
    rewrite Hfor in Hrun. simpl in Hrun.
    apply (IH st2 st'); [|exact Hrun].
    apply (greedy_open_next (val x) l); [assumption..|].
    destruct Hmid2 as (Hlast2 & _).
    destruct Hmid as (_ & _ & _ & _ & _ & _).
    (* the visited order is unchanged by the neighbours *)
    destruct (greedy_neighbors_inv grid Hgrid s e (val x) _ Hpop) as (st2' & Hfor' & _ & Heq);
      [apply last_snoc|].
    rewrite Hfor in Hfor'. injection Hfor' as <-. rewrite Heq. simpl.
    intros Hin. apply elem_of_app in Hin as [Hin|Hin]; [done|].
    apply list_elem_of_singleton in Hin. congruence.
Qed.
End GreedyOpen.

(** ** astar on a grid without walls *)

Lemma gprev_chain (s p : Coord) (g : Table num) (prev : Table (option Coord))
    (l : list Coord) :
  astar_gprev s g prev → prev_chain prev s l p →
  t_cells g !! p = Some (Fin (Z.of_nat (length l))).
Proof.
  intros [Hs Hlink]. induction 1 as [|l q p _ IH Hp]; [exact Hs|].
  destruct (Hlink p q Hp) as (z & Hq & Hp'). rewrite IH in Hq. injection Hq as <-.
  rewrite Hp', length_app. simpl. do 2 f_equal. lia.
Qed.

Section AstarOpen.
Context (grid : Grid) (Hgrid : valid_grid grid) (Hopen : no_walls grid).
Context (s e : Coord) (Hs : in_bounds grid s) (He : in_bounds grid e).

Lemma astar_open_init :
  ∃ st, astar_init grid s e = Ret st ∧ astar_open_head grid s e st.
Proof using Hs.
  destruct (astar_init_inv grid s e Hs) as (st & Hinit & Hinv & Hvis).
  exists st. split; [exact Hinit|].
  unfold astar_init in Hinit.
  rewrite (full_table_tset grid _ s (Fin 0) (new_table_full grid Infinity) Hs) in Hinit.
  simpl in Hinit.
  rewrite (full_table_tset grid _ s _ (new_table_full grid Infinity) Hs) in Hinit.
  simpl in Hinit. injection Hinit as <-.
  split; [exact Hinv|]. split; [simpl; apply not_elem_of_nil|].
  eexists _, _. split; [reflexivity|]. simpl.
  split; [split|]; simpl.
  - apply lookup_insert_eq.
  - intros p q Hpq. rewrite new_table_lookup in Hpq. case_bool_decide; discriminate.
  - exists [], []. split; [reflexivity|].
    split; [split; [|split]|].
    + intros x Hx. apply elem_of_nil in Hx as [].
    + intros x Hx. apply elem_of_nil in Hx as [].
    + intros i j x y _ Hi. rewrite lookup_nil in Hi. discriminate.
    + split; [intros x Hx; apply elem_of_nil in Hx as []|].
      split.
      { intros p Hp. apply list_elem_of_singleton in Hp as ->.
        split; [|lia]. rewrite lookup_insert_eq. do 2 f_equal. lia. }
      split; [intros x Hx; apply elem_of_nil in Hx as []|].
      intros n Hadj Hn _. left. apply (getNeighbors_spec grid s n). auto.
Qed.

Lemma astar_open_step (c n : Coord) (pending : list Coord) (st : AstarState) :
  astar_inv grid s st (n :: pending) →
  astar_open_mid grid s e c st (n :: pending) →
  last (as_visitedNodesInOrder st) = Some c →
  adjacent c n → in_bounds grid n →
  ∃ st', astar_neighbor grid e c st n = Ret st'
         ∧ astar_inv grid s st' pending
         ∧ astar_open_mid grid s e c st' pending
         ∧ as_visitedNodesInOrder st' = as_visitedNodesInOrder st.
Proof using Hgrid Hopen Hs He.
  intros Hinv Hmid Hlast Hadj Hn.
  destruct (astar_neighbor_inv grid Hgrid s e c n pending st Hinv Hlast Hadj Hn)
    as (st' & Hrun & Hinv' & Hvis' & Hcl').
  exists st'. split; [exact Hrun|]. split; [exact Hinv'|]. split; [|exact Hvis'].
  clear Hinv' Hvis' Hcl'.
  destruct Hmid as (Hgp & qh & qh2 & Hq & (HQ1 & HQ2 & Hsorted) & Hqh & Hvis & Hqh2 & Hprog).
  destruct Hinv as (Hsi & Hclosed & Hfg & Hff & Hinf & Hfin).
  destruct st as [vis q closed g f prev]; simpl in *. subst q.
  pose proof (last_elem_of _ _ Hlast) as Hcv.
  destruct (Hvis c Hcv) as [Hgc _].
  assert (Hcb : in_bounds grid c).
  { eapply si_bounds; [exact Hsi|]. apply elem_of_app. auto. }
  assert (Hskip :
    (manhattanDistance n e = manhattanDistance c e - 1 → n ∈ val <$> qh) →
    astar_open_mid grid s e c (mkAstar vis (qh ++ qh2) closed g f prev) pending).
  { intros Hk. split; [exact Hgp|]. exists qh, qh2. simpl.
    split; [reflexivity|]. split; [split; [|split]; assumption|].
    repeat (split; [assumption|]).
    intros m Hm Hmb Hh. destruct (Hprog m Hm Hmb Hh) as [Hin|Hin]; [|auto].
    apply elem_of_cons in Hin as [->|Hin]; auto. }
  unfold astar_neighbor in Hrun; simpl in Hrun.
  case_bool_decide as Hnc.
  { injection Hrun as <-. apply Hskip. intros Hh. exfalso.
    apply Hclosed in Hnc. destruct (Hvis n Hnc) as [_ Hle]. lia. }
  assert (Hnv : n ∉ vis) by (intros Hin; apply Hnc, Hclosed, Hin).
  rewrite (cell_isWall_no_walls grid Hgrid n Hopen Hn) in Hrun. simpl in Hrun.
  rewrite (full_table_tget grid g c Hfg Hcb), Hgc in Hrun.
  rewrite (full_table_tget grid g n Hfg Hn) in Hrun.
  cbn [mbind outcome_bind num_add] in Hrun.
  destruct (decide (n ∈ val <$> qh)) as [Hin1|Hnin1].
  { pose proof Hin1 as Hin1'.
    apply list_elem_of_fmap in Hin1 as (x & -> & Hx).
    destruct (HQ1 x Hx) as [_ Hgx]. rewrite Hgx in Hrun. simpl in Hrun.
    specialize (Hqh x Hx).
    rewrite bool_decide_eq_false_2 in Hrun
      by (destruct (adjacent_heuristic c (val x) e Hadj); lia).
    injection Hrun as <-. apply Hskip. auto. }
  destruct (decide (n ∈ val <$> qh2)) as [Hin2|Hnin2].
  { apply list_elem_of_fmap in Hin2 as (x & -> & Hx).
    destruct (HQ2 x Hx) as [_ Hgx]. rewrite Hgx in Hrun. simpl in Hrun.
    specialize (Hqh2 x Hx).
    rewrite bool_decide_eq_false_2 in Hrun
      by (destruct (adjacent_heuristic c (val x) e Hadj); lia).
    injection Hrun as <-. apply Hskip. intros Hh. lia. }
  assert (Hnq : n ∉ val <$> qh ++ qh2).
  { rewrite fmap_app. intros Hin. apply elem_of_app in Hin as [|]; done. }
  assert (Hnin : n ∉ vis ++ (val <$> qh ++ qh2)).
  { intros Hin. apply elem_of_app in Hin as [|]; done. }
  rewrite (Hinf n Hn Hnin) in Hrun. simpl in Hrun.
  rewrite (full_table_tset grid prev n (Some c)
             (prev_full grid s _ _ _ _ Hsi) Hn) in Hrun. simpl in Hrun.
  rewrite (full_table_tset grid g n _ Hfg Hn) in Hrun. simpl in Hrun.
  rewrite tget_Ret in Hrun by (simpl; destruct Hfg as [-> _]; apply Hn).
  simpl in Hrun. rewrite lookup_insert_eq in Hrun. simpl in Hrun.
  rewrite (full_table_tset grid f n _ Hff Hn) in Hrun. simpl in Hrun.
  rewrite (proj2 (hasNode_false n (qh ++ qh2)) Hnq) in Hrun.
  set (H := manhattanDistance s e) in *.
  set (t := H - manhattanDistance c e + 1) in *.
  assert (Hg_other : ∀ p, p ≠ n → <[n:=Fin t]> (t_cells g) !! p = t_cells g !! p).
  { intros p Hp. apply lookup_insert_ne. congruence. }
  assert (Hgp' : astar_gprev s (mkTable (t_rows g) (<[n:=Fin t]> (t_cells g)))
                   (mkTable (t_rows prev) (<[n:=Some c]> (t_cells prev)))).
  { destruct Hgp as [Hg0 Hlink]. split; simpl.
    - rewrite Hg_other; [exact Hg0|]. intros ->. apply Hnv.
      destruct (si_start _ _ _ _ _ _ Hsi) as [[-> _]|]; [discriminate|assumption].
    - intros p q. rewrite lookup_insert. case_decide as Hpn.
      + subst p. intros [= <-]. exists (H - manhattanDistance c e).
        rewrite Hg_other by (intros ->; done). rewrite lookup_insert_eq. auto.
      + intros Hpq. destruct (Hlink p q Hpq) as (z & Hz1 & Hz2). exists z.
        rewrite !Hg_other; [auto|congruence|].
        intros ->. apply Hnv.
        destruct (si_prev_edge _ _ _ _ _ _ Hsi p n Hpq) as (_ & _ & i & Hi & _).
        eapply list_elem_of_lookup_2, Hi. }
  assert (HQ1' : ∀ x, x ∈ qh →
    priority x = Fin H
    ∧ <[n:=Fin t]> (t_cells g) !! val x = Some (Fin (H - manhattanDistance (val x) e))).
  { intros x Hx. destruct (HQ1 x Hx) as [Hp Hgx]. split; [exact Hp|].
    rewrite Hg_other; [exact Hgx|]. intros <-. apply Hnin1, list_elem_of_fmap. eauto. }
  assert (HQ2' : ∀ x, x ∈ qh2 →
    priority x = Fin (H + 2)
    ∧ <[n:=Fin t]> (t_cells g) !! val x = Some (Fin (H + 2 - manhattanDistance (val x) e))).
  { intros x Hx. destruct (HQ2 x Hx) as [Hp Hgx]. split; [exact Hp|].
    rewrite Hg_other; [exact Hgx|]. intros <-. apply Hnin2, list_elem_of_fmap. eauto. }
  assert (Hvis' : ∀ p, p ∈ vis →
    <[n:=Fin t]> (t_cells g) !! p = Some (Fin (H - manhattanDistance p e))
    ∧ manhattanDistance c e ≤ manhattanDistance p e).
  { intros p Hp. destruct (Hvis p Hp) as [Hgpv Hle]. split; [|exact Hle].
    rewrite Hg_other; [exact Hgpv|]. intros ->. done. }
  destruct (adjacent_heuristic c n e Hadj) as [Hh|Hh].
  - (* one step nearer: priority H, behind the entries of priority H *)
    rewrite (enqueue_between n _ qh qh2) in Hrun.
    + injection Hrun as <-. split; [exact Hgp'|].
      exists (qh ++ [(n, Fin (t + manhattanDistance n e))]), qh2. simpl.
      split; [rewrite <- app_assoc; reflexivity|].
      split; [split; [|split]|].
      * intros x Hx. apply elem_of_app in Hx as [Hx|Hx]; [auto|].
        apply list_elem_of_singleton in Hx as ->. simpl. split.
        -- f_equal. lia.
        -- rewrite lookup_insert_eq. do 2 f_equal. lia.
      * exact HQ2'.
      * intros i j x y Hij Hi Hj.
        destruct (decide (j < length qh)%nat) as [Hjl|Hjl].
        -- rewrite lookup_app_l in Hi, Hj by lia. eauto.
        -- rewrite lookup_app_r in Hj by lia.
           apply list_lookup_singleton_Some in Hj as [_ <-]. simpl.
           destruct (decide (i < length qh)%nat) as [Hil|Hil].
           ++ rewrite lookup_app_l in Hi by lia.
              apply list_elem_of_lookup_2 in Hi. specialize (Hqh x Hi). lia.
           ++ rewrite lookup_app_r in Hi by lia.
              apply list_lookup_singleton_Some in Hi as [_ <-]. simpl. lia.
      * split.
        { intros x Hx. apply elem_of_app in Hx as [Hx|Hx]; [auto|].
          apply list_elem_of_singleton in Hx as ->. simpl. lia. }
        split; [exact Hvis'|]. split; [exact Hqh2|].
        intros m Hm Hmb Hmh. destruct (Hprog m Hm Hmb Hmh) as [Hin|Hin].
        -- apply elem_of_cons in Hin as [->|Hin]; [|auto]. right.
           rewrite fmap_app. apply elem_of_app. right. simpl. left.
        -- right. rewrite fmap_app. apply elem_of_app. auto.
    + apply (pq_sorted_const H). intros x Hx. apply HQ1, Hx.
    + apply (pq_sorted_const (H + 2)). intros x Hx. apply HQ2, Hx.
    + intros y Hy. destruct (HQ1 y Hy) as [-> _]. simpl.
      apply bool_decide_eq_false. lia.
    + intros y Hy. destruct (HQ2 y Hy) as [-> _]. simpl.
      apply bool_decide_eq_true. lia.
  - (* one step farther: priority H + 2, at the back *)
    rewrite (enqueue_back n _ (qh ++ qh2)) in Hrun.
    + injection Hrun as <-. split; [exact Hgp'|].
      exists qh, (qh2 ++ [(n, Fin (t + manhattanDistance n e))]). simpl.
      split; [rewrite app_assoc; reflexivity|].
      split; [split; [|split]|].
      * exact HQ1'.
      * intros x Hx. apply elem_of_app in Hx as [Hx|Hx]; [auto|].
        apply list_elem_of_singleton in Hx as ->. simpl. split.
        -- f_equal. lia.
        -- rewrite lookup_insert_eq. do 2 f_equal. lia.
      * exact Hsorted.
      * split; [exact Hqh|]. split; [exact Hvis'|].
        split.
        { intros x Hx. apply elem_of_app in Hx as [Hx|Hx]; [auto|].
          apply list_elem_of_singleton in Hx as ->. simpl. lia. }
        intros m Hm Hmb Hmh. destruct (Hprog m Hm Hmb Hmh) as [Hin|Hin]; [|auto].
        apply elem_of_cons in Hin as [->|Hin]; [lia|auto].
    + apply pq_sorted_app.
      * apply (pq_sorted_const H). intros x Hx. apply HQ1, Hx.
      * apply (pq_sorted_const (H + 2)). intros x Hx. apply HQ2, Hx.
      * intros x y Hx Hy. destruct (HQ1 x Hx) as [-> _]. destruct (HQ2 y Hy) as [-> _].
        simpl. apply bool_decide_eq_false. lia.
    + intros y Hy. apply elem_of_app in Hy as [Hy|Hy].
      * destruct (HQ1 y Hy) as [-> _]. simpl. apply bool_decide_eq_false. lia.
      * destruct (HQ2 y Hy) as [-> _]. simpl. apply bool_decide_eq_false. lia.
Qed.
Lemma astar_open_neighbors (c : Coord) (st : AstarState) :
  astar_inv grid s st (getNeighbors (row c) (col c) grid) →
  astar_open_mid grid s e c st (getNeighbors (row c) (col c) grid) →
  last (as_visitedNodesInOrder st) = Some c →
  ∃ st', for_of (astar_neighbor grid e c)
           (getNeighbors (row c) (col c) grid) st = Ret st'
         ∧ astar_inv grid s st' []
         ∧ astar_open_mid grid s e c st' []
         ∧ as_visitedNodesInOrder st' = as_visitedNodesInOrder st.
Proof using Hgrid Hopen Hs He.
  intros Hinv Hmid Hlast.
  pose (I := λ (pending : list Coord) (st' : AstarState),
    astar_inv grid s st' pending
    ∧ astar_open_mid grid s e c st' pending
    ∧ as_visitedNodesInOrder st' = as_visitedNodesInOrder st
    ∧ ∀ n, n ∈ pending → adjacent c n ∧ in_bounds grid n).
  destruct (for_of_inv (astar_neighbor grid e c) I) with
    (xs := getNeighbors (row c) (col c) grid) (s := st)
    as (st' & Hrun & Hst' & Hmid' & Heq & _).
  - intros n rest st0 (Hst0 & Hmid0 & Heq & Hnb).
    destruct (Hnb n) as [Hadj Hn]; [left|].
    destruct (astar_open_step c n rest st0 Hst0 Hmid0) as (st1 & Hr & Hst1 & Hmid1 & Heq1);
      [congruence|assumption..|].
    exists st1. split; [exact Hr|]. split; [exact Hst1|]. split; [exact Hmid1|].
    split; [congruence|]. intros m Hm. apply Hnb. right. exact Hm.
  - split; [exact Hinv|]. split; [exact Hmid|]. split; [reflexivity|].
    intros n Hn. apply getNeighbors_spec. exact Hn.
  - eauto.
Qed.

(** After the neighbours of [c] the loop is back at its head. *)
Lemma astar_open_next (c : Coord) (st : AstarState) :
  astar_inv grid s st [] → astar_open_mid grid s e c st [] →
  last (as_visitedNodesInOrder st) = Some c →
  c ≠ e → e ∉ as_visitedNodesInOrder st →
  astar_open_head grid s e st.
Proof using He.
  intros Hinv Hmid Hlast Hce Hev. split; [exact Hinv|]. split; [exact Hev|].
  destruct Hmid as (Hgp & qh & qh2 & Hq & (HQ1 & HQ2 & Hsorted) & Hqh & Hvis & Hqh2 & Hprog).
  destruct st as [vis q closed g f prev]; simpl in *. subst q.
  assert (Hcb : in_bounds grid c).
  { destruct Hinv as (Hsi & _). eapply si_bounds; [exact Hsi|]. simpl.
    apply elem_of_app. left. apply last_elem_of, Hlast. }
  destruct (closer_neighbor grid c e Hcb He Hce) as (n & Hadj & Hn & Hd).
  destruct (Hprog n Hadj Hn Hd) as [Hin|Hin]; [apply elem_of_nil in Hin as []|].
  destruct qh as [|x qh]; [apply elem_of_nil in Hin as []|].
  exists x, (qh ++ qh2). split; [reflexivity|].
  pose proof (Hqh x ltac:(left)) as Hx.
  split; [exact Hgp|]. exists qh, qh2. simpl.
  split; [reflexivity|]. split; [split; [|split]|].
  - intros y Hy. apply HQ1. right. exact Hy.
  - exact HQ2.
  - intros i j y z Hij Hi Hj. apply (Hsorted (S i) (S j)); [lia|exact Hi|exact Hj].
  - split.
    { intros y Hy. pose proof (Hqh y ltac:(right; exact Hy)) as Hy'.
      apply list_elem_of_lookup_1 in Hy as [j Hj].
      pose proof (Hsorted 0%nat (S j) x y ltac:(lia) eq_refl Hj). lia. }
    split.
    { intros p Hp. apply elem_of_app in Hp as [Hp|Hp].
      - destruct (Hvis p Hp) as [Hgpv Hle]. split; [exact Hgpv|lia].
      - apply list_elem_of_singleton in Hp as ->.
        split; [apply HQ1; left|lia]. }
    split.
    { intros y Hy. specialize (Hqh2 y Hy). lia. }
    intros m Hm Hmb _. left. apply (getNeighbors_spec grid (val x) m). auto.
Qed.

(** When astar stops on a grid without walls, the chain of predecessors
    that ends in [e] has as many links as the Manhattan distance from [s]
    to [e]. *)
Lemma astar_open_loop (fuel : nat) :
  ∀ st st', astar_open_head grid s e st →
  astar_loop fuel grid e st = Ret st' →
  ∃ l, prev_chain (as_previousNodes st') s l e
       ∧ Z.of_nat (length l) = manhattanDistance s e.
Proof using Hgrid Hopen Hs He.
  induction fuel as [|fuel IH]; intros st st' Hhead Hrun; [discriminate|].
  destruct Hhead as (Hinv & Hev & x & q & Hq & Hmid).
  destruct st as [vis q0 closed g f prev]; simpl in *. subst q0. simpl in Hrun.
  pose proof (astar_inv_pop grid s _ _ _ _ _ _ _ Hinv) as Hpop.
  destruct (same_coord (val x) e) eqn:Hce.
  - apply same_coord_true in Hce. injection Hrun as <-. simpl.
    destruct Hmid as (Hgp & qh & qh2 & _ & _ & _ & Hvis & _). simpl in *.
    destruct Hpop as (Hsi & _). simpl in Hsi.
    destruct (walk_back_chain grid s _ _ _ _ Hsi (length vis) (val x)
                (S (length vis)) []) as (l & _ & Hchain & _).
    { rewrite lookup_app_r by lia. rewrite Nat.sub_diag. reflexivity. }
    { lia. }
    exists l. rewrite <- Hce. split; [exact Hchain|].
    pose proof (gprev_chain s (val x) g prev l Hgp Hchain) as Hgl.
    destruct (Hvis (val x)) as [Hge _].
    { apply elem_of_app. right. apply list_elem_of_singleton. reflexivity. }
    rewrite Hge in Hgl. injection Hgl as Hgl.
    rewrite Hce in Hgl. rewrite (proj2 (manhattan_zero e e) eq_refl) in Hgl.
    rewrite Hce. lia.
  - apply same_coord_false in Hce.
    destruct (astar_open_neighbors (val x) _ Hpop Hmid) as (st2 & Hfor & Hinv2 & Hmid2 & Heq);
      [apply last_snoc|].
    rewrite Hfor in Hrun. simpl in Hrun. simpl in Heq.
    apply (IH st2 st'); [|exact Hrun].
    apply (astar_open_next (val x)); [assumption..| | |].
    + rewrite Heq. apply last_snoc.
    + exact Hce.
    + rewrite Heq. intros Hin. apply elem_of_app in Hin as [Hin|Hin]; [done|].
      apply list_elem_of_singleton in Hin. congruence.
Qed.
End AstarOpen.

(** ** Paths on grids without walls *)

Lemma no_wallsb_ok (grid : Grid) : no_wallsb grid = true → no_walls grid.
Proof.
  unfold no_wallsb, no_walls. intros H r c Hr Hc.
  rewrite forallb_forall in H. apply list_elem_of_In, H in Hr.
  rewrite forallb_forall in Hr. apply list_elem_of_In, Hr in Hc.
  destruct (isWall c); [discriminate|reflexivity].
Qed.

Section OpenPaths.
Context (grid : Grid) (Hgrid : valid_grid grid).
Context (s e : Coord) (Hs : in_bounds grid s) (He : in_bounds grid e).

(** The returned path has as many cells as the chain of predecessors of
    the end has links. *)
Lemma chain_path (vis : list Coord) (prev : Table (option Coord))
    (path l : list Coord) :
  search_final grid s e vis prev →
  getNodesInShortestPathOrder (budget grid) prev e = Ret path →
  prev_chain prev s l e → l ≠ [] → length path = length l.
Proof using Hs He.
  intros Hfin Hpath Hchain Hne.
  pose proof (final_length grid s e vis prev Hfin) as Hlen.
  destruct (final_path grid s e He vis prev (budget grid) Hfin Hlen)
    as (path' & Hpath' & Hshape).
  rewrite Hpath in Hpath'. injection Hpath' as <-.
  assert (Hps : t_cells prev !! s = Some None).
  { destruct Hfin as (fr & pending & Hinv & _). eapply si_prev_start, Hinv. }
  destruct Hshape as [(-> & Hq & _)|(l' & q & -> & _ & Hc & _)].
  - exfalso. inversion Hchain as [Heq|l0 q0 p0 _ Hp0 Heq]; subst; [done|congruence].
  - rewrite <- (prev_chain_unique prev s e _ _ Hps Hc Hchain).
    rewrite length_app. simpl. lia.
Qed.

(** Whenever the end can be reached and is not the start, a search
    returns the start followed by the cells of a route to the predecessor
    of the end. *)
Lemma run_reachable (a : Algorithm) :
  reachable grid s e → s ≠ e →
  ∃ r l, run a (Some grid) (Some s) (Some e) = Ret r
         ∧ shortestPath r = s :: l ∧ route grid s (l ++ [e]) e.
Proof using Hgrid Hs He.
  intros Hreach Hne.
  destruct (run_returns grid Hgrid s e Hs He a)
    as (vis & prev & path & r & Hsearch & Hfin & Hpath & Hrun & Hv & Hp).
  destruct (final_prev_set grid s e vis prev Hfin) as [q Hq]; [congruence|exact Hreach|].
  pose proof (final_length grid s e vis prev Hfin) as Hlen.
  destruct (final_path_found grid s e He vis prev Hfin (budget grid) q Hq Hlen)
    as (l & Hpath' & _ & Hroute & _).
  rewrite Hpath in Hpath'. injection Hpath' as ->.
  exists r, l. auto.
Qed.

Context (Hopen : no_walls grid) (Hne : s ≠ e).

Lemma open_positive : 0 < manhattanDistance s e.
Proof using Hne.
  pose proof (manhattan_nonneg s e). pose proof (manhattan_zero s e). 
  destruct (decide (manhattanDistance s e = 0)) as [Hz|]; [|lia].
  exfalso. apply Hne. tauto.
Qed.

Lemma open_leveled (vis fr : list Coord) (prev : Table (option Coord))
    (path : list Coord) :
  search_final grid s e vis prev → level_inv grid s vis fr prev →
  getNodesInShortestPathOrder (budget grid) prev e = Ret path →
  Z.of_nat (length path) = manhattanDistance s e.
Proof using Hgrid Hopen Hs He.
  intros Hfin Hlev Hpath.
  destruct (leveled_path grid s e He vis fr prev path Hfin Hlev Hpath) as [Hd _].
  pose proof (open_distance grid Hgrid Hopen s e Hs He) as Hman.
  rewrite (distance_unique grid s e _ _ (Hd (distance_reachable grid s e _ Hman)) Hman).
  pose proof (manhattan_nonneg s e). lia.
Qed.

Lemma open_dijkstra :
  ∃ r, dijkstra (Some grid) (Some s) (Some e) = Ret r
       ∧ Z.of_nat (length (shortestPath r)) = manhattanDistance s e.
Proof using Hgrid Hopen Hs He.
  destruct (dijkstra_returns grid Hgrid s e Hs He)
    as (st & path & _ & (Hfin & [fr Hlev] & _) & Hpath & Hrun).
  eexists. split; [exact Hrun|]. simpl. eapply open_leveled; eauto.
Qed.

Lemma open_bfs :
  ∃ r, bfs (Some grid) (Some s) (Some e) = Ret r
       ∧ Z.of_nat (length (shortestPath r)) = manhattanDistance s e.
Proof using Hgrid Hopen Hs He.
  destruct (bfs_returns grid Hgrid s e Hs He)
    as (st & path & fr & _ & Hfin & Hlev & Hpath & Hrun).
  eexists. split; [exact Hrun|]. simpl. eapply open_leveled; eauto.
Qed.

Lemma open_astar :
  ∃ r, astar (Some grid) (Some s) (Some e) = Ret r
       ∧ Z.of_nat (length (shortestPath r)) = manhattanDistance s e.
Proof using Hgrid Hopen Hs He Hne.
  destruct (run_returns grid Hgrid s e Hs He Astar)
    as (vis & prev & path & r & Hsearch & Hfin & Hpath & Hrun & Hv & Hp).
  exists r. split; [exact Hrun|]. rewrite Hp.
  unfold search, astar_search in Hsearch.
  destruct (astar_open_init grid s e Hs) as (st0 & Hinit & Hhead).
  rewrite Hinit in Hsearch. cbn [mbind outcome_bind] in Hsearch.
  destruct (astar_loop (budget grid) grid e st0) as [st| |] eqn:Hloop;
    cbn [mbind outcome_bind mret outcome_ret] in Hsearch; try discriminate.
  injection Hsearch as <- <-.
  destruct (astar_open_loop grid Hgrid Hopen s e Hs He (budget grid) st0 st Hhead Hloop)
    as (l & Hchain & Hlen).
  pose proof open_positive as Hpos.
  rewrite (chain_path _ _ path l Hfin Hpath Hchain); [exact Hlen|].
  intros ->. simpl in Hlen. lia.
Qed.

Lemma open_greedy :
  ∃ r, greedy (Some grid) (Some s) (Some e) = Ret r
       ∧ Z.of_nat (length (shortestPath r)) = manhattanDistance s e.
Proof using Hgrid Hopen Hs He Hne.
  destruct (run_returns grid Hgrid s e Hs He Greedy)
    as (vis & prev & path & r & Hsearch & Hfin & Hpath & Hrun & Hv & Hp).
  exists r. split; [exact Hrun|]. rewrite Hp.
  unfold search, greedy_search in Hsearch.
  destruct (greedy_loop (budget grid) grid e (greedy_init grid s)) as [st| |] eqn:Hloop;
    cbn [mbind outcome_bind mret outcome_ret] in Hsearch; try discriminate.
  injection Hsearch as <- <-.
  destruct (greedy_open_loop grid Hgrid Hopen s e He (budget grid) _ st
              (greedy_open_init grid s e Hs) Hloop) as (l & Hchain & Hlen).
  pose proof open_positive as Hpos.
  rewrite (chain_path _ _ path l Hfin Hpath Hchain); [exact Hlen|].
  intros ->. simpl in Hlen. lia.
Qed.
End OpenPaths.

(** C2 (as stated it fails): on the 3 by 3 grid without walls, dfs from
    (0,0) to (2,0) returns a path of six cells, while the Manhattan
    distance is two. *)
Lemma dfs_detour :
  valid_grid open_3x3 ∧ no_walls open_3x3
  ∧ ∃ r, dfs (Some open_3x3) (Some (0, 0)) (Some (2, 0)) = Ret r
         ∧ length (shortestPath r) = 6%nat
         ∧ manhattanDistance (0, 0) (2, 0) = 2.
Proof.
  split; [apply valid_gridb_ok; reflexivity|].
  split; [apply no_wallsb_ok; reflexivity|].
  eexists. split; [vm_compute; reflexivity|]. split; reflexivity.
Qed.

(** C2 (amended): on every grid without walls, with start and end in
    bounds and distinct, dijkstra, bfs, astar and greedy each return a
    non-empty path whose length is the Manhattan distance between start and
    end; dfs returns a non-empty path whose length is at least that
    distance. *)
Theorem open_grid_paths (grid : Grid) (s e : Coord) :
  valid_grid grid → no_walls grid →
  in_bounds grid s → in_bounds grid e → s ≠ e →
  (∀ a, a ≠ Dfs →
     ∃ r, run a (Some grid) (Some s) (Some e) = Ret r
          ∧ shortestPath r ≠ []
          ∧ Z.of_nat (length (shortestPath r)) = manhattanDistance s e)
  ∧ ∃ r, run Dfs (Some grid) (Some s) (Some e) = Ret r
         ∧ shortestPath r ≠ []
         ∧ manhattanDistance s e ≤ Z.of_nat (length (shortestPath r)).
Proof.
  intros Hgrid Hopen Hs He Hne.
  pose proof (open_positive s e Hne) as Hpos.
  split.
  - intros a Ha.
    assert (H : ∃ r, run a (Some grid) (Some s) (Some e) = Ret r
                     ∧ Z.of_nat (length (shortestPath r)) = manhattanDistance s e).
    { destruct a; simpl; [| |done| |].
      - apply open_dijkstra; assumption.
      - apply open_bfs; assumption.
      - apply open_astar; assumption.
      - apply open_greedy; assumption. }
    destruct H as (r & Hrun & Hlen). exists r. split; [exact Hrun|].
    split; [|exact Hlen]. intros Hnil. rewrite Hnil in Hlen. simpl in Hlen. lia.
  - destruct (run_reachable grid Hgrid s e Hs He Dfs) as (r & l & Hrun & Hp & Hroute);
      [|exact Hne|].
    { eapply distance_reachable, open_distance; eauto. }
    exists r. split; [exact Hrun|]. rewrite Hp. split; [discriminate|].
    pose proof (route_manhattan grid s e _ Hroute) as Hm.
    rewrite length_app in Hm. simpl in *. lia.
Qed.

Lemma open_grid_paths_witness :
  (∀ a, a ≠ Dfs →
     ∃ r, run a (Some open_3x3) (Some (0, 0)) (Some (2, 0)) = Ret r
          ∧ shortestPath r ≠ []
          ∧ Z.of_nat (length (shortestPath r)) = manhattanDistance (0, 0) (2, 0))
  ∧ ∃ r, run Dfs (Some open_3x3) (Some (0, 0)) (Some (2, 0)) = Ret r
         ∧ shortestPath r ≠ []
         ∧ manhattanDistance (0, 0) (2, 0) ≤ Z.of_nat (length (shortestPath r)).
Proof.
  apply (open_grid_paths open_3x3 (0, 0) (2, 0)).
  - apply valid_gridb_ok. reflexivity.
  - apply no_wallsb_ok. reflexivity.
  - apply isValidPosition_spec. reflexivity.
  - apply isValidPosition_spec. reflexivity.
  - discriminate.
Defined.

(** * Further properties of the engine *)

(** ** The priority queue *)

Lemma pq_finite_cons (x : Item) (q : PriorityQueue) :
  pq_finite (x :: q) ↔ (∃ z, priority x = Fin z) ∧ pq_finite q.
Proof.
  unfold pq_finite. split.
  - intros H. split; [apply H; left|intros y Hy; apply H; right; exact Hy].
  - intros [Hx Hq] y Hy. apply elem_of_cons in Hy as [-> | Hy]; auto.
Qed.

Lemma pq_finite_perm (q q' : PriorityQueue) :
  q ≡ₚ q' → pq_finite q → pq_finite q'.
Proof. intros Hp H y Hy. apply H. rewrite Hp. exact Hy. Qed.

(** A sorted queue splits at any priority. *)
Lemma sorted_split (p : Z) (q : PriorityQueue) :
  pq_finite q → pq_sorted q →
  ∃ q1 q2, q = q1 ++ q2
    ∧ (∀ y, y ∈ q1 → ∃ z, priority y = Fin z ∧ z ≤ p)
    ∧ (∀ y, y ∈ q2 → ∃ z, priority y = Fin z ∧ p < z).
Proof.
  induction q as [|x q IH]; intros Hfin Hsorted.
  - exists [], []. split; [reflexivity|]. split; intros y Hy; inversion Hy.
  - apply pq_finite_cons in Hfin as [[zx Hzx] Hfin].
    apply pq_sorted_cons in Hsorted as [Hx Hsorted].
    destruct (decide (zx ≤ p)) as [Hle|Hgt].
    + destruct (IH Hfin Hsorted) as (q1 & q2 & -> & H1 & H2).
      exists (x :: q1), q2. split; [reflexivity|]. split; [|exact H2].
      intros y Hy. apply elem_of_cons in Hy as [-> | Hy]; eauto.
    + exists [], (x :: q). split; [reflexivity|].
      split; [intros y Hy; inversion Hy|].
      intros y Hy. apply elem_of_cons in Hy as [-> | Hy].
      * exists zx. split; [exact Hzx|lia].
      * destruct (Hfin y Hy) as [zy Hzy]. exists zy. split; [exact Hzy|].
        specialize (Hx y Hy). rewrite Hzx, Hzy in Hx. simpl in Hx.
        apply bool_decide_eq_false in Hx. lia.
Qed.

(** X1: [enqueue] puts the new entry behind every entry whose priority is
    not greater and in front of every entry whose priority is greater; the
    entries already in a sorted queue keep their order. *)
Theorem enqueue_position (v : Coord) (p : Z) (q : PriorityQueue) :
  pq_finite q → pq_sorted q →
  ∃ q1 q2, q = q1 ++ q2
    ∧ enqueue v (Fin p) q = q1 ++ (v, Fin p) :: q2
    ∧ (∀ y, y ∈ q1 → ∃ z, priority y = Fin z ∧ z ≤ p)
    ∧ (∀ y, y ∈ q2 → ∃ z, priority y = Fin z ∧ p < z).
Proof.
  intros Hfin Hsorted.
  destruct (sorted_split p q Hfin Hsorted) as (q1 & q2 & -> & H1 & H2).
  exists q1, q2. split; [reflexivity|]. split; [|auto].
  apply enqueue_between.
  - intros i j x y Hij Hx Hy.
    apply (Hsorted i j x y Hij); apply lookup_app_l_Some; assumption.
  - intros i j x y Hij Hx Hy.
    apply (Hsorted (length q1 + i)%nat (length q1 + j)%nat x y); [lia| |].
    + rewrite lookup_app_r by lia.
      replace (length q1 + i - length q1)%nat with i by lia. exact Hx.
    + rewrite lookup_app_r by lia.
      replace (length q1 + j - length q1)%nat with j by lia. exact Hy.
  - intros y Hy. destruct (H1 y Hy) as (z & -> & Hz). simpl.
    apply bool_decide_eq_false. lia.
  - intros y Hy. destruct (H2 y Hy) as (z & -> & Hz). simpl.
    apply bool_decide_eq_true. lia.
Qed.

Lemma enqueue_position_witness :
  ∃ q1 q2, [((0, 0), Fin 1); ((0, 1), Fin 2); ((0, 2), Fin 3)] = q1 ++ q2
    ∧ enqueue (1, 1) (Fin 2) [((0, 0), Fin 1); ((0, 1), Fin 2); ((0, 2), Fin 3)]
      = q1 ++ ((1, 1), Fin 2) :: q2
    ∧ (∀ y, y ∈ q1 → ∃ z, priority y = Fin z ∧ z ≤ 2)
    ∧ (∀ y, y ∈ q2 → ∃ z, priority y = Fin z ∧ 2 < z).
Proof.
  apply (enqueue_position (1, 1) 2 [((0, 0), Fin 1); ((0, 1), Fin 2); ((0, 2), Fin 3)]).
  - intros x Hx. repeat (apply elem_of_cons in Hx as [-> | Hx]; [eexists; reflexivity|]).
    inversion Hx.
  - apply (sort_is_sorted [((0, 0), Fin 1); ((0, 1), Fin 2); ((0, 2), Fin 3)]).
    intros x Hx. repeat (apply elem_of_cons in Hx as [-> | Hx]; [eexists; reflexivity|]).
    inversion Hx.
Defined.

(** X2: whatever the order of the entries before, after an [enqueue] with
    finite priorities the queue holds the old entries and the new one, in
    comparator order, and [dequeue] then returns an entry of least
    priority and leaves the others. *)
Theorem enqueue_dequeue_least (v : Coord) (p : Z) (q : PriorityQueue) :
  pq_finite q →
  ∃ x q', dequeue (enqueue v (Fin p) q) = Ret (Some x, q')
    ∧ x :: q' ≡ₚ (v, Fin p) :: q
    ∧ pq_sorted q'
    ∧ ∀ y, y ∈ (v, Fin p) :: q →
        ∃ a b, priority x = Fin a ∧ priority y = Fin b ∧ a ≤ b.
Proof.
  intros Hfin.
  pose proof (enqueue_perm v (Fin p) q) as Hperm.
  pose proof (enqueue_sorted v p q Hfin) as Hsorted.
  pose proof (enqueue_finite v p q Hfin) as Hfin'.
  destruct (enqueue v (Fin p) q) as [|x q'] eqn:Hq.
  { apply Permutation_nil_cons in Hperm as []. }
  exists x, q'. split; [reflexivity|]. split; [exact Hperm|].
  apply pq_sorted_cons in Hsorted as [Hx Hsorted]. split; [exact Hsorted|].
  intros y Hy. rewrite <- Hperm in Hy.
  apply pq_finite_cons in Hfin' as [[a Ha] Hfin'].
  apply elem_of_cons in Hy as [-> | Hy].
  - exists a, a. split; [exact Ha|]. split; [exact Ha|lia].
  - destruct (Hfin' y Hy) as [b Hb]. exists a, b.
    split; [exact Ha|]. split; [exact Hb|].
    specialize (Hx y Hy). rewrite Ha, Hb in Hx. simpl in Hx.
    apply bool_decide_eq_false in Hx. lia.
Qed.

Lemma enqueue_dequeue_least_witness :
  ∃ x q', dequeue (enqueue (1, 1) (Fin 0) [((0, 0), Fin 3); ((0, 1), Fin 2)])
          = Ret (Some x, q')
    ∧ x :: q' ≡ₚ ((1, 1), Fin 0) :: [((0, 0), Fin 3); ((0, 1), Fin 2)]
    ∧ pq_sorted q'
    ∧ ∀ y, y ∈ ((1, 1), Fin 0) :: [((0, 0), Fin 3); ((0, 1), Fin 2)] →
        ∃ a b, priority x = Fin a ∧ priority y = Fin b ∧ a ≤ b.
Proof.
  apply (enqueue_dequeue_least (1, 1) 0 [((0, 0), Fin 3); ((0, 1), Fin 2)]).
  intros x Hx. repeat (apply elem_of_cons in Hx as [-> | Hx]; [eexists; reflexivity|]).
  inversion Hx.
Defined.

Lemma set_first_priority_None (r c : Z) (p : num) (q : PriorityQueue) :
  set_first_priority r c p q = None ↔ hasNode r c q = false.
Proof.
  induction q as [|i q IH]; simpl; [done|].
  destruct (same_node r c i); simpl; [split; discriminate|].
  rewrite <- IH. destruct (set_first_priority r c p q); simpl; split; done.
Qed.

Lemma set_first_priority_Some (r c : Z) (p : num) (q q' : PriorityQueue) :
  set_first_priority r c p q = Some q' →
  ∃ q1 i q2, q = q1 ++ i :: q2 ∧ q' = q1 ++ ((r, c), p) :: q2
    ∧ val i = (r, c) ∧ hasNode r c q1 = false.
Proof.
  revert q'. induction q as [|i q IH]; intros q'; simpl; [discriminate|].
  destruct (same_node r c i) eqn:Hi.
  - intros [= <-]. exists [], i, q. split; [reflexivity|].
    unfold same_node in Hi. apply andb_true_iff in Hi as [Hr Hc].
    apply bool_decide_eq_true in Hr, Hc.
    assert (Hv : val i = (r, c)).
    { destruct i as [[vr vc] pi]. unfold val, row, col in *. simpl in *. congruence. }
    rewrite Hv. done.
  - destruct (set_first_priority r c p q) as [q0|] eqn:Hq; simpl; [|discriminate].
    intros [= <-]. destruct (IH q0 eq_refl) as (q1 & j & q2 & -> & -> & Hj & Hq1).
    exists (i :: q1), j, q2. split; [reflexivity|]. split; [reflexivity|].
    split; [exact Hj|]. simpl. rewrite Hi. exact Hq1.
Qed.

(** X3: [updatePriority] on a node that is not in the queue changes
    nothing. *)
Theorem updatePriority_absent (r c : Z) (p : num) (q : PriorityQueue) :
  hasNode r c q = false → updatePriority r c p q = q.
Proof.
  intros H. unfold updatePriority.
  apply (set_first_priority_None r c p) in H. rewrite H. reflexivity.
Qed.

Lemma updatePriority_absent_witness :
  updatePriority 5 5 (Fin 0) [((0, 0), Fin 3); ((0, 1), Fin 2)]
  = [((0, 0), Fin 3); ((0, 1), Fin 2)].
Proof.
  apply (updatePriority_absent 5 5 (Fin 0) [((0, 0), Fin 3); ((0, 1), Fin 2)]).
  reflexivity.
Defined.

(** X4: [updatePriority] on a node of the queue gives its first entry the
    new priority and sorts: the queue keeps its nodes and its other
    entries, holds the node with the new priority, and is in comparator
    order. *)
Theorem updatePriority_present (r c : Z) (p : Z) (q : PriorityQueue) :
  pq_finite q → hasNode r c q = true →
  ∃ q1 i q2,
    q = q1 ++ i :: q2 ∧ val i = (r, c) ∧ hasNode r c q1 = false
    ∧ updatePriority r c (Fin p) q ≡ₚ ((r, c), Fin p) :: q1 ++ q2
    ∧ val <$> updatePriority r c (Fin p) q ≡ₚ val <$> q
    ∧ pq_sorted (updatePriority r c (Fin p) q).
Proof.
  intros Hfin Hhas. unfold updatePriority.
  destruct (set_first_priority r c (Fin p) q) as [q'|] eqn:Hset.
  2: { apply set_first_priority_None in Hset. congruence. }
  destruct (set_first_priority_Some r c (Fin p) q q' Hset)
    as (q1 & i & q2 & -> & -> & Hi & Hq1).
  exists q1, i, q2. split; [reflexivity|]. split; [exact Hi|]. split; [exact Hq1|].
  assert (Hperm : sort (q1 ++ ((r, c), Fin p) :: q2) ≡ₚ ((r, c), Fin p) :: q1 ++ q2).
  { rewrite sort_perm. symmetry. apply Permutation_middle. }
  split; [exact Hperm|]. split.
  - rewrite Hperm. rewrite fmap_cons, !fmap_app, fmap_cons.
    rewrite <- Permutation_middle. rewrite Hi. reflexivity.
  - apply sort_is_sorted. intros y Hy.
    apply elem_of_app in Hy as [Hy|Hy].
    + apply Hfin. apply elem_of_app. left. exact Hy.
    + apply elem_of_cons in Hy as [-> | Hy]; [eexists; reflexivity|].
      apply Hfin. apply elem_of_app. right. right. exact Hy.
Qed.

Lemma updatePriority_present_witness :
  ∃ q1 i q2,
    [((0, 0), Fin 3); ((0, 1), Fin 5)] = q1 ++ i :: q2 ∧ val i = (0, 1)
    ∧ hasNode 0 1 q1 = false
    ∧ updatePriority 0 1 (Fin 1) [((0, 0), Fin 3); ((0, 1), Fin 5)]
      ≡ₚ ((0, 1), Fin 1) :: q1 ++ q2
    ∧ val <$> updatePriority 0 1 (Fin 1) [((0, 0), Fin 3); ((0, 1), Fin 5)]
      ≡ₚ val <$> [((0, 0), Fin 3); ((0, 1), Fin 5)]
    ∧ pq_sorted (updatePriority 0 1 (Fin 1) [((0, 0), Fin 3); ((0, 1), Fin 5)]).
Proof.
  apply (updatePriority_present 0 1 1 [((0, 0), Fin 3); ((0, 1), Fin 5)]).
  - intros x Hx. repeat (apply elem_of_cons in Hx as [-> | Hx]; [eexists; reflexivity|]).
    inversion Hx.
  - reflexivity.
Defined.

(** ** Neighbours and the heuristic *)

(** X5: [getNeighbors] returns, in the order up, down, left, right and
    without repetition, exactly the cells of the grid at Manhattan distance
    one: at most four cells. *)
Theorem getNeighbors_exact (grid : Grid) (p : Coord) :
  sublist (getNeighbors (row p) (col p) grid)
    [(row p - 1, col p); (row p + 1, col p); (row p, col p - 1); (row p, col p + 1)]
  ∧ (∀ q, q ∈ getNeighbors (row p) (col p) grid
          ↔ manhattanDistance p q = 1 ∧ in_bounds grid q)
  ∧ NoDup (getNeighbors (row p) (col p) grid)
  ∧ (length (getNeighbors (row p) (col p) grid) ≤ 4)%nat.
Proof.
  assert (Hsub : sublist (getNeighbors (row p) (col p) grid)
            [(row p - 1, col p); (row p + 1, col p);
             (row p, col p - 1); (row p, col p + 1)]).
  { unfold getNeighbors, directions. cbn [omap list_omap row col fst snd].
    replace (row p + -1) with (row p - 1) by lia.
    replace (col p + -1) with (col p - 1) by lia.
    replace (row p + 0) with (row p) by lia.
    replace (col p + 0) with (col p) by lia.
    repeat match goal with
           | |- context [isValidPosition ?r ?c grid] =>
               destruct (isValidPosition r c grid)
           end;
      repeat first [apply sublist_nil | apply sublist_skip | apply sublist_cons]. }
  split; [exact Hsub|]. split; [apply getNeighbors_spec|].
  split.
  - eapply sublist_NoDup; [|exact Hsub].
    repeat (apply NoDup_cons; split;
            [rewrite ?elem_of_cons, elem_of_nil;
             intros H; repeat destruct H as [H|H]; try (injection H; lia); exact H|]).
    apply NoDup_nil_2.
  - apply sublist_length in Hsub. exact Hsub.
Qed.

(** X6: the heuristic of astar and greedy never exceeds the number of
    moves of a shortest route, and on a grid without walls it is that
    number. *)
Theorem heuristic_admissible (grid : Grid) (s e : Coord) (d : nat) :
  distance grid s e d →
  manhattanDistance s e ≤ Z.of_nat d
  ∧ (valid_grid grid → no_walls grid → in_bounds grid s →
     manhattanDistance s e = Z.of_nat d).
Proof.
  intros Hd. split.
  - destruct Hd as [(l & Hroute & <-) _]. eapply route_manhattan, Hroute.
  - intros Hgrid Hopen Hs.
    assert (He : in_bounds grid e).
    { destruct Hd as [(l & Hroute & _) _]. eapply route_in_bounds; eauto. }
    pose proof (open_distance grid Hgrid Hopen s e Hs He) as Hman.
    rewrite (distance_unique grid s e _ _ Hd Hman).
    pose proof (manhattan_nonneg s e). lia.
Qed.

Lemma heuristic_admissible_witness :
  manhattanDistance (0, 0) (2, 1) ≤ Z.of_nat 3
  ∧ (valid_grid open_3x3 → no_walls open_3x3 → in_bounds open_3x3 (0, 0) →
     manhattanDistance (0, 0) (2, 1) = Z.of_nat 3).
Proof.
  apply (heuristic_admissible open_3x3 (0, 0) (2, 1) 3).
  apply (open_distance open_3x3).
  - apply valid_gridb_ok. reflexivity.
  - intros r c Hr Hc.
    repeat (apply elem_of_cons in Hr as [-> | Hr];
            [repeat (apply elem_of_cons in Hc as [-> | Hc]; [reflexivity|]);
             inversion Hc|]).
    inversion Hr.
  - apply isValidPosition_spec. reflexivity.
  - apply isValidPosition_spec. reflexivity.
Defined.

(** ** What every search returns *)

Lemma route_linked (grid : Grid) (s e : Coord) (l : list Coord) :
  route grid s l e → linked grid (s :: l) ∧ last (s :: l) = Some e.
Proof.
  induction 1 as [|l p q Hroute [IH Hlast] Hstep].
  - split; [|reflexivity]. intros i a b Ha Hb. destruct i; discriminate.
  - split.
    + intros i a b Ha Hb. change (s :: l ++ [q]) with ((s :: l) ++ [q]) in *.
      destruct (decide (S i < length (s :: l))%nat) as [Hlt|Hge].
      * rewrite lookup_app_l in Ha by lia. rewrite lookup_app_l in Hb by lia.
        eapply IH; eauto.
      * assert (Hi : S i = length (s :: l)).
        { apply lookup_lt_Some in Hb. rewrite length_app in Hb. simpl in *. lia. }
        rewrite lookup_app_l in Ha by lia.
        rewrite lookup_app_r in Hb by lia.
        rewrite Hi, Nat.sub_diag in Hb. injection Hb as <-.
        rewrite last_lookup in Hlast.
        replace (Init.Nat.pred (length (s :: l))) with i in Hlast by (simpl in *; lia).
        rewrite Ha in Hlast. injection Hlast as ->. exact Hstep.
    + change (s :: l ++ [q]) with ((s :: l) ++ [q]). apply last_snoc.
Qed.

Lemma linked_prefix (grid : Grid) (l1 l2 : list Coord) :
  linked grid (l1 ++ l2) → linked grid l1.
Proof.
  intros H i p q Hp Hq. apply (H i p q); apply lookup_app_l_Some; assumption.
Qed.

(** Every cell of a chain of predecessors starts a chain to its end. *)
Lemma prev_chain_suffix (prev : Table (option Coord)) (s q x : Coord) (l : list Coord) :
  prev_chain prev s l q → x ∈ s :: l → ∃ l2, prev_chain prev x l2 q.
Proof.
  induction 1 as [|l q p Hchain IH Hlink]; intros Hx.
  - apply list_elem_of_singleton in Hx as ->. exists []. constructor.
  - change (s :: l ++ [p]) with ((s :: l) ++ [p]) in Hx.
    apply elem_of_app in Hx as [Hx|Hx].
    + destruct (IH Hx) as [l2 Hl2]. exists (l2 ++ [p]). econstructor; eauto.
    + apply list_elem_of_singleton in Hx as ->. exists []. constructor.
Qed.

Lemma prev_chain_nodup (prev : Table (option Coord)) (s q : Coord) (l : list Coord) :
  acyclic prev → prev_chain prev s l q → NoDup (s :: l).
Proof.
  intros Hacyc. induction 1 as [|l q p Hchain IH Hlink].
  - apply NoDup_singleton.
  - change (s :: l ++ [p]) with ((s :: l) ++ [p]).
    apply NoDup_app. split; [exact IH|]. split; [|apply NoDup_singleton].
    intros x Hx Hp. apply list_elem_of_singleton in Hp as ->.
    destruct (prev_chain_suffix prev s q p l Hchain Hx) as [l2 Hl2].
    apply (Hacyc p (l2 ++ [p])); [|econstructor; eauto].
    intros Habs. apply app_eq_nil in Habs as [_ Habs]. discriminate.
Qed.

(** The run of [a] once its main loop has ended with [vis] and [prev]. *)
Lemma run_after_search (a : Algorithm) (grid : Grid) (s e : Coord)
    (vis : list Coord) (prev : Table (option Coord)) :
  valid_grid grid →
  search a (budget grid) grid s e = Ret (vis, prev) →
  match getNodesInShortestPathOrder (budget grid) prev e with
  | Ret path => ∃ r, run a (Some grid) (Some s) (Some e) = Ret r
                     ∧ visitedNodesInOrder r = vis ∧ shortestPath r = path
  | Throws => run a (Some grid) (Some s) (Some e) = Throws
  | NoFuel => run a (Some grid) (Some s) (Some e) = NoFuel
  end.
Proof.
  intros Hgrid Hsearch. rewrite (run_valid a grid s e Hgrid).
  destruct a; unfold search in Hsearch;
    unfold dijkstra_run, frontier_run, astar_run, greedy_run;
    [destruct (dijkstra_search _ _ _ _) as [st| |]
    |destruct (frontier_search _ _ _ _ _) as [st| |]
    |destruct (frontier_search _ _ _ _ _) as [st| |]
    |destruct (astar_search _ _ _ _) as [st| |]
    |destruct (greedy_search _ _ _ _) as [st| |]];
    cbn [mbind outcome_bind] in Hsearch; try discriminate;
    injection Hsearch as <- <-; cbn [mbind outcome_bind];
    destruct (getNodesInShortestPathOrder _ _ _); cbn [mbind outcome_bind];
    try reflexivity; eexists; (split; [reflexivity|split; reflexivity]).
Qed.

Section Searches.
Context (grid : Grid) (Hgrid : valid_grid grid) (s e : Coord).
Context (Hs : in_bounds grid s) (He : in_bounds grid e).

(** X7: every search visits the start first, and after it only cells of
    the grid that are not walls and that a route from the start reaches. *)
Theorem visited_from_start (a : Algorithm) :
  ∃ r, run a (Some grid) (Some s) (Some e) = Ret r
    ∧ head (visitedNodesInOrder r) = Some s
    ∧ (∀ p, p ∈ visitedNodesInOrder r → in_bounds grid p ∧ reachable grid s p)
    ∧ (∀ p, p ∈ visitedNodesInOrder r → p ≠ s → cell_isWall grid p = Ret false).
Proof using Hgrid Hs He.
  destruct (run_returns grid Hgrid s e Hs He a)
    as (vis & prev & path & r & Hsearch & Hfin & Hpath & Hrun & Hv & Hp).
  exists r. split; [exact Hrun|]. rewrite Hv.
  pose proof Hfin as (fr & pending & Hinv & Hend).
  split; [|split].
  - pose proof (final_start grid s e vis prev Hfin) as Hin.
    destruct vis as [|p vis]; [inversion Hin|]. simpl. f_equal.
    eapply search_inv_first; [exact Hinv|reflexivity].
  - intros p Hin. split.
    + eapply final_in_bounds; eauto.
    + eapply final_reachable; eauto.
  - intros p Hin Hne.
    destruct (si_prev_some _ _ _ _ _ _ Hinv p) as [q Hq]; [|exact Hne|].
    { apply elem_of_app. left. exact Hin. }
    destruct (si_prev_edge _ _ _ _ _ _ Hinv p q Hq) as ((_ & _ & Hwall) & _).
    exact Hwall.
Qed.

(** X8: a search visits the end exactly when a route from the start
    reaches it, the end is then the last cell visited, and the returned
    path is non-empty exactly when the end is reached and is not the
    start. *)
Theorem end_visited_iff_reachable (a : Algorithm) :
  ∃ r, run a (Some grid) (Some s) (Some e) = Ret r
    ∧ (e ∈ visitedNodesInOrder r ↔ reachable grid s e)
    ∧ (e ∈ visitedNodesInOrder r → last (visitedNodesInOrder r) = Some e)
    ∧ (shortestPath r ≠ [] ↔ reachable grid s e ∧ e ≠ s).
Proof using Hgrid Hs He.
  destruct (run_returns grid Hgrid s e Hs He a)
    as (vis & prev & path & r & Hsearch & Hfin & Hpath & Hrun & Hv & Hp).
  exists r. split; [exact Hrun|]. rewrite Hv, Hp.
  split; [|split].
  - split; [eapply final_reachable; eauto|eapply final_found; eauto].
  - eapply final_last; eauto.
  - pose proof (final_length grid s e vis prev Hfin) as Hlen.
    destruct (final_path grid s e He vis prev (budget grid) Hfin Hlen)
      as (path' & Hpath' & Hshape).
    rewrite Hpath in Hpath'. injection Hpath' as <-.
    destruct Hshape as [(-> & Hq & Hcase)|(l & q & -> & Hq & Hc & Hroute & Hn & Hlast)].
    + split; [done|]. intros [Hreach Hne]. exfalso.
      destruct Hcase as [->|Hnin]; [done|].
      apply Hnin. eapply final_found; eauto.
    + split; [|discriminate]. intros _. split; [eexists; exact Hroute|].
      intros ->. apply Hn. left.
Qed.

(** X9: when no route reaches the end, a search visits every cell that a
    route from the start reaches, and no other. *)
Theorem unreachable_end_exhausts (a : Algorithm) :
  ¬ reachable grid s e →
  ∃ r, run a (Some grid) (Some s) (Some e) = Ret r
    ∧ ∀ p, p ∈ visitedNodesInOrder r ↔ reachable grid s p.
Proof using Hgrid Hs He.
  intros Hno.
  destruct (run_returns grid Hgrid s e Hs He a)
    as (vis & prev & path & r & Hsearch & Hfin & Hpath & Hrun & Hv & Hp).
  exists r. split; [exact Hrun|]. rewrite Hv. intros p. split.
  - eapply final_reachable; eauto.
  - intros Hreach. destruct Hfin as (fr & pending & Hinv & [Hlast|(-> & -> & _)]).
    + exfalso. apply Hno. eapply search_inv_reachable; [exact Hinv|].
      eapply last_elem_of, Hlast.
    + eapply search_inv_complete; eauto.
Qed.

(** X10: the returned path repeats no cell, consists of visited cells
    other than the end, moves by one step to a cell that is not a wall
    each time, and is shorter than the visited order. *)
Theorem path_is_simple (a : Algorithm) :
  ∃ r, run a (Some grid) (Some s) (Some e) = Ret r
    ∧ NoDup (shortestPath r)
    ∧ (∀ p, p ∈ shortestPath r → p ∈ visitedNodesInOrder r ∧ p ≠ e)
    ∧ linked grid (shortestPath r)
    ∧ (length (shortestPath r) < length (visitedNodesInOrder r))%nat.
Proof using Hgrid Hs He.
  destruct (run_returns grid Hgrid s e Hs He a)
    as (vis & prev & path & r & Hsearch & Hfin & Hpath & Hrun & Hv & Hp).
  exists r. split; [exact Hrun|]. rewrite Hv, Hp.
  pose proof (final_length grid s e vis prev Hfin) as Hlen.
  pose proof (final_start grid s e vis prev Hfin) as Hstart.
  destruct (final_path grid s e He vis prev (budget grid) Hfin Hlen)
    as (path' & Hpath' & Hshape).
  rewrite Hpath in Hpath'. injection Hpath' as <-.
  destruct Hshape as [(-> & _ & _)|(l & q & -> & Hq & Hc & Hroute & Hn & Hlast)].
  { split; [apply NoDup_nil_2|]. split; [intros p Hin; inversion Hin|].
    split; [intros i p q Hi; discriminate|].
    destruct vis; [inversion Hstart|simpl; lia]. }
  pose proof Hfin as (fr & pending & Hinv & _).
  pose proof (search_inv_acyclic grid s vis fr pending prev Hinv) as Hacyc.
  pose proof (prev_chain_nodup prev s e (l ++ [e]) Hacyc Hc) as Hnd.
  change (s :: l ++ [e]) with ((s :: l) ++ [e]) in Hnd.
  apply NoDup_app in Hnd as (Hnd & _ & _).
  assert (Hvis : ∀ p, p ∈ s :: l → p ∈ vis).
  { intros p Hin.
    destruct (prev_chain_suffix prev s e p (l ++ [e]) Hc) as [l2 Hl2].
    { change (s :: l ++ [e]) with ((s :: l) ++ [e]). apply elem_of_app. auto. }
    destruct (prev_chain_index grid s vis fr pending prev Hinv p e l2 Hl2)
      as (i & Hi & _).
    { intros ->. inversion Hl2 as [Heq|l0 q0 p0 _ _ Heq]; subst.
      - apply Hn. exact Hin.
      - apply app_eq_nil in Heq as [_ Heq]. discriminate. }
    eapply list_elem_of_lookup_2, Hi. }
  split; [exact Hnd|]. split; [|split].
  - intros p Hin. split; [auto|]. intros ->. apply Hn. exact Hin.
  - destruct (route_linked grid s e (l ++ [e]) Hroute) as [Hlinked _].
    change (s :: l ++ [e]) with ((s :: l) ++ [e]) in Hlinked.
    eapply linked_prefix, Hlinked.
  - assert (Hsub : (e :: s :: l) ⊆+ vis).
    { apply NoDup_submseteq.
      - apply NoDup_cons. split; [exact Hn|exact Hnd].
      - intros p Hin. apply elem_of_cons in Hin as [-> | Hin]; [|auto].
        eapply last_elem_of, Hlast. }
    apply submseteq_length in Hsub. simpl in *. lia.
Qed.

(** X11: dijkstra and bfs visit the cells by non-decreasing distance from
    the start. *)
Theorem visited_by_distance (a : Algorithm) :
  a = Dijkstra ∨ a = Bfs →
  ∃ r, run a (Some grid) (Some s) (Some e) = Ret r
    ∧ (∀ p, p ∈ visitedNodesInOrder r → ∃ d, distance grid s p d)
    ∧ ∀ i j p q dp dq, (i ≤ j)%nat →
        visitedNodesInOrder r !! i = Some p →
        visitedNodesInOrder r !! j = Some q →
        distance grid s p dp → distance grid s q dq → (dp ≤ dq)%nat.
Proof using Hgrid Hs He.
  intros Ha.
  assert (H : ∃ r fr prev, run a (Some grid) (Some s) (Some e) = Ret r
                ∧ level_inv grid s (visitedNodesInOrder r) fr prev).
  { destruct Ha as [-> | ->]; simpl.
    - destruct (dijkstra_returns grid Hgrid s e Hs He)
        as (st & path & _ & (_ & [fr Hlev] & _) & _ & Hrun).
      eexists _, fr, _. split; [exact Hrun|exact Hlev].
    - destruct (bfs_returns grid Hgrid s e Hs He)
        as (st & path & fr & _ & _ & Hlev & _ & Hrun).
      eexists _, fr, _. split; [exact Hrun|exact Hlev]. }
  destruct H as (r & fr & prev & Hrun & Hlev).
  exists r. split; [exact Hrun|]. split.
  - intros p Hin. eapply li_dist; [exact Hlev|]. apply elem_of_app. auto.
  - intros i j p q dp dq Hij Hi Hj Hdp Hdq.
    eapply (li_sorted _ _ _ _ _ Hlev i j p q dp dq Hij); eauto;
      apply lookup_app_l_Some; assumption.
Qed.
End Searches.

Lemma blocked_corridor_unreachable : ¬ reachable blocked_corridor (0, 0) (0, 2).
Proof.
  apply (unreachable_by_search Bfs blocked_corridor (0, 0) (0, 2) [(0, 0)]
           (mkTable 1 (gset_to_gmap None (list_to_set (cells_of 1 3))))).
  - apply valid_gridb_ok. reflexivity.
  - apply isValidPosition_spec. reflexivity.
  - vm_compute. reflexivity.
  - apply (bool_decide_unpack _). vm_compute. exact I.
Qed.

Lemma visited_from_start_witness :
  ∃ r, run Dfs (Some detour_grid) (Some (1, 8)) (Some (1, 0)) = Ret r
    ∧ head (visitedNodesInOrder r) = Some (1, 8)
    ∧ (∀ p, p ∈ visitedNodesInOrder r →
         in_bounds detour_grid p ∧ reachable detour_grid (1, 8) p)
    ∧ (∀ p, p ∈ visitedNodesInOrder r → p ≠ (1, 8) →
         cell_isWall detour_grid p = Ret false).
Proof.
  apply (visited_from_start detour_grid).
  - apply valid_gridb_ok. reflexivity.
  - apply isValidPosition_spec. reflexivity.
  - apply isValidPosition_spec. reflexivity.
Defined.

Lemma end_visited_iff_reachable_witness :
  ∃ r, run Greedy (Some detour_grid) (Some (1, 8)) (Some (1, 0)) = Ret r
    ∧ (((1, 0) : Coord) ∈ visitedNodesInOrder r ↔ reachable detour_grid (1, 8) (1, 0))
    ∧ (((1, 0) : Coord) ∈ visitedNodesInOrder r →
       last (visitedNodesInOrder r) = Some (1, 0))
    ∧ (shortestPath r ≠ [] ↔ reachable detour_grid (1, 8) (1, 0) ∧ (1, 0) ≠ (1, 8)).
Proof.
  apply (end_visited_iff_reachable detour_grid).
  - apply valid_gridb_ok. reflexivity.
  - apply isValidPosition_spec. reflexivity.
  - apply isValidPosition_spec. reflexivity.
Defined.

Lemma unreachable_end_exhausts_witness :
  ∃ r, run Astar (Some blocked_corridor) (Some (0, 0)) (Some (0, 2)) = Ret r
    ∧ ∀ p, p ∈ visitedNodesInOrder r ↔ reachable blocked_corridor (0, 0) p.
Proof.
  apply (unreachable_end_exhausts blocked_corridor).
  - apply valid_gridb_ok. reflexivity.
  - apply isValidPosition_spec. reflexivity.
  - apply isValidPosition_spec. reflexivity.
  - exact blocked_corridor_unreachable.
Defined.

Lemma path_is_simple_witness :
  ∃ r, run Astar (Some detour_grid) (Some (1, 8)) (Some (1, 0)) = Ret r
    ∧ NoDup (shortestPath r)
    ∧ (∀ p, p ∈ shortestPath r → p ∈ visitedNodesInOrder r ∧ p ≠ (1, 0))
    ∧ linked detour_grid (shortestPath r)
    ∧ (length (shortestPath r) < length (visitedNodesInOrder r))%nat.
Proof.
  apply (path_is_simple detour_grid).
  - apply valid_gridb_ok. reflexivity.
  - apply isValidPosition_spec. reflexivity.
  - apply isValidPosition_spec. reflexivity.
Defined.

Lemma visited_by_distance_witness :
  ∃ r, run Bfs (Some open_3x3) (Some (0, 0)) (Some (2, 2)) = Ret r
    ∧ (∀ p, p ∈ visitedNodesInOrder r → ∃ d, distance open_3x3 (0, 0) p d)
    ∧ ∀ i j p q dp dq, (i ≤ j)%nat →
        visitedNodesInOrder r !! i = Some p →
        visitedNodesInOrder r !! j = Some q →
        distance open_3x3 (0, 0) p dp → distance open_3x3 (0, 0) q dq →
        (dp ≤ dq)%nat.
Proof.
  apply (visited_by_distance open_3x3).
  - apply valid_gridb_ok. reflexivity.
  - apply isValidPosition_spec. reflexivity.
  - apply isValidPosition_spec. reflexivity.
  - right. reflexivity.
Defined.

(** ** Positions outside the grid *)

Lemma tset_outside {A} (rows cols : nat) (x v : A) (p : Coord) :
  ¬ (0 ≤ row p < Z.of_nat rows) → tset (new_table rows cols x) p v = Throws.
Proof.
  intros H. unfold tset, in_rows.
  replace (t_rows (new_table rows cols x)) with (Z.of_nat rows) by reflexivity.
  rewrite bool_decide_eq_false_2 by exact H. reflexivity.
Qed.

(** X12: with a start whose row is outside the grid, dijkstra, bfs, dfs
    and astar throw when they mark the start in their tables. *)
Theorem start_row_outside_throws (a : Algorithm) (grid : Grid) (s e : Coord) :
  a ≠ Greedy → valid_grid grid → ¬ (0 ≤ row s < grid_rows grid) →
  run a (Some grid) (Some s) (Some e) = Throws.
Proof.
  intros Ha Hgrid Hrow. rewrite (run_valid a grid s e Hgrid).
  destruct a; [| | | |done];
    unfold dijkstra_run, dijkstra_search, dijkstra_init,
      frontier_run, frontier_search, frontier_init,
      astar_run, astar_search, astar_init;
    cbv zeta; rewrite !tset_outside by exact Hrow; reflexivity.
Qed.

Lemma start_row_outside_throws_witness :
  run Bfs (Some open_3x3) (Some (3, 0)) (Some (2, 2)) = Throws.
Proof.
  apply (start_row_outside_throws Bfs open_3x3 (3, 0) (2, 2)).
  - discriminate.
  - apply valid_gridb_ok. reflexivity.
  - unfold row, grid_rows. simpl. lia.
Defined.

(** X13: with an end whose row is outside the grid, every search runs its
    loop to the end and then throws in the path reconstruction, at the read
    of the predecessor of the end. *)
Theorem end_row_outside_throws (a : Algorithm) (grid : Grid) (s e : Coord) :
  valid_grid grid → in_bounds grid s → ¬ (0 ≤ row e < grid_rows grid) →
  (∃ vis prev, search a (budget grid) grid s e = Ret (vis, prev))
  ∧ run a (Some grid) (Some s) (Some e) = Throws.
Proof.
  intros Hgrid Hs Hrow.
  destruct (search_final_of grid Hgrid s e Hs a (budget grid))
    as (vis & prev & Hsearch & Hfin); [lia|].
  split; [eauto|].
  pose proof (run_after_search a grid s e vis prev Hgrid Hsearch) as Hrun.
  destruct Hfin as (fr & pending & Hinv & _).
  assert (Hpath : getNodesInShortestPathOrder (budget grid) prev e = Throws).
  { unfold getNodesInShortestPathOrder, tget, in_rows.
    rewrite (si_rows _ _ _ _ _ _ Hinv).
    rewrite bool_decide_eq_false_2 by exact Hrow. reflexivity. }
  rewrite Hpath in Hrun. exact Hrun.
Qed.

Lemma end_row_outside_throws_witness :
  (∃ vis prev, search Greedy (budget open_3x3) open_3x3 (0, 0) (3, 0) = Ret (vis, prev))
  ∧ run Greedy (Some open_3x3) (Some (0, 0)) (Some (3, 0)) = Throws.
Proof.
  apply (end_row_outside_throws Greedy open_3x3 (0, 0) (3, 0)).
  - apply valid_gridb_ok. reflexivity.
  - apply isValidPosition_spec. reflexivity.
  - unfold row, grid_rows. simpl. lia.
Defined.

(** ** Building and clearing the grid *)

Lemma cell_at_fmap (f : GridCell → GridCell) (grid : CellGrid) (p : Coord) :
  cell_at ((λ r : list GridCell, f <$> r) <$> grid) p = f <$> cell_at grid p.
Proof.
  unfold cell_at, zlookup.
  destruct (bool_decide (0 ≤ row p)); [|reflexivity].
  rewrite list_lookup_fmap.
  destruct (grid !! Z.to_nat (row p)) as [r|]; simpl; [|reflexivity].
  destruct (bool_decide (0 ≤ col p)); [|reflexivity].
  apply list_lookup_fmap.
Qed.

Lemma createGridWithWalls_row (rows cols : Z) (i : nat) :
  createGridWithWalls rows cols !! i
  = if bool_decide (Z.of_nat i < rows)
    then Some ((λ c, mkGridCell (Z.of_nat i) c false false false false false false false)
                 <$> seqZ 0 cols)
    else None.
Proof.
  unfold createGridWithWalls. rewrite list_lookup_fmap.
  case_bool_decide as Hi.
  - rewrite lookup_seqZ_lt by lia. simpl. reflexivity.
  - rewrite lookup_seqZ_ge by lia. reflexivity.
Qed.

Lemma createGridWithWalls_cell_at (rows cols : Z) (p : Coord) :
  cell_at (createGridWithWalls rows cols) p
  = if bool_decide (0 ≤ row p < rows ∧ 0 ≤ col p < cols)
    then Some (mkGridCell (row p) (col p) false false false false false false false)
    else None.
Proof.
  unfold cell_at, zlookup.
  destruct (decide (0 ≤ row p < rows ∧ 0 ≤ col p < cols)) as [Hin|Hin].
  - rewrite (bool_decide_eq_true_2 _ Hin).
    destruct Hin as [[Hr0 Hr1] [Hc0 Hc1]].
    rewrite bool_decide_eq_true_2 by exact Hr0.
    rewrite createGridWithWalls_row.
    rewrite bool_decide_eq_true_2 by lia.
    rewrite bool_decide_eq_true_2 by exact Hc0.
    rewrite list_lookup_fmap, lookup_seqZ_lt by lia. simpl.
    rewrite !Z2Nat.id by lia. reflexivity.
  - rewrite (bool_decide_eq_false_2 _ Hin).
    case_bool_decide as Hr0; [|reflexivity].
    rewrite createGridWithWalls_row.
    case_bool_decide as Hr1; [|reflexivity].
    case_bool_decide as Hc0; [|reflexivity].
    rewrite list_lookup_fmap, lookup_seqZ_ge; [reflexivity|].
    rewrite Z2Nat.id in Hr1 by lia. rewrite Z2Nat.id by lia. lia.
Qed.

(** X14: [createGridWithWalls rows cols] has [rows] rows of [cols] cells;
    the cell of row [i] and column [j] carries these coordinates and no
    flag; there is no cell at any other position. *)
Theorem createGridWithWalls_cells (rows cols : Z) :
  length (createGridWithWalls rows cols) = Z.to_nat rows
  ∧ (∀ r, r ∈ createGridWithWalls rows cols → length r = Z.to_nat cols)
  ∧ ∀ p, cell_at (createGridWithWalls rows cols) p
         = if bool_decide (0 ≤ row p < rows ∧ 0 ≤ col p < cols)
           then Some (mkGridCell (row p) (col p)
                        false false false false false false false)
           else None.
Proof.
  split; [|split].
  - unfold createGridWithWalls. rewrite length_fmap, length_seqZ. reflexivity.
  - intros r Hr. unfold createGridWithWalls in Hr.
    apply list_elem_of_fmap in Hr as (i & -> & _).
    rewrite length_fmap, length_seqZ. reflexivity.
  - apply createGridWithWalls_cell_at.
Qed.

Lemma search_grid_lookup (grid : CellGrid) (i : nat) :
  search_grid grid !! i = (λ r : list GridCell, search_cell <$> r) <$> grid !! i.
Proof. unfold search_grid. apply list_lookup_fmap. Qed.

(** X15: for positive sizes the grid built by [createGridWithWalls] is a
    valid grid of these sizes for the searches and has no wall. *)
Theorem createGridWithWalls_open (rows cols : Z) :
  0 < rows → 0 < cols →
  valid_grid (search_grid (createGridWithWalls rows cols))
  ∧ no_walls (search_grid (createGridWithWalls rows cols))
  ∧ grid_rows (search_grid (createGridWithWalls rows cols)) = rows
  ∧ grid_cols (search_grid (createGridWithWalls rows cols)) = cols.
Proof.
  intros Hrows Hcols.
  assert (Hlen : length (search_grid (createGridWithWalls rows cols)) = Z.to_nat rows).
  { unfold search_grid, createGridWithWalls.
    rewrite !length_fmap, length_seqZ. reflexivity. }
  assert (Hrow : ∀ r, r ∈ search_grid (createGridWithWalls rows cols) →
                   Z.of_nat (length r) = cols ∧ ∀ c, c ∈ r → isWall c = false).
  { intros r Hr. unfold search_grid, createGridWithWalls in Hr.
    apply list_elem_of_fmap in Hr as (r' & -> & Hr').
    apply list_elem_of_fmap in Hr' as (i & -> & _). split.
    - rewrite !length_fmap, length_seqZ. lia.
    - intros c Hc. apply list_elem_of_fmap in Hc as (c' & -> & Hc').
      apply list_elem_of_fmap in Hc' as (j & -> & _). reflexivity. }
  assert (Hcols' : grid_cols (search_grid (createGridWithWalls rows cols)) = cols).
  { unfold grid_cols. rewrite search_grid_lookup, createGridWithWalls_row.
    rewrite bool_decide_eq_true_2 by lia. simpl.
    rewrite !length_fmap, length_seqZ. lia. }
  split; [|split; [|split]].
  - split; [rewrite Hlen; lia|]. split; [rewrite Hcols'; exact Hcols|].
    intros r Hr. rewrite Hcols'. apply Hrow, Hr.
  - intros r c Hr Hc. eapply Hrow; eauto.
  - unfold grid_rows. rewrite Hlen. lia.
  - exact Hcols'.
Qed.

Lemma createGridWithWalls_open_witness :
  valid_grid (search_grid (createGridWithWalls 20 50))
  ∧ no_walls (search_grid (createGridWithWalls 20 50))
  ∧ grid_rows (search_grid (createGridWithWalls 20 50)) = 20
  ∧ grid_cols (search_grid (createGridWithWalls 20 50)) = 50.
Proof. apply (createGridWithWalls_open 20 50); lia. Defined.

(** X16: when a size is not positive the grid built by
    [createGridWithWalls] has no cell, and every search answers it with its
    empty result. *)
Theorem createGridWithWalls_degenerate (a : Algorithm) (rows cols : Z)
    (start end_ : option Coord) :
  rows ≤ 0 ∨ cols ≤ 0 →
  (∀ p, cell_at (createGridWithWalls rows cols) p = None)
  ∧ run a (Some (search_grid (createGridWithWalls rows cols))) start end_
    = Ret (empty_of a).
Proof.
  intros Hsize. split.
  - intros p. rewrite createGridWithWalls_cell_at.
    rewrite bool_decide_eq_false_2 by lia. reflexivity.
  - assert (Hrej : rejects (Some (search_grid (createGridWithWalls rows cols)))
                     start end_ = true).
    { unfold rejects. rewrite search_grid_lookup, createGridWithWalls_row.
      unfold search_grid, createGridWithWalls.
      rewrite !length_fmap, length_seqZ.
      destruct (decide (rows ≤ 0)) as [Hr|Hr].
      - rewrite bool_decide_eq_true_2 by lia. reflexivity.
      - rewrite (bool_decide_eq_false_2 (Z.to_nat rows = 0%nat)) by lia.
        rewrite bool_decide_eq_true_2 by lia. simpl.
        rewrite !length_fmap, length_seqZ.
        rewrite bool_decide_eq_true_2 by lia. reflexivity. }
    destruct a, start, end_; unfold run, dijkstra, bfs, dfs, astar, greedy;
      cbv beta iota; try rewrite Hrej; reflexivity.
Qed.

Lemma createGridWithWalls_degenerate_witness :
  (∀ p, cell_at (createGridWithWalls 3 0) p = None)
  ∧ run Dijkstra (Some (search_grid (createGridWithWalls 3 0))) (Some (0, 0)) (Some (1, 1))
    = Ret (empty_of Dijkstra).
Proof.
  apply (createGridWithWalls_degenerate Dijkstra 3 0 (Some (0, 0)) (Some (1, 1))).
  right. lia.
Defined.

Lemma clear_cell_view (cell : GridCell) : search_cell (clear_cell cell) = search_cell cell.
Proof. reflexivity. Qed.

(** X17: [clearGrid] resets the four display flags of every cell and
    keeps the rest: clearing twice is clearing once, and a search on the
    cleared grid is the same search. *)
Theorem clearGrid_keeps_search (grid : CellGrid) :
  (∀ p, cell_at (clearGrid grid) p = clear_cell <$> cell_at grid p)
  ∧ clearGrid (clearGrid grid) = clearGrid grid
  ∧ search_grid (clearGrid grid) = search_grid grid
  ∧ ∀ a start end_,
      run a (Some (search_grid (clearGrid grid))) start end_
      = run a (Some (search_grid grid)) start end_.
Proof.
  assert (Hview : search_grid (clearGrid grid) = search_grid grid).
  { unfold search_grid, clearGrid. rewrite <- list_fmap_compose.
    apply list_fmap_ext. intros i r _. simpl. rewrite <- list_fmap_compose.
    apply list_fmap_ext. intros j cell _. reflexivity. }
  split; [intros p; apply cell_at_fmap|]. split; [|split; [exact Hview|]].
  - unfold clearGrid. rewrite <- list_fmap_compose.
    apply list_fmap_ext. intros i r _. simpl. rewrite <- list_fmap_compose.
    apply list_fmap_ext. intros j cell _. reflexivity.
  - intros a start end_. rewrite Hview. reflexivity.
Qed.

(** ** Looking for the start and the end *)

Lemma cell_at_Some (grid : CellGrid) (p : Coord) (cell : GridCell) :
  cell_at grid p = Some cell ↔
  0 ≤ row p ∧ 0 ≤ col p
  ∧ ∃ r, grid !! Z.to_nat (row p) = Some r ∧ r !! Z.to_nat (col p) = Some cell.
Proof.
  unfold cell_at, zlookup. split.
  - case_bool_decide as Hr; [|discriminate].
    destruct (grid !! Z.to_nat (row p)) as [r|]; [|discriminate].
    case_bool_decide as Hc; [|discriminate]. eauto.
  - intros (Hr & Hc & r & -> & Hcell).
    rewrite !bool_decide_eq_true_2 by assumption. exact Hcell.
Qed.

Lemma cell_at_map_cells (f : Z → Z → GridCell → GridCell) (grid : CellGrid) (p : Coord) :
  cell_at (map_cells f grid) p = f (row p) (col p) <$> cell_at grid p.
Proof.
  unfold cell_at, zlookup, map_cells.
  case_bool_decide as Hr; [|reflexivity].
  rewrite list_lookup_imap.
  destruct (grid !! Z.to_nat (row p)) as [r|]; simpl; [|reflexivity].
  case_bool_decide as Hc; [|reflexivity].
  rewrite list_lookup_imap. rewrite !Z2Nat.id by assumption. reflexivity.
Qed.

Lemma seqZ_sorted (m n : Z) : StronglySorted Z.lt (seqZ m n).
Proof.
  remember (Z.to_nat n) as k eqn:Hk. revert m n Hk.
  induction k as [|k IH]; intros m n Hk.
  - rewrite seqZ_nil by lia. constructor.
  - rewrite seqZ_cons by lia. constructor.
    + apply IH. lia.
    + apply Forall_forall. intros x Hx. apply elem_of_seqZ in Hx. lia.
Qed.

Lemma row_cells_sorted (r : Z) (cols : nat) :
  StronglySorted scanned_before ((seqZ 0 (Z.of_nat cols)) ≫= λ c, [(r, c)]).
Proof.
  pose proof (seqZ_sorted 0 (Z.of_nat cols)) as H.
  induction H as [|c l Hl IH Hc]; simpl; [constructor|].
  constructor; [exact IH|].
  apply Forall_forall. intros q Hq.
  apply list_elem_of_bind in Hq as (c' & Hq & Hc').
  apply list_elem_of_singleton in Hq as ->.
  rewrite Forall_forall in Hc. right. unfold row, col. simpl.
  split; [reflexivity|]. apply Hc, Hc'.
Qed.

Lemma cells_of_sorted (rows cols : nat) :
  StronglySorted scanned_before (cells_of rows cols).
Proof.
  unfold cells_of. pose proof (seqZ_sorted 0 (Z.of_nat rows)) as H.
  induction H as [|r l Hl IH Hr]; simpl; [constructor|].
  apply StronglySorted_app. split; [|split; [apply row_cells_sorted|exact IH]].
  intros p q Hp Hq.
  apply list_elem_of_bind in Hp as (c & Hp & _).
  apply list_elem_of_singleton in Hp as ->.
  apply list_elem_of_bind in Hq as (r' & Hq & Hr').
  apply list_elem_of_bind in Hq as (c' & Hq & _).
  apply list_elem_of_singleton in Hq as ->.
  rewrite Forall_forall in Hr. left. unfold row. simpl. apply Hr, Hr'.
Qed.

Lemma scanned_before_irrefl (p : Coord) : ¬ scanned_before p p.
Proof. unfold scanned_before. lia. Qed.

Lemma scanned_before_asym (p q : Coord) : scanned_before p q → ¬ scanned_before q p.
Proof. unfold scanned_before. lia. Qed.

(** On a rectangular grid the loops go through the positions of the
    cells. *)
Lemma scan_order_cells (grid : CellGrid) (p : Coord) :
  rectangular grid → p ∈ scan_order grid ↔ is_Some (cell_at grid p).
Proof.
  intros Hrect. unfold scan_order. rewrite elem_of_cells_of. split.
  - intros [[Hr0 Hr1] [Hc0 Hc1]].
    destruct (lookup_lt_is_Some_2 grid (Z.to_nat (row p))) as [r Hr]; [lia|].
    pose proof (Hrect r (list_elem_of_lookup_2 _ _ _ Hr)) as Hlen.
    destruct (grid !! 0%nat) as [r0|]; [|discriminate]. injection Hlen as Hlen.
    destruct (lookup_lt_is_Some_2 r (Z.to_nat (col p))) as [cell Hcell]; [lia|].
    exists cell. apply cell_at_Some. eauto 6.
  - intros [cell Hcell]. apply cell_at_Some in Hcell as (Hr0 & Hc0 & r & Hr & Hcell).
    pose proof (Hrect r (list_elem_of_lookup_2 _ _ _ Hr)) as Hlen.
    apply lookup_lt_Some in Hr, Hcell.
    destruct (grid !! 0%nat) as [r0|]; [|discriminate]. injection Hlen as Hlen.
    lia.
Qed.

Lemma find_flag_split (flag : GridCell → bool) (grid : CellGrid) (ps : list Coord) :
  (∀ p, p ∈ ps → is_Some (cell_at grid p)) →
  ∃ res, find_flag flag grid ps = Ret res
    ∧ match res with
      | Some p => ∃ l1 l2 cell, ps = l1 ++ p :: l2
          ∧ cell_at grid p = Some cell ∧ flag cell = true
          ∧ ∀ q cq, q ∈ l1 → cell_at grid q = Some cq → flag cq = false
      | None => ∀ q cq, q ∈ ps → cell_at grid q = Some cq → flag cq = false
      end.
Proof.
  induction ps as [|p ps IH]; intros Hcells; simpl.
  - exists None. split; [reflexivity|]. intros q cq Hq. inversion Hq.
  - destruct (Hcells p) as [cell Hcell]; [left|]. rewrite Hcell.
    destruct (flag cell) eqn:Hflag.
    + exists (Some p). split; [reflexivity|]. exists [], ps, cell.
      split; [reflexivity|]. split; [exact Hcell|]. split; [exact Hflag|].
      intros q cq Hq. inversion Hq.
    + destruct IH as (res & Hres & Hspec).
      { intros q Hq. apply Hcells. right. exact Hq. }
      exists res. split; [exact Hres|]. destruct res as [p'|].
      * destruct Hspec as (l1 & l2 & cell' & -> & Hcell' & Hflag' & Hbefore).
        exists (p :: l1), l2, cell'. split; [reflexivity|].
        split; [exact Hcell'|]. split; [exact Hflag'|].
        intros q cq Hq Hcq. apply elem_of_cons in Hq as [-> | Hq]; [congruence|eauto].
      * intros q cq Hq Hcq. apply elem_of_cons in Hq as [-> | Hq]; [congruence|eauto].
Qed.

(** What the loops return on a rectangular grid. *)
Lemma find_flag_first (flag : GridCell → bool) (grid : CellGrid) :
  rectangular grid →
  ∃ res, find_flag flag grid (scan_order grid) = Ret res
    ∧ match res with
      | Some p => (∃ cell, cell_at grid p = Some cell ∧ flag cell = true)
          ∧ ∀ q cq, scanned_before q p → cell_at grid q = Some cq → flag cq = false
      | None => ∀ q cq, cell_at grid q = Some cq → flag cq = false
      end.
Proof.
  intros Hrect.
  destruct (find_flag_split flag grid (scan_order grid)) as (res & Hres & Hspec).
  { intros p Hp. apply scan_order_cells; assumption. }
  exists res. split; [exact Hres|]. destruct res as [p|].
  - destruct Hspec as (l1 & l2 & cell & Hsplit & Hcell & Hflag & Hbefore).
    split; [eauto|]. intros q cq Hq Hcq.
    assert (Hin : q ∈ scan_order grid) by (apply scan_order_cells; eauto).
    pose proof (cells_of_sorted (length grid)
                  (match grid !! 0%nat with Some r0 => length r0 | None => 0%nat end))
      as Hsorted.
    fold (scan_order grid) in Hsorted. rewrite Hsplit in Hin, Hsorted.
    apply StronglySorted_app in Hsorted as (H12 & _ & H2).
    apply StronglySorted_inv in H2 as [_ H2]. rewrite Forall_forall in H2.
    apply elem_of_app in Hin as [Hin|Hin]; [eauto|].
    apply elem_of_cons in Hin as [-> | Hin].
    + destruct (scanned_before_irrefl _ Hq).
    + destruct (scanned_before_asym _ _ Hq). apply H2, Hin.
  - intros q cq Hcq. apply (Hspec q cq); [|exact Hcq].
    apply scan_order_cells; eauto.
Qed.

(** X18: on a rectangular grid [findStart] returns the position of the
    first cell, row by row, whose [isStart] is set, and [null] when no cell
    has it set; [findEnd] does the same with [isEnd]. *)
Theorem findStart_findEnd_first (grid : CellGrid) :
  rectangular grid →
  (∃ res, findStart grid = Ret res
     ∧ match res with
       | Some p => (∃ cell, cell_at grid p = Some cell ∧ gc_isStart cell = true)
           ∧ ∀ q cq, scanned_before q p → cell_at grid q = Some cq →
               gc_isStart cq = false
       | None => ∀ q cq, cell_at grid q = Some cq → gc_isStart cq = false
       end)
  ∧ (∃ res, findEnd grid = Ret res
       ∧ match res with
         | Some p => (∃ cell, cell_at grid p = Some cell ∧ gc_isEnd cell = true)
             ∧ ∀ q cq, scanned_before q p → cell_at grid q = Some cq →
                 gc_isEnd cq = false
         | None => ∀ q cq, cell_at grid q = Some cq → gc_isEnd cq = false
         end).
Proof.
  intros Hrect. split; apply find_flag_first; exact Hrect.
Qed.

(** ** Editing the grid *)

Lemma map_cells_lookup (f : Z → Z → GridCell → GridCell) (grid : CellGrid) (i : nat) :
  map_cells f grid !! i
  = (λ r, imap (λ j cell, f (Z.of_nat i) (Z.of_nat j) cell) r) <$> grid !! i.
Proof. unfold map_cells. rewrite list_lookup_imap. reflexivity. Qed.

Lemma rectangular_map_cells (f : Z → Z → GridCell → GridCell) (grid : CellGrid) :
  rectangular grid → rectangular (map_cells f grid).
Proof.
  intros Hrect r Hr. apply list_elem_of_lookup_1 in Hr as [i Hi].
  rewrite map_cells_lookup in Hi. rewrite map_cells_lookup.
  destruct (grid !! i) as [r'|] eqn:Hr'; [|discriminate]. injection Hi as <-.
  pose proof (Hrect r' (list_elem_of_lookup_2 _ _ _ Hr')) as Hlen.
  destruct (grid !! 0%nat) as [r0|]; [|discriminate]. simpl in *.
  rewrite !length_imap. exact Hlen.
Qed.

Lemma scan_order_map_cells (f : Z → Z → GridCell → GridCell) (grid : CellGrid) :
  scan_order (map_cells f grid) = scan_order grid.
Proof.
  unfold scan_order. rewrite map_cells_lookup.
  unfold map_cells at 1. rewrite length_imap.
  destruct (grid !! 0%nat); simpl; [rewrite length_imap|]; reflexivity.
Qed.

Lemma find_flag_map_cells (flag : GridCell → bool)
    (f : Z → Z → GridCell → GridCell) (grid : CellGrid) (ps : list Coord) :
  (∀ i j cell, flag (f i j cell) = flag cell) →
  find_flag flag (map_cells f grid) ps = find_flag flag grid ps.
Proof.
  intros Hflag. induction ps as [|p ps IH]; simpl; [reflexivity|].
  rewrite cell_at_map_cells. destruct (cell_at grid p) as [cell|]; simpl; [|reflexivity].
  rewrite Hflag, IH. reflexivity.
Qed.

Lemma map_cells_ext (f g : Z → Z → GridCell → GridCell) (grid : CellGrid) :
  (∀ i j cell, f i j cell = g i j cell) → map_cells f grid = map_cells g grid.
Proof.
  intros H. unfold map_cells. apply imap_ext. intros i r _.
  apply imap_ext. intros j cell _. apply H.
Qed.

Lemma map_cells_compose (f g : Z → Z → GridCell → GridCell) (grid : CellGrid) :
  map_cells f (map_cells g grid) = map_cells (λ i j cell, f i j (g i j cell)) grid.
Proof.
  apply list_eq. intros i. rewrite !map_cells_lookup.
  destruct (grid !! i) as [r|]; simpl; [|reflexivity]. f_equal.
  apply list_eq. intros j. rewrite !list_lookup_imap.
  destruct (r !! j); reflexivity.
Qed.

Lemma map_cells_id (grid : CellGrid) : map_cells (λ _ _ cell, cell) grid = grid.
Proof.
  apply list_eq. intros i. rewrite map_cells_lookup.
  destruct (grid !! i) as [r|]; simpl; [|reflexivity]. f_equal.
  apply list_eq. intros j. rewrite list_lookup_imap.
  destruct (r !! j); reflexivity.
Qed.

Lemma clear_wall_cells (grid : CellGrid) (p : Coord) (cell : GridCell) :
  cell_at grid p = Some cell →
  ∃ g', clear_wall grid p = Ret g'
    ∧ ∀ q, cell_at g' q
           = (if bool_decide (q = p) then with_wall false else id) <$> cell_at grid q.
Proof.
  intros Hcell. pose proof Hcell as Hcell'.
  apply cell_at_Some in Hcell' as (Hr0 & Hc0 & r & Hr & Hrc).
  unfold clear_wall, zlookup.
  rewrite (bool_decide_eq_true_2 (0 ≤ row p)) by assumption. rewrite Hr.
  rewrite (bool_decide_eq_true_2 (0 ≤ col p)) by assumption. rewrite Hrc.
  eexists. split; [reflexivity|].
  intros q. unfold cell_at, zlookup.
  destruct (bool_decide (0 ≤ row q)) eqn:Hq0; [|reflexivity].
  apply bool_decide_eq_true in Hq0.
  destruct (decide (Z.to_nat (row p) = Z.to_nat (row q))) as [Hrow|Hrow].
  - rewrite <- Hrow. rewrite list_lookup_insert_eq by (eapply lookup_lt_Some, Hr).
    rewrite Hr.
    destruct (bool_decide (0 ≤ col q)) eqn:Hq1; [|reflexivity].
    apply bool_decide_eq_true in Hq1.
    destruct (decide (Z.to_nat (col p) = Z.to_nat (col q))) as [Hcol|Hcol].
    + rewrite <- Hcol. rewrite list_lookup_insert_eq by (eapply lookup_lt_Some, Hrc).
      rewrite Hrc. rewrite bool_decide_eq_true_2; [reflexivity|].
      destruct p, q. unfold row, col in *. simpl in *. f_equal; lia.
    + rewrite list_lookup_insert_ne by exact Hcol.
      rewrite bool_decide_eq_false_2; [destruct (r !! Z.to_nat (col q)); reflexivity|].
      intros ->. done.
  - rewrite list_lookup_insert_ne by exact Hrow.
    rewrite (bool_decide_eq_false_2 (q = p)).
    + destruct (grid !! Z.to_nat (row q)) as [r'|]; [|reflexivity].
      destruct (bool_decide (0 ≤ col q)); [|reflexivity].
      destruct (r' !! Z.to_nat (col q)); reflexivity.
    + intros ->. done.
Qed.

Lemma clear_wall_found (grid : CellGrid) (o : option Coord) :
  (∀ p, o = Some p → is_Some (cell_at grid p)) →
  ∃ g', match o with Some p => clear_wall grid p | None => Ret grid end = Ret g'
    ∧ ∀ q, cell_at g' q
           = (if bool_decide (o = Some q) then with_wall false else id)
             <$> cell_at grid q.
Proof.
  intros Ho. destruct o as [p|].
  - destruct (Ho p eq_refl) as [cell Hcell].
    destruct (clear_wall_cells grid p cell Hcell) as (g' & Hg' & Hcells).
    exists g'. split; [exact Hg'|]. intros q. rewrite Hcells.
    destruct (decide (q = p)) as [-> | Hne].
    + rewrite !bool_decide_eq_true_2 by reflexivity. reflexivity.
    + rewrite !bool_decide_eq_false_2 by congruence. reflexivity.
  - exists grid. split; [reflexivity|]. intros q.
    rewrite bool_decide_eq_false_2 by discriminate.
    destruct (cell_at grid q); reflexivity.
Qed.

(** The cells of the grid that [generateRandomWalls] returns. *)
Lemma random_walls_cells (draw : Z → Z → bool) (grid : CellGrid) :
  rectangular grid →
  ∃ g' start end_,
    generateRandomWalls draw grid = Ret g'
    ∧ findStart grid = Ret start ∧ findEnd grid = Ret end_
    ∧ ∀ p, cell_at g' p
           = with_wall (if bool_decide (start = Some p ∨ end_ = Some p) then false
                        else draw (row p) (col p))
             <$> cell_at grid p.
Proof.
  intros Hrect.
  destruct (find_flag_first gc_isStart grid Hrect) as (start & Hstart & Hsspec).
  destruct (find_flag_first gc_isEnd grid Hrect) as (end_ & Hend & Hespec).
  set (F := λ i j cell, with_wall (draw i j) cell).
  assert (Hs' : findStart (map_cells F grid) = Ret start).
  { unfold findStart. rewrite scan_order_map_cells.
    rewrite find_flag_map_cells by reflexivity. exact Hstart. }
  assert (He' : findEnd (map_cells F grid) = Ret end_).
  { unfold findEnd. rewrite scan_order_map_cells.
    rewrite find_flag_map_cells by reflexivity. exact Hend. }
  destruct (clear_wall_found (map_cells F grid) start) as (g1 & Hg1 & Hc1).
  { intros p ->. destruct Hsspec as [(cell & Hcell & _) _].
    rewrite cell_at_map_cells, Hcell. eexists. reflexivity. }
  destruct (clear_wall_found g1 end_) as (g2 & Hg2 & Hc2).
  { intros p ->. destruct Hespec as [(cell & Hcell & _) _].
    rewrite Hc1, cell_at_map_cells, Hcell. eexists. reflexivity. }
  exists g2, start, end_. split; [|split; [exact Hstart|split; [exact Hend|]]].
  - unfold generateRandomWalls. fold F. rewrite Hs', He'.
    cbn [mbind outcome_bind]. rewrite Hg1. cbn [mbind outcome_bind]. exact Hg2.
  - intros p. rewrite Hc2, Hc1, cell_at_map_cells.
    destruct (cell_at grid p) as [cell|]; [|reflexivity]. simpl. f_equal.
    unfold F. repeat case_bool_decide; try reflexivity; exfalso; tauto.
Qed.

(** X19: whatever the random draws, [generateRandomWalls] returns on a
    rectangular grid; the cells that [findStart] and [findEnd] find are not
    walls in the new grid, every other cell is a wall exactly when its draw
    said so, and nothing else of a cell changes. *)
Theorem generateRandomWalls_cells (draw : Z → Z → bool) (grid : CellGrid) :
  rectangular grid →
  ∃ g' start end_,
    generateRandomWalls draw grid = Ret g'
    ∧ findStart grid = Ret start ∧ findEnd grid = Ret end_
    ∧ (∀ p, cell_at g' p
            = with_wall (if bool_decide (start = Some p ∨ end_ = Some p) then false
                         else draw (row p) (col p))
              <$> cell_at grid p)
    ∧ (∀ p cell, start = Some p ∨ end_ = Some p →
         cell_at g' p = Some cell → gc_isWall cell = false).
Proof.
  intros Hrect.
  destruct (random_walls_cells draw grid Hrect)
    as (g' & start & end_ & Hrun & Hstart & Hend & Hcells).
  exists g', start, end_. do 4 (split; [assumption|]).
  intros p cell Hp. rewrite Hcells. rewrite bool_decide_eq_true_2 by exact Hp.
  destruct (cell_at grid p) as [c0|]; [|discriminate]. intros [= <-]. reflexivity.
Qed.

Lemma sample_cells_rectangular : rectangular sample_cells.
Proof.
  intros r Hr. unfold sample_cells in *.
  repeat (apply elem_of_cons in Hr as [-> | Hr]; [reflexivity|]). inversion Hr.
Qed.

Lemma generateRandomWalls_cells_witness :
  ∃ g' start end_,
    generateRandomWalls (λ _ _, true) sample_cells = Ret g'
    ∧ findStart sample_cells = Ret start ∧ findEnd sample_cells = Ret end_
    ∧ (∀ p, cell_at g' p
            = with_wall (if bool_decide (start = Some p ∨ end_ = Some p) then false
                         else true)
              <$> cell_at sample_cells p)
    ∧ (∀ p cell, start = Some p ∨ end_ = Some p →
         cell_at g' p = Some cell → gc_isWall cell = false).
Proof.
  apply (generateRandomWalls_cells (λ _ _, true) sample_cells).
  exact sample_cells_rectangular.
Defined.

Lemma findStart_findEnd_first_witness :
  (∃ res, findStart sample_cells = Ret res
     ∧ match res with
       | Some p => (∃ cell, cell_at sample_cells p = Some cell ∧ gc_isStart cell = true)
           ∧ ∀ q cq, scanned_before q p → cell_at sample_cells q = Some cq →
               gc_isStart cq = false
       | None => ∀ q cq, cell_at sample_cells q = Some cq → gc_isStart cq = false
       end)
  ∧ (∃ res, findEnd sample_cells = Ret res
       ∧ match res with
         | Some p => (∃ cell, cell_at sample_cells p = Some cell ∧ gc_isEnd cell = true)
             ∧ ∀ q cq, scanned_before q p → cell_at sample_cells q = Some cq →
                 gc_isEnd cq = false
         | None => ∀ q cq, cell_at sample_cells q = Some cq → gc_isEnd cq = false
         end).
Proof.
  apply (findStart_findEnd_first sample_cells). exact sample_cells_rectangular.
Defined.

Lemma toggle_twice (r c i j : Z) (cell : GridCell) :
  (if bool_decide (i = r) && bool_decide (j = c)
   then with_wall (negb (gc_isWall
          (if bool_decide (i = r) && bool_decide (j = c)
           then with_wall (negb (gc_isWall cell)) cell else cell)))
          (if bool_decide (i = r) && bool_decide (j = c)
           then with_wall (negb (gc_isWall cell)) cell else cell)
   else (if bool_decide (i = r) && bool_decide (j = c)
         then with_wall (negb (gc_isWall cell)) cell else cell))
  = cell.
Proof.
  destruct (bool_decide (i = r) && bool_decide (j = c)); [|reflexivity].
  destruct cell. unfold with_wall. simpl. rewrite negb_involutive. reflexivity.
Qed.

Lemma at_position (p : Coord) (r c : Z) :
  bool_decide (row p = r) && bool_decide (col p = c) = bool_decide (p = (r, c)).
Proof.
  destruct p as [pr pc]. unfold row, col. simpl.
  repeat case_bool_decide; simpl; try reflexivity; exfalso; congruence.
Qed.

(** X20: on an existing cell that is neither the start nor the end,
    [handleWallToggle] flips the wall of that cell and changes nothing
    else, and toggling the same cell again gives the grid back. *)
Theorem handleWallToggle_flips (grid : CellGrid) (r c : Z) (cell : GridCell) :
  cell_at grid (r, c) = Some cell →
  gc_isStart cell = false → gc_isEnd cell = false →
  ∃ g', handleWallToggle grid r c = Some g'
    ∧ (∀ p, cell_at g' p
            = (λ cell, if bool_decide (p = (r, c))
                       then with_wall (negb (gc_isWall cell)) cell else cell)
              <$> cell_at grid p)
    ∧ handleWallToggle g' r c = Some grid.
Proof.
  intros Hcell Hstart Hend. unfold handleWallToggle at 1.
  rewrite Hcell, Hstart, Hend. simpl. eexists. split; [reflexivity|].
  assert (Hcells : ∀ p, cell_at
            (map_cells (λ i j cell, if bool_decide (i = r) && bool_decide (j = c)
                                    then with_wall (negb (gc_isWall cell)) cell
                                    else cell) grid) p
          = (λ cell, if bool_decide (p = (r, c))
                     then with_wall (negb (gc_isWall cell)) cell else cell)
            <$> cell_at grid p).
  { intros p. rewrite cell_at_map_cells, at_position. reflexivity. }
  split; [exact Hcells|].
  unfold handleWallToggle. rewrite Hcells, Hcell. simpl.
  rewrite bool_decide_eq_true_2 by reflexivity.
  simpl. rewrite Hstart, Hend. simpl. f_equal.
  rewrite map_cells_compose.
  rewrite (map_cells_ext _ (λ _ _ cell, cell)); [apply map_cells_id|].
  intros i j cell'. apply toggle_twice.
Qed.

Lemma handleWallToggle_flips_witness :
  ∃ g', handleWallToggle sample_cells 1 0 = Some g'
    ∧ (∀ p, cell_at g' p
            = (λ cell, if bool_decide (p = (1, 0))
                       then with_wall (negb (gc_isWall cell)) cell else cell)
              <$> cell_at sample_cells p)
    ∧ handleWallToggle g' 1 0 = Some sample_cells.
Proof.
  apply (handleWallToggle_flips sample_cells 1 0
           (mkGridCell 1 0 false false false true false false false));
    reflexivity.
Defined.

Lemma find_flag_unique (flag : GridCell → bool) (grid : CellGrid) (p : Coord) :
  rectangular grid →
  (∀ q cq, cell_at grid q = Some cq → flag cq = true ↔ q = p) →
  is_Some (cell_at grid p) →
  find_flag flag grid (scan_order grid) = Ret (Some p).
Proof.
  intros Hrect Hflag [cell Hcell].
  destruct (find_flag_first flag grid Hrect) as (res & Hres & Hspec).
  rewrite Hres. f_equal. destruct res as [q|].
  - f_equal. destruct Hspec as [(cq & Hcq & Hq) _]. apply (Hflag q cq Hcq), Hq.
  - specialize (Hspec p cell Hcell).
    assert (flag cell = true) by (apply (Hflag p cell Hcell); reflexivity).
    congruence.
Qed.

(** X21: on an existing cell that is neither the end nor a wall,
    [handleStartChange] makes that cell the only start of the grid and
    changes nothing else; on a rectangular grid [findStart] then returns
    the position, which is also the new [start] of the state. *)
Theorem handleStartChange_found (grid : CellGrid) (r c : Z) (cell : GridCell) :
  rectangular grid →
  cell_at grid (r, c) = Some cell →
  gc_isEnd cell = false → gc_isWall cell = false →
  ∃ g', handleStartChange grid r c = Some (g', (r, c))
    ∧ (∀ p, cell_at g' p = with_start (bool_decide (p = (r, c))) <$> cell_at grid p)
    ∧ findStart g' = Ret (Some (r, c))
    ∧ findEnd g' = findEnd grid.
Proof.
  intros Hrect Hcell Hend Hwall. unfold handleStartChange.
  rewrite Hcell, Hend, Hwall. simpl. eexists. split; [reflexivity|].
  set (F := λ i j cell, with_start (bool_decide (i = r) && bool_decide (j = c)) cell).
  assert (Hcells : ∀ p, cell_at (map_cells F grid) p
                        = with_start (bool_decide (p = (r, c))) <$> cell_at grid p).
  { intros p. rewrite cell_at_map_cells. unfold F. rewrite at_position. reflexivity. }
  split; [exact Hcells|]. split.
  - apply find_flag_unique.
    + apply rectangular_map_cells, Hrect.
    + intros q cq. rewrite Hcells.
      destruct (cell_at grid q) as [cq'|]; [|discriminate]. intros [= <-]. simpl.
      apply bool_decide_eq_true.
    + rewrite Hcells, Hcell. eexists. reflexivity.
  - unfold findEnd. rewrite scan_order_map_cells.
    apply find_flag_map_cells. reflexivity.
Qed.

Lemma handleStartChange_found_witness :
  ∃ g', handleStartChange sample_cells 1 0 = Some (g', (1, 0))
    ∧ (∀ p, cell_at g' p
            = with_start (bool_decide (p = (1, 0))) <$> cell_at sample_cells p)
    ∧ findStart g' = Ret (Some (1, 0))
    ∧ findEnd g' = findEnd sample_cells.
Proof.
  apply (handleStartChange_found sample_cells 1 0
           (mkGridCell 1 0 false false false true false false false)).
  - exact sample_cells_rectangular.
  - reflexivity.
  - reflexivity.
  - reflexivity.
Defined.

(** X22: on an existing cell that is neither the start nor a wall,
    [handleEndChange] makes that cell the only end of the grid and changes
    nothing else; on a rectangular grid [findEnd] then returns the
    position, which is also the new [end] of the state. *)
Theorem handleEndChange_found (grid : CellGrid) (r c : Z) (cell : GridCell) :
  rectangular grid →
  cell_at grid (r, c) = Some cell →
  gc_isStart cell = false → gc_isWall cell = false →
  ∃ g', handleEndChange grid r c = Some (g', (r, c))
    ∧ (∀ p, cell_at g' p = with_end (bool_decide (p = (r, c))) <$> cell_at grid p)
    ∧ findEnd g' = Ret (Some (r, c))
    ∧ findStart g' = findStart grid.
Proof.
  intros Hrect Hcell Hstart Hwall. unfold handleEndChange.
  rewrite Hcell, Hstart, Hwall. simpl. eexists. split; [reflexivity|].
  set (F := λ i j cell, with_end (bool_decide (i = r) && bool_decide (j = c)) cell).
  assert (Hcells : ∀ p, cell_at (map_cells F grid) p
                        = with_end (bool_decide (p = (r, c))) <$> cell_at grid p).
  { intros p. rewrite cell_at_map_cells. unfold F. rewrite at_position. reflexivity. }
  split; [exact Hcells|]. split.
  - apply find_flag_unique.
    + apply rectangular_map_cells, Hrect.
    + intros q cq. rewrite Hcells.
      destruct (cell_at grid q) as [cq'|]; [|discriminate]. intros [= <-]. simpl.
      apply bool_decide_eq_true.
    + rewrite Hcells, Hcell. eexists. reflexivity.
  - unfold findStart. rewrite scan_order_map_cells.
    apply find_flag_map_cells. reflexivity.
Qed.

Lemma handleEndChange_found_witness :
  ∃ g', handleEndChange sample_cells 1 0 = Some (g', (1, 0))
    ∧ (∀ p, cell_at g' p
            = with_end (bool_decide (p = (1, 0))) <$> cell_at sample_cells p)
    ∧ findEnd g' = Ret (Some (1, 0))
    ∧ findStart g' = findStart sample_cells.
Proof.
  apply (handleEndChange_found sample_cells 1 0
           (mkGridCell 1 0 false false false true false false false)).
  - exact sample_cells_rectangular.
  - reflexivity.
  - reflexivity.
  - reflexivity.
Defined.

(** X23: [handleClearWalls] does nothing on the empty grid; on any other
    grid it removes every wall and changes nothing else. *)
Theorem handleClearWalls_open (grid : CellGrid) :
  grid ≠ [] →
  ∃ g', handleClearWalls grid = Some g'
    ∧ (∀ p, cell_at g' p = with_wall false <$> cell_at grid p)
    ∧ no_walls (search_grid g')
    ∧ handleClearWalls [] = None.
Proof.
  intros Hne. unfold handleClearWalls at 1.
  rewrite bool_decide_eq_false_2 by (destruct grid; [done|discriminate]).
  eexists. split; [reflexivity|]. split; [intros p; apply cell_at_fmap|].
  split; [|reflexivity].
  intros r c Hr Hc. unfold search_grid in Hr.
  apply list_elem_of_fmap in Hr as (r1 & -> & Hr1).
  apply list_elem_of_fmap in Hr1 as (r2 & -> & _).
  apply list_elem_of_fmap in Hc as (c1 & -> & Hc1).
  apply list_elem_of_fmap in Hc1 as (c2 & -> & _). reflexivity.
Qed.

Lemma handleClearWalls_open_witness :
  ∃ g', handleClearWalls sample_cells = Some g'
    ∧ (∀ p, cell_at g' p = with_wall false <$> cell_at sample_cells p)
    ∧ no_walls (search_grid g')
    ∧ handleClearWalls [] = None.
Proof. apply (handleClearWalls_open sample_cells). discriminate. Defined.

(** ** The marks of the start and of the end *)

(** An edit that keeps the marks of every cell and leaves the marked cells
    without wall keeps [ends_marked]. *)
Lemma ends_marked_edit (grid g' : CellGrid) (F : Coord → GridCell → GridCell) :
  (∀ p, cell_at g' p = F p <$> cell_at grid p) →
  (∀ p cell, cell_at grid p = Some cell →
     gc_isStart (F p cell) = gc_isStart cell
     ∧ gc_isEnd (F p cell) = gc_isEnd cell
     ∧ (gc_isStart cell = true ∨ gc_isEnd cell = true →
        gc_isWall (F p cell) = false)) →
  ends_marked grid → ends_marked g'.
Proof.
  intros Hcells HF (Hs & He & Hw & Hse).
  assert (Hinv : ∀ p c', cell_at g' p = Some c' →
                   ∃ c, cell_at grid p = Some c ∧ c' = F p c).
  { intros p c'. rewrite Hcells. destruct (cell_at grid p) as [c|]; [|discriminate].
    intros [= <-]. eauto. }
  split; [|split; [|split]].
  - intros p q cp cq Hp Hq Hsp Hsq.
    destruct (Hinv p cp Hp) as (cp0 & Hp0 & ->).
    destruct (Hinv q cq Hq) as (cq0 & Hq0 & ->).
    destruct (HF p cp0 Hp0) as (Hp1 & _). destruct (HF q cq0 Hq0) as (Hq1 & _).
    eapply Hs; eauto; congruence.
  - intros p q cp cq Hp Hq Hep Heq.
    destruct (Hinv p cp Hp) as (cp0 & Hp0 & ->).
    destruct (Hinv q cq Hq) as (cq0 & Hq0 & ->).
    destruct (HF p cp0 Hp0) as (_ & Hp1 & _). destruct (HF q cq0 Hq0) as (_ & Hq1 & _).
    eapply He; eauto; congruence.
  - intros p c' Hp Hmark. destruct (Hinv p c' Hp) as (c & Hc & ->).
    destruct (HF p c Hc) as (H1 & H2 & H3). apply H3.
    rewrite H1, H2 in Hmark. exact Hmark.
  - intros p c' Hp Hmark. destruct (Hinv p c' Hp) as (c & Hc & ->).
    destruct (HF p c Hc) as (H1 & H2 & _). rewrite H2. apply (Hse p c Hc).
    rewrite <- H1. exact Hmark.
Qed.

(** X24: the edits of the grid keep the marks in order: if at most one
    cell is the start, at most one is the end, they differ and neither is a
    wall, the same holds after [handleWallToggle], [handleStartChange],
    [handleEndChange], [handleClearWalls], [generateRandomWalls] and
    [clearGrid]. *)
Theorem edits_keep_ends_marked (grid : CellGrid) :
  rectangular grid → ends_marked grid →
  (∀ r c g', handleWallToggle grid r c = Some g' → ends_marked g')
  ∧ (∀ r c g' s, handleStartChange grid r c = Some (g', s) → ends_marked g')
  ∧ (∀ r c g' e, handleEndChange grid r c = Some (g', e) → ends_marked g')
  ∧ (∀ g', handleClearWalls grid = Some g' → ends_marked g')
  ∧ (∀ draw g', generateRandomWalls draw grid = Ret g' → ends_marked g')
  ∧ ends_marked (clearGrid grid).
Proof.
  intros Hrect Hmarked. pose proof Hmarked as (Hs & He & Hw & Hse).
  split; [|split; [|split; [|split; [|split]]]].
  - intros r c g' H. unfold handleWallToggle in H.
    destruct (cell_at grid (r, c)) as [cell|] eqn:Hcell; [|discriminate].
    destruct (gc_isStart cell || gc_isEnd cell) eqn:Hends; [discriminate|].
    apply orb_false_iff in Hends as [Hstart Hend]. injection H as <-.
    apply (ends_marked_edit grid _
             (λ p cell, if bool_decide (p = (r, c))
                        then with_wall (negb (gc_isWall cell)) cell else cell));
      [|..|exact Hmarked].
    + intros p. rewrite cell_at_map_cells, at_position. reflexivity.
    + intros p cp Hp. case_bool_decide as Hpos.
      * subst p. rewrite Hcell in Hp. injection Hp as <-.
        split; [reflexivity|]. split; [reflexivity|].
        intros [H|H]; congruence.
      * split; [reflexivity|]. split; [reflexivity|]. apply (Hw p cp Hp).
  - intros r c g' s H. unfold handleStartChange in H.
    destruct (cell_at grid (r, c)) as [cell|] eqn:Hcell; [|discriminate].
    destruct (gc_isEnd cell || gc_isWall cell) eqn:Hguard; [discriminate|].
    apply orb_false_iff in Hguard as [Hend Hwall]. injection H as <- <-.
    assert (Hcells : ∀ p c', cell_at (map_cells (λ i j cell,
                with_start (bool_decide (i = r) && bool_decide (j = c)) cell) grid) p
              = Some c' →
              ∃ c0, cell_at grid p = Some c0
                    ∧ c' = with_start (bool_decide (p = (r, c))) c0).
    { intros p c'. rewrite cell_at_map_cells, at_position.
      destruct (cell_at grid p) as [c0|]; [|discriminate]. intros [= <-]. eauto. }
    split; [|split; [|split]].
    + intros p q cp cq Hp Hq Hsp Hsq.
      destruct (Hcells p cp Hp) as (cp0 & _ & ->).
      destruct (Hcells q cq Hq) as (cq0 & _ & ->). simpl in *.
      apply bool_decide_eq_true in Hsp, Hsq. congruence.
    + intros p q cp cq Hp Hq Hep Heq.
      destruct (Hcells p cp Hp) as (cp0 & Hp0 & ->).
      destruct (Hcells q cq Hq) as (cq0 & Hq0 & ->). simpl in *.
      eapply He; eauto.
    + intros p c' Hp Hmark. destruct (Hcells p c' Hp) as (c0 & Hc0 & ->).
      simpl in *. destruct Hmark as [Hmark|Hmark].
      * apply bool_decide_eq_true in Hmark as ->. congruence.
      * apply (Hw p c0 Hc0). right. exact Hmark.
    + intros p c' Hp Hmark. destruct (Hcells p c' Hp) as (c0 & Hc0 & ->).
      simpl in *. apply bool_decide_eq_true in Hmark as ->. congruence.
  - intros r c g' e H. unfold handleEndChange in H.
    destruct (cell_at grid (r, c)) as [cell|] eqn:Hcell; [|discriminate].
    destruct (gc_isStart cell || gc_isWall cell) eqn:Hguard; [discriminate|].
    apply orb_false_iff in Hguard as [Hstart Hwall]. injection H as <- <-.
    assert (Hcells : ∀ p c', cell_at (map_cells (λ i j cell,
                with_end (bool_decide (i = r) && bool_decide (j = c)) cell) grid) p
              = Some c' →
              ∃ c0, cell_at grid p = Some c0
                    ∧ c' = with_end (bool_decide (p = (r, c))) c0).
    { intros p c'. rewrite cell_at_map_cells, at_position.
      destruct (cell_at grid p) as [c0|]; [|discriminate]. intros [= <-]. eauto. }
    split; [|split; [|split]].
    + intros p q cp cq Hp Hq Hsp Hsq.
      destruct (Hcells p cp Hp) as (cp0 & Hp0 & ->).
      destruct (Hcells q cq Hq) as (cq0 & Hq0 & ->). simpl in *.
      eapply Hs; eauto.
    + intros p q cp cq Hp Hq Hep Heq.
      destruct (Hcells p cp Hp) as (cp0 & _ & ->).
      destruct (Hcells q cq Hq) as (cq0 & _ & ->). simpl in *.
      apply bool_decide_eq_true in Hep, Heq. congruence.
    + intros p c' Hp Hmark. destruct (Hcells p c' Hp) as (c0 & Hc0 & ->).
      simpl in *. destruct Hmark as [Hmark|Hmark].
      * apply (Hw p c0 Hc0). left. exact Hmark.
      * apply bool_decide_eq_true in Hmark as ->. congruence.
    + intros p c' Hp Hmark. destruct (Hcells p c' Hp) as (c0 & Hc0 & ->).
      simpl in *. apply bool_decide_eq_false. intros ->. congruence.
  - intros g' H. unfold handleClearWalls in H.
    destruct (bool_decide (length grid = 0%nat)); [discriminate|]. injection H as <-.
    apply (ends_marked_edit grid _ (λ _, with_wall false)); [|..|exact Hmarked].
    + intros p. apply cell_at_fmap.
    + intros p cell _. split; [reflexivity|]. split; reflexivity.
  - intros draw g' H.
    destruct (random_walls_cells draw grid Hrect)
      as (g0 & start & end_ & Hg0 & Hstart & Hend & Hcells).
    rewrite H in Hg0. injection Hg0 as <-.
    destruct (find_flag_first gc_isStart grid Hrect) as (start' & Hstart' & Hsspec).
    destruct (find_flag_first gc_isEnd grid Hrect) as (end' & Hend' & Hespec).
    unfold findStart in Hstart. unfold findEnd in Hend.
    rewrite Hstart in Hstart'. rewrite Hend in Hend'.
    injection Hstart' as <-. injection Hend' as <-.
    apply (ends_marked_edit grid _
             (λ p, with_wall (if bool_decide (start = Some p ∨ end_ = Some p)
                              then false else draw (row p) (col p))));
      [exact Hcells|..|exact Hmarked].
    intros p cell Hp. split; [reflexivity|]. split; [reflexivity|].
    intros Hmark. simpl. rewrite bool_decide_eq_true_2; [reflexivity|].
    destruct Hmark as [Hmark|Hmark].
    + left. destruct start as [ps|].
      * destruct Hsspec as [(cs & Hcs & Hfs) _]. f_equal. eapply Hs; eauto.
      * rewrite (Hsspec p cell Hp) in Hmark. discriminate.
    + right. destruct end_ as [pe|].
      * destruct Hespec as [(ce & Hce & Hfe) _]. f_equal. eapply He; eauto.
      * rewrite (Hespec p cell Hp) in Hmark. discriminate.
  - apply (ends_marked_edit grid _ (λ _, clear_cell)); [|..|exact Hmarked].
    + intros p. apply cell_at_fmap.
    + intros p cell Hp. split; [reflexivity|]. split; [reflexivity|].
      apply (Hw p cell Hp).
Qed.

Lemma sample_cells_marked : ends_marked sample_cells.
Proof.
  assert (Hcells : ∀ p cell, cell_at sample_cells p = Some cell →
            (p = (0, 0) ∧ cell = mkGridCell 0 0 false true false false false false false)
            ∨ (p = (0, 1) ∧ cell = mkGridCell 0 1 true false false false false false false)
            ∨ (p = (1, 0) ∧ cell = mkGridCell 1 0 false false false true false false false)
            ∨ (p = (1, 1) ∧ cell = mkGridCell 1 1 false false true false true false false)).
  { intros [pr pc] cell H. apply cell_at_Some in H as (Hr & Hc & r & Hrow & Hcell).
    unfold row, col in *. simpl in *.
    assert (Hpr : pr = 0 ∨ pr = 1).
    { apply lookup_lt_Some in Hrow. simpl in Hrow. lia. }
    destruct Hpr as [-> | ->]; simpl in Hrow; injection Hrow as <-.
    - assert (Hpc : pc = 0 ∨ pc = 1).
      { apply lookup_lt_Some in Hcell. simpl in Hcell. lia. }
      destruct Hpc as [-> | ->]; simpl in Hcell; injection Hcell as <-; auto.
    - assert (Hpc : pc = 0 ∨ pc = 1).
      { apply lookup_lt_Some in Hcell. simpl in Hcell. lia. }
      destruct Hpc as [-> | ->]; simpl in Hcell; injection Hcell as <-; auto 6. }
  split; [|split; [|split]].
  - intros p q cp cq Hp Hq Hsp Hsq.
    destruct (Hcells p cp Hp) as [[-> ->]|[[-> ->]|[[-> ->]|[-> ->]]]];
      try discriminate;
      destruct (Hcells q cq Hq) as [[-> ->]|[[-> ->]|[[-> ->]|[-> ->]]]];
      try discriminate; reflexivity.
  - intros p q cp cq Hp Hq Hsp Hsq.
    destruct (Hcells p cp Hp) as [[-> ->]|[[-> ->]|[[-> ->]|[-> ->]]]];
      try discriminate;
      destruct (Hcells q cq Hq) as [[-> ->]|[[-> ->]|[[-> ->]|[-> ->]]]];
      try discriminate; reflexivity.
  - intros p cell Hp Hmark.
    destruct (Hcells p cell Hp) as [[-> ->]|[[-> ->]|[[-> ->]|[-> ->]]]];
      simpl in *; try reflexivity; destruct Hmark; discriminate.
  - intros p cell Hp Hmark.
    destruct (Hcells p cell Hp) as [[-> ->]|[[-> ->]|[[-> ->]|[-> ->]]]];
      simpl in *; try reflexivity; discriminate.
Qed.

Lemma edits_keep_ends_marked_witness :
  (∀ r c g', handleWallToggle sample_cells r c = Some g' → ends_marked g')
  ∧ (∀ r c g' s, handleStartChange sample_cells r c = Some (g', s) → ends_marked g')
  ∧ (∀ r c g' e, handleEndChange sample_cells r c = Some (g', e) → ends_marked g')
  ∧ (∀ g', handleClearWalls sample_cells = Some g' → ends_marked g')
  ∧ (∀ draw g', generateRandomWalls draw sample_cells = Ret g' → ends_marked g')
  ∧ ends_marked (clearGrid sample_cells).
Proof.
  apply (edits_keep_ends_marked sample_cells).
  - exact sample_cells_rectangular.
  - exact sample_cells_marked.
Defined.

(** ** dijkstra and bfs side by side *)

Section Twin.
Context (grid : Grid) (Hgrid : valid_grid grid) (s : Coord).

Lemma dijkstra_inv_pop (x : Item) (vis : list Coord) (q : PriorityQueue)
    (dist : Table num) (prev : Table (option Coord)) (visited : Table bool) :
  dijkstra_inv grid s (mkDijkstra vis (x :: q) dist prev visited) [] →
  dijkstra_inv grid s
    (mkDijkstra (vis ++ [val x]) q dist prev
       (mkTable (t_rows visited) (<[val x := true]> (t_cells visited))))
    (getNeighbors (row (val x)) (col (val x)) grid).
Proof using Type.
  intros (Hinv & Hlev & Hfv & Hvis & Hfd & Hinf & Hfin & Hq). simpl in *.
  set (c := val x) in *.
  pose proof (search_inv_pop grid s vis (c :: (val <$> q)) (val <$> q) c prev
                (reflexivity _) Hinv) as Hpop.
  pose proof (level_inv_pop grid s vis c (val <$> q) prev Hinv Hlev) as Hlev'.
  split; [exact Hpop|]. split; [exact Hlev'|]. split; [apply full_table_insert, Hfv|].
  simpl. split; [|split; [exact Hfd|split; [|split]]].
  - intros p Hp. rewrite lookup_insert, elem_of_app, list_elem_of_singleton.
    case_decide as Hpc; [subst; simpl; tauto|].
    rewrite (Hvis p Hp). split; [tauto|]. intros [?|?]; [auto|congruence].
  - intros p Hp Hnin. apply Hinf; [exact Hp|].
    rewrite <- app_assoc in Hnin. exact Hnin.
  - intros p Hp. apply Hfin. rewrite <- app_assoc in Hp. exact Hp.
  - intros y Hy. apply Hq. right. exact Hy.
Qed.

Lemma frontier_inv_pop (c : Coord) (vis rest : list Coord)
    (visited : Table bool) (prev : Table (option Coord)) :
  frontier_inv Fifo grid s (mkFrontier vis (c :: rest) visited prev) [] →
  frontier_inv Fifo grid s (mkFrontier (vis ++ [c]) rest visited prev)
    (getNeighbors (row c) (col c) grid).
Proof using Type.
  intros (Hinv & Hfull & Hvis & Hlev). simpl in *.
  pose proof (search_inv_pop grid s vis (c :: rest) rest c prev
                (reflexivity _) Hinv) as Hpop.
  split; [exact Hpop|]. split; [exact Hfull|]. split.
  - simpl. intros p Hp. rewrite (Hvis p Hp), <- app_assoc. reflexivity.
  - intros _. apply level_inv_pop; auto.
Qed.

(** One neighbour: both searches leave it, or both append it to their
    queue with the expanded node as predecessor. *)
Lemma twin_neighbor (c n : Coord) (pending : list Coord)
    (sd : DijkstraState) (sb : FrontierState) :
  dijkstra_inv grid s sd (n :: pending) →
  frontier_inv Fifo grid s sb (n :: pending) →
  twin sd sb →
  last (dj_visitedNodesInOrder sd) = Some c →
  adjacent c n → in_bounds grid n →
  ∃ sd' sb',
    dijkstra_neighbor grid c sd n = Ret sd'
    ∧ frontier_neighbor Fifo grid c sb n = Ret sb'
    ∧ dijkstra_inv grid s sd' pending
    ∧ frontier_inv Fifo grid s sb' pending
    ∧ twin sd' sb'
    ∧ dj_visitedNodesInOrder sd' = dj_visitedNodesInOrder sd.
Proof using Hgrid.
  intros Hid Hib (Hv & Hf & Hp) Hlast Hadj Hn.
  destruct (dijkstra_neighbor_inv grid Hgrid s c n pending sd Hid Hlast Hadj Hn)
    as (sd' & Hrd & Hid' & Hvd).
  destruct (frontier_neighbor_inv grid Hgrid s Fifo c n pending sb Hib)
    as (sb' & Hrb & Hib' & Hvb); [congruence|assumption..|].
  exists sd', sb'. do 4 (split; [assumption|]). split; [|exact Hvd].
  pose proof (dijkstra_queue_sorted grid s sd _ Hid) as Hsorted.
  destruct Hid as (Hinv & Hlev & Hfv & Hvis & Hfd & Hinf & Hfin & Hq).
  destruct Hib as (Hinvb & Hfullb & Hvisb & _).
  destruct sd as [vis q dist prev visited]. destruct sb as [visb fr visitedb prevb].
  simpl in *. subst visb fr prevb.
  unfold dijkstra_neighbor in Hrd. unfold frontier_neighbor in Hrb. simpl in *.
  rewrite (full_table_tget grid visited n Hfv Hn) in Hrd.
  rewrite (full_table_tget grid visitedb n Hfullb Hn) in Hrb.
  cbn [mbind outcome_bind] in Hrd, Hrb.
  destruct (cell_isWall_in_bounds grid Hgrid n Hn) as [w Hw].
  rewrite Hw in Hrd, Hrb.
  assert (Hsame : n ∈ vis ++ (val <$> q) ∨ w = true →
                  sd' = mkDijkstra vis q dist prev visited
                  ∧ sb' = mkFrontier vis (val <$> q) visitedb prev).
  { intros Hskip. split.
    - destruct (truthy (t_cells visited !! n)) eqn:Hvn; [congruence|].
      cbn [mbind outcome_bind] in Hrd. destruct w; [congruence|].
      destruct Hskip as [Hin|]; [|discriminate].
      apply elem_of_app in Hin as [Hin|Hin].
      { apply Hvis in Hin; [congruence|exact Hn]. }
      pose proof (last_elem_of _ _ Hlast) as Hcv.
      assert (Hcb : in_bounds grid c).
      { eapply si_bounds; [exact Hinv|]. apply elem_of_app. auto. }
      destruct (Hfin c) as (kc & Hkc & Hdc); [apply elem_of_app; auto|].
      destruct (Hfin n) as (kn & Hkn & Hdn); [apply elem_of_app; auto|].
      rewrite (full_table_tget grid dist c Hfd Hcb), Hkc in Hrd.
      cbn [mbind outcome_bind num_add] in Hrd.
      rewrite (full_table_tget grid dist n Hfd Hn), Hkn in Hrd.
      cbn [mbind outcome_bind num_lt] in Hrd.
      assert (kn ≤ S kc)%nat by (eapply (li_span _ _ _ _ _ Hlev c n); eauto).
      rewrite bool_decide_eq_false_2 in Hrd by lia. congruence.
    - destruct (truthy (t_cells visitedb !! n)) eqn:Hvn; [congruence|].
      cbn [mbind outcome_bind] in Hrb. destruct w; [congruence|].
      destruct Hskip as [Hin|]; [|discriminate].
      apply Hvisb in Hin; [congruence|exact Hn]. }
  destruct (decide (n ∈ vis ++ (val <$> q))) as [Hin|Hnin].
  { destruct Hsame as [-> ->]; [auto|]. done. }
  destruct w.
  { destruct Hsame as [-> ->]; [auto|]. done. }
  assert (Hvn : truthy (t_cells visited !! n) = false).
  { destruct (truthy (t_cells visited !! n)) eqn:Hvn; [|reflexivity].
    exfalso. apply Hnin, elem_of_app. left. apply Hvis; assumption. }
  assert (Hvbn : truthy (t_cells visitedb !! n) = false).
  { destruct (truthy (t_cells visitedb !! n)) eqn:Hvbn; [|reflexivity].
    exfalso. apply Hnin. apply Hvisb; assumption. }
  rewrite Hvn in Hrd. rewrite Hvbn in Hrb. cbn [mbind outcome_bind] in Hrd, Hrb.
  pose proof (last_elem_of _ _ Hlast) as Hcv.
  assert (Hcb : in_bounds grid c).
  { eapply si_bounds; [exact Hinv|]. apply elem_of_app. auto. }
  destruct (Hfin c) as (kc & Hkc & Hdc); [apply elem_of_app; auto|].
  rewrite (full_table_tget grid dist c Hfd Hcb), Hkc in Hrd.
  cbn [mbind outcome_bind num_add] in Hrd.
  rewrite (full_table_tget grid dist n Hfd Hn), (Hinf n Hn Hnin) in Hrd.
  cbn [mbind outcome_bind num_lt] in Hrd.
  rewrite (full_table_tset grid dist n _ Hfd Hn) in Hrd.
  cbn [mbind outcome_bind] in Hrd.
  rewrite (full_table_tset grid prev n (Some c)
             (prev_full grid s _ _ _ _ Hinv) Hn) in Hrd, Hrb.
  rewrite (full_table_tset grid visitedb n true Hfullb Hn) in Hrb.
  cbn [mbind outcome_bind] in Hrd, Hrb.
  assert (Hnq : n ∉ val <$> q).
  { intros Hin. apply Hnin, elem_of_app. auto. }
  rewrite (proj2 (hasNode_false n q) Hnq) in Hrd.
  assert (Hprio : ∀ y, y ∈ q → num_gt (priority y) (Fin (Z.of_nat kc + 1)) = false).
  { intros y Hy. destruct (Hfin (val y)) as (ky & Hky & Hdy).
    { apply elem_of_app. right. apply list_elem_of_fmap. eauto. }
    rewrite (Hq y Hy) in Hky. injection Hky as ->. simpl.
    assert (ky ≤ S kc)%nat; [|apply bool_decide_eq_false; lia].
    eapply (li_span _ _ _ _ _ Hlev c (val y)); eauto.
    apply list_elem_of_fmap. eauto. }
  rewrite (enqueue_back n _ q Hsorted Hprio) in Hrd.
  injection Hrd as <-. injection Hrb as <-.
  split; [reflexivity|]. split; [|reflexivity].
  simpl. rewrite fmap_app. reflexivity.
Qed.

Lemma twin_neighbors (c : Coord) :
  ∀ pending sd sb,
  (∀ n, n ∈ pending → adjacent c n ∧ in_bounds grid n) →
  dijkstra_inv grid s sd pending →
  frontier_inv Fifo grid s sb pending →
  twin sd sb →
  last (dj_visitedNodesInOrder sd) = Some c →
  ∃ sd' sb',
    for_of (dijkstra_neighbor grid c) pending sd = Ret sd'
    ∧ for_of (frontier_neighbor Fifo grid c) pending sb = Ret sb'
    ∧ dijkstra_inv grid s sd' []
    ∧ frontier_inv Fifo grid s sb' []
    ∧ twin sd' sb'
    ∧ dj_visitedNodesInOrder sd' = dj_visitedNodesInOrder sd.
Proof using Hgrid.
  induction pending as [|n pending IH]; intros sd sb Hnb Hid Hib Htw Hlast.
  { exists sd, sb. simpl. auto 10. }
  destruct (Hnb n) as [Hadj Hn]; [left|].
  destruct (twin_neighbor c n pending sd sb Hid Hib Htw Hlast Hadj Hn)
    as (sd1 & sb1 & Hrd & Hrb & Hid1 & Hib1 & Htw1 & Hv1).
  destruct (IH sd1 sb1) as (sd2 & sb2 & Hrd2 & Hrb2 & Hid2 & Hib2 & Htw2 & Hv2);
    [|assumption..| |].
  { intros m Hm. apply Hnb. right. exact Hm. }
  { congruence. }
  exists sd2, sb2. simpl. rewrite Hrd, Hrb. simpl.
  do 5 (split; [assumption|]). congruence.
Qed.

Context (e : Coord).

Lemma twin_loop (fuel : nat) :
  ∀ sd sb sd',
  dijkstra_inv grid s sd [] → frontier_inv Fifo grid s sb [] → twin sd sb →
  dijkstra_loop fuel grid e sd = Ret sd' →
  ∃ sb', frontier_loop Fifo fuel grid e sb = Ret sb' ∧ twin sd' sb'.
Proof using Hgrid.
  induction fuel as [|fuel IH]; intros sd sb sd' Hid Hib Htw Hrun; [discriminate|].
  pose proof Hid as (Hinv & Hlev & Hfv & Hvis & Hfd & Hinf & Hfin & Hq).
  destruct sd as [vis q dist prev visited]. destruct sb as [visb fr visitedb prevb].
  pose proof Htw as (Hv & Hf & Hp). simpl in Hv, Hf, Hp. subst visb fr prevb.
  simpl in *.
  destruct q as [|x q]; simpl in *.
  { injection Hrun as <-. eexists. split; [reflexivity|]. exact Htw. }
  change (list_fmap Item Coord val q) with (val <$> q) in *.
  set (c := val x) in *.
  assert (Hcb : in_bounds grid c).
  { eapply si_bounds; [exact Hinv|]. apply elem_of_app. right. left. }
  assert (Hcv : c ∉ vis).
  { intros Hin. apply si_nodup, NoDup_app in Hinv as (_ & Hdisj & _).
    apply (Hdisj c Hin). left. }
  rewrite (full_table_tget grid visited c Hfv Hcb) in Hrun. simpl in Hrun.
  destruct (truthy (t_cells visited !! c)) eqn:Hvc.
  { apply Hvis in Hvc; done. }
  rewrite (full_table_tset grid visited c true Hfv Hcb) in Hrun. simpl in Hrun.
  destruct (same_coord c e) eqn:Hce.
  { injection Hrun as <-. eexists. split; [reflexivity|].
    split; [reflexivity|]. split; reflexivity. }
  pose proof (dijkstra_inv_pop x vis q dist prev visited Hid) as Hid1.
  pose proof (frontier_inv_pop c vis (val <$> q) visitedb prev Hib) as Hib1.
  fold c in Hid1.
  destruct (twin_neighbors c (getNeighbors (row c) (col c) grid) _ _
              (λ n Hn, proj1 (getNeighbors_spec grid c n) Hn) Hid1 Hib1)
    as (sd2 & sb2 & Hrd2 & Hrb2 & Hid2 & Hib2 & Htw2 & Hv2).
  { split; [reflexivity|]. split; reflexivity. }
  { apply last_snoc. }
  rewrite Hrd2 in Hrun. simpl in Hrun. rewrite Hrb2. simpl.
  eapply IH; eauto.
Qed.

Lemma twin_search (fuel : nat) (sd : DijkstraState) :
  in_bounds grid s →
  dijkstra_search fuel grid s e = Ret sd →
  ∃ sb, frontier_search Fifo fuel grid s e = Ret sb ∧ twin sd sb.
Proof using Hgrid.
  intros Hs. unfold dijkstra_search, dijkstra_init, frontier_search, frontier_init.
  rewrite (full_table_tset grid _ s (Fin 0) (new_table_full grid Infinity) Hs).
  rewrite (full_table_tset grid _ s true (new_table_full grid false) Hs).
  cbn [mbind outcome_bind]. apply twin_loop.
  - split; [apply search_inv_init, Hs|]. split; [apply level_inv_init|].
    split; [apply new_table_full|]. simpl.
    split; [|split; [apply full_table_insert, new_table_full|split; [|split]]].
    + intros p Hp. rewrite (new_table_in_bounds grid false p Hp). simpl.
      split; [discriminate|]. intros H. apply elem_of_nil in H as [].
    + intros p Hp Hnin. rewrite lookup_insert_ne.
      * apply new_table_in_bounds, Hp.
      * intros ->. apply Hnin. left.
    + intros p Hp. apply list_elem_of_singleton in Hp as ->.
      exists 0%nat. split; [apply lookup_insert_eq|apply distance_self].
    + intros x Hx. apply list_elem_of_singleton in Hx as ->. apply lookup_insert_eq.
  - split; [apply search_inv_init, Hs|]. split; [apply full_table_insert, new_table_full|].
    split; [|intros _; apply level_inv_init].
    simpl. intros p Hp. rewrite lookup_insert, list_elem_of_singleton.
    case_decide as Hps; [simpl; split; auto|].
    rewrite (new_table_in_bounds grid false p Hp). simpl. split; [discriminate|congruence].
  - split; [reflexivity|]. split; reflexivity.
Qed.
End Twin.

(** X25: on every valid grid dijkstra and bfs return the same visited
    order and the same path, not only paths of the same length. *)
Theorem dijkstra_bfs_same (grid : Grid) (s e : Coord) :
  valid_grid grid → in_bounds grid s → in_bounds grid e →
  ∃ rd rb,
    dijkstra (Some grid) (Some s) (Some e) = Ret rd
    ∧ bfs (Some grid) (Some s) (Some e) = Ret rb
    ∧ visitedNodesInOrder rd = visitedNodesInOrder rb
    ∧ shortestPath rd = shortestPath rb.
Proof.
  intros Hgrid Hs He.
  destruct (dijkstra_returns grid Hgrid s e Hs He)
    as (sd & pd & Hsd & _ & Hpd & Hrd).
  destruct (bfs_returns grid Hgrid s e Hs He)
    as (sb & pb & fr & Hsb & _ & _ & Hpb & Hrb).
  destruct (twin_search grid Hgrid s e (budget grid) sd Hs Hsd)
    as (sb' & Hsb' & Hv & _ & Hp).
  rewrite Hsb in Hsb'. injection Hsb' as <-.
  eexists _, _. split; [exact Hrd|]. split; [exact Hrb|]. simpl.
  split; [exact Hv|]. rewrite Hp in Hpd. congruence.
Qed.

Lemma dijkstra_bfs_same_witness :
  ∃ rd rb,
    dijkstra (Some detour_grid) (Some (1, 8)) (Some (1, 0)) = Ret rd
    ∧ bfs (Some detour_grid) (Some (1, 8)) (Some (1, 0)) = Ret rb
    ∧ visitedNodesInOrder rd = visitedNodesInOrder rb
    ∧ shortestPath rd = shortestPath rb.
Proof.
  apply (dijkstra_bfs_same detour_grid).
  - apply valid_gridb_ok. reflexivity.
  - apply isValidPosition_spec. reflexivity.
  - apply isValidPosition_spec. reflexivity.
Defined.

(** ** The distances of dijkstra *)

Section Distances.
Context (grid : Grid) (Hgrid : valid_grid grid) (s e : Coord).

(** The state in which the loop of dijkstra stops still satisfies its
    invariant. *)
Lemma dijkstra_loop_keeps (fuel : nat) :
  ∀ st st', dijkstra_inv grid s st [] →
  dijkstra_loop fuel grid e st = Ret st' →
  ∃ pending, dijkstra_inv grid s st' pending.
Proof using Hgrid.
  induction fuel as [|fuel IH]; intros st st' Hst Hrun; [discriminate|].
  pose proof Hst as (Hinv & Hlev & Hfv & Hvis & Hfd & Hinf & Hfin & Hq).
  destruct st as [vis q dist prev visited]; simpl in *.
  destruct q as [|x q]; simpl in *.
  { injection Hrun as <-. eauto. }
  set (c := val x) in *.
  assert (Hcb : in_bounds grid c).
  { eapply si_bounds; [exact Hinv|]. apply elem_of_app. right. left. }
  assert (Hcv : c ∉ vis).
  { intros Hin. apply si_nodup, NoDup_app in Hinv as (_ & Hdisj & _).
    apply (Hdisj c Hin). left. }
  rewrite (full_table_tget grid visited c Hfv Hcb) in Hrun. simpl in Hrun.
  destruct (truthy (t_cells visited !! c)) eqn:Hvc.
  { apply Hvis in Hvc; done. }
  rewrite (full_table_tset grid visited c true Hfv Hcb) in Hrun. simpl in Hrun.
  pose proof (dijkstra_inv_pop grid s x vis q dist prev visited Hst) as Hst1.
  fold c in Hst1.
  destruct (same_coord c e) eqn:Hce.
  { injection Hrun as <-. eauto. }
  destruct (dijkstra_neighbors_inv grid Hgrid s c _ Hst1) as (st2 & Hrun2 & Hst2 & _).
  { apply last_snoc. }
  rewrite Hrun2 in Hrun. simpl in Hrun. eapply IH; eauto.
Qed.

(** X26: in the table of distances that dijkstra returns, the start has
    distance 0, and every cell of the grid has either the length of a
    shortest route from the start or [Infinity]; a cell that no route
    reaches has [Infinity]. *)
Theorem dijkstra_distances :
  in_bounds grid s → in_bounds grid e →
  ∃ r t,
    dijkstra (Some grid) (Some s) (Some e) = Ret r
    ∧ distances r = Some t
    ∧ t_cells t !! s = Some (Fin 0)
    ∧ ∀ p, in_bounds grid p →
        (t_cells t !! p = Some Infinity
         ∨ ∃ k, t_cells t !! p = Some (Fin (Z.of_nat k)) ∧ distance grid s p k)
        ∧ (¬ reachable grid s p → t_cells t !! p = Some Infinity).
Proof using Hgrid.
  intros Hs He.
  destruct (dijkstra_returns grid Hgrid s e Hs He)
    as (st & path & Hsearch & (Hfin & _ & Hvisd) & Hpath & Hrun).
  eexists _, _. split; [exact Hrun|]. split; [reflexivity|].
  assert (Hkeep : ∃ pending, dijkstra_inv grid s st pending).
  { unfold dijkstra_search, dijkstra_init in Hsearch.
    rewrite (full_table_tset grid _ s (Fin 0) (new_table_full grid Infinity) Hs)
      in Hsearch.
    cbn [mbind outcome_bind] in Hsearch.
    eapply dijkstra_loop_keeps; [|exact Hsearch].
    split; [apply search_inv_init, Hs|]. split; [apply level_inv_init|].
    split; [apply new_table_full|]. simpl.
    split; [|split; [apply full_table_insert, new_table_full|split; [|split]]].
    - intros p Hp. rewrite (new_table_in_bounds grid false p Hp). simpl.
      split; [discriminate|]. intros H. apply elem_of_nil in H as [].
    - intros p Hp Hnin. rewrite lookup_insert_ne.
      + apply new_table_in_bounds, Hp.
      + intros ->. apply Hnin. left.
    - intros p Hp. apply list_elem_of_singleton in Hp as ->.
      exists 0%nat. split; [apply lookup_insert_eq|apply distance_self].
    - intros x Hx. apply list_elem_of_singleton in Hx as ->. apply lookup_insert_eq. }
  destruct Hkeep as (pending & Hinv & _ & _ & _ & _ & Hinf & Hfinite & _).
  assert (Hcell : ∀ p, in_bounds grid p →
            t_cells (dj_distances st) !! p = Some Infinity
            ∨ ∃ k, t_cells (dj_distances st) !! p = Some (Fin (Z.of_nat k))
                   ∧ distance grid s p k).
  { intros p Hp.
    destruct (decide (p ∈ dj_visitedNodesInOrder st ++ (val <$> dj_unvisitedNodes st)))
      as [Hin|Hnin]; [right; apply Hfinite, Hin|left; apply Hinf; assumption]. }
  simpl. split.
  - destruct (Hvisd s) as (k & Hk & Hdk).
    { eapply final_start, Hfin. }
    rewrite Hk. rewrite (distance_unique grid s s k 0%nat Hdk (distance_self grid s)).
    reflexivity.
  - intros p Hp. split; [apply Hcell, Hp|].
    intros Hno. destruct (Hcell p Hp) as [Hinfty|(k & _ & Hk)]; [exact Hinfty|].
    exfalso. apply Hno. eapply distance_reachable, Hk.
Qed.
End Distances.

Lemma dijkstra_distances_witness :
  ∃ r t,
    dijkstra (Some blocked_corridor) (Some (0, 0)) (Some (0, 2)) = Ret r
    ∧ distances r = Some t
    ∧ t_cells t !! ((0, 0) : Coord) = Some (Fin 0)
    ∧ ∀ p, in_bounds blocked_corridor p →
        (t_cells t !! p = Some Infinity
         ∨ ∃ k, t_cells t !! p = Some (Fin (Z.of_nat k))
                ∧ distance blocked_corridor (0, 0) p k)
        ∧ (¬ reachable blocked_corridor (0, 0) p → t_cells t !! p = Some Infinity).
Proof.
  apply (dijkstra_distances blocked_corridor).
  - apply valid_gridb_ok. reflexivity.
  - apply isValidPosition_spec. reflexivity.
  - apply isValidPosition_spec. reflexivity.
Defined.
